(** * Register-allocation core of the vISA backend: interference graph,
      augmentation, colouring, spill retry and physical-register offsets.

    Shallow embedding of [visa/GraphColor.h] and [visa/PhyRegCompute.cpp].
    C++ [unsigned] values are integers in [0, 2^32) with the wrap-around
    written out; arrays and vectors are lists addressed by index; an access
    that C++ leaves undefined (null matrix, index out of bounds) makes the
    operation return [None]. *)

From Stdlib Require Import ZArith Lia Bool List Sorting.Sorted Permutation.
From stdpp Require Import base option list gmap sets.

Local Open Scope Z_scope.

(** ** Machine arithmetic *)

Definition BITS_DWORD : Z := 32.
Definition UINT_MAX : Z := 4294967295.

Definition wrap32 (x : Z) : Z := x mod 2 ^ 32.
Definition wrap64 (x : Z) : Z := x mod 2 ^ 64.

(** [unsigned] value *)
Definition is_unsigned (x : Z) : Prop := 0 <= x < 2 ^ 32.

(** [#define ROUND(x, y) ((x) + ((y - x % y) % y))] *)
Definition ROUND (x y : Z) : Z := x + ((y - x mod y) mod y).

(** ** class Interference *)

Record Interference : Type := mkInterference {
  maxId : Z;                       (* const unsigned maxId *)
  rowSize : Z;                     (* const unsigned rowSize *)
  denseMatrixLimit : Z;            (* unsigned int denseMatrixLimit *)
  matrix : option (list Z);        (* unsigned *matrix = nullptr *)
  sparseMatrix : list (gset Z)     (* std::vector<llvm_SBitVector> *)
}.

Definition set_matrix (m : list Z) (I : Interference) : Interference :=
  mkInterference (maxId I) (rowSize I) (denseMatrixLimit I) (Some m)
                 (sparseMatrix I).

Definition set_sparseMatrix (s : list (gset Z)) (I : Interference)
  : Interference :=
  mkInterference (maxId I) (rowSize I) (denseMatrixLimit I) (matrix I) s.

(** The object as the constructor leaves it: no matrix, no sparse rows. *)
Definition newInterference (n rs limit : Z) : Interference :=
  mkInterference n rs limit None [].

Definition useDenseMatrix (I : Interference) : bool :=
  let size := wrap64 (wrap64 (rowSize I) * wrap64 (maxId I)) in
  let max := wrap64 UINT_MAX in
  (maxId I <? denseMatrixLimit I) && (size <? max).

(** [matrix[v1 * rowSize + col]], the index computed in [unsigned]. *)
Definition blockIndex (I : Interference) (v1 col : Z) : nat :=
  Z.to_nat (wrap32 (wrap32 (v1 * rowSize I) + col)).

(** [1 << (v2 % BITS_DWORD)] converted to the [unsigned] word it is or-ed
    into. *)
Definition bitOf (v2 : Z) : Z := wrap32 (Z.shiftl 1 (v2 mod BITS_DWORD)).

Definition safeSetInterference (v1 v2 : Z) (I : Interference)
  : option Interference :=
  if useDenseMatrix I then
    let col := v2 / BITS_DWORD in
    m ← matrix I;
    w ← m !! blockIndex I v1 col;
    Some (set_matrix (<[blockIndex I v1 col := Z.lor w (bitOf v2)]> m) I)
  else
    s ← sparseMatrix I !! Z.to_nat v1;
    Some (set_sparseMatrix (<[Z.to_nat v1 := {[v2]} ∪ s]> (sparseMatrix I)) I).

Definition safeClearInterference (v1 v2 : Z) (I : Interference)
  : option Interference :=
  if useDenseMatrix I then
    let col := v2 / BITS_DWORD in
    m ← matrix I;
    w ← m !! blockIndex I v1 col;
    Some (set_matrix
            (<[blockIndex I v1 col := Z.land w (wrap32 (Z.lnot (bitOf v2)))]> m)
            I)
  else
    s ← sparseMatrix I !! Z.to_nat v1;
    Some (set_sparseMatrix (<[Z.to_nat v1 := s ∖ {[v2]}]> (sparseMatrix I)) I).

Definition init (I : Interference) : Interference :=
  if useDenseMatrix I then
    let N := wrap64 (wrap64 (rowSize I) * wrap64 (maxId I)) in
    set_matrix (replicate (Z.to_nat N) 0) I
  else
    set_sparseMatrix (resize (Z.to_nat (maxId I)) ∅ (sparseMatrix I)) I.

Definition checkAndSetIntf (v1 v2 : Z) (I : Interference)
  : option Interference :=
  if v1 <? v2 then safeSetInterference v1 v2 I
  else if v1 >? v2 then safeSetInterference v2 v1 I
  else Some I.

(** The bit of column [c] in the stored row [r], read without any swap of
    the two ids: what the storage itself holds. *)
Definition edgeStored (I : Interference) (r c : Z) : bool :=
  if useDenseMatrix I then
    match matrix I ≫= (λ m, m !! blockIndex I r (c / BITS_DWORD)) with
    | Some w => Z.testbit w (c mod BITS_DWORD)
    | None => false
    end
  else
    match sparseMatrix I !! Z.to_nat r with
    | Some s => bool_decide (c ∈ s)
    | None => false
    end.

(** Modelled from the spec: the body of [Interference::interfereBetween] is
    not part of the header; by the data model an edge is an unordered pair
    stored upper-triangular, in the row of the smaller id, so the query
    orders the two ids and reads that row. *)
Definition interfereBetween (I : Interference) (v1 v2 : Z) : bool :=
  if v1 >? v2 then edgeStored I v2 v1 else edgeStored I v1 v2.

(** Shape of an initialised graph: the fields are [unsigned], every id has a
    column in a row, and the representation chosen by [useDenseMatrix] is
    the one allocated by [init]. *)
Record wf_intf (I : Interference) : Prop := {
  wf_maxId : is_unsigned (maxId I);
  wf_rowSize : is_unsigned (rowSize I);
  wf_cols : maxId I <= BITS_DWORD * rowSize I;
  wf_dense : useDenseMatrix I = true ->
             exists m, matrix I = Some m /\
                       Z.of_nat (length m) = rowSize I * maxId I;
  wf_sparse : useDenseMatrix I = false ->
              Z.of_nat (length (sparseMatrix I)) = maxId I
}.

(** An id of a live range of the graph. *)
Definition validId (I : Interference) (v : Z) : Prop := 0 <= v < maxId I.

(** [covered v1 v2 I]: the storage of [I] already holds bit [v2] of row
    [v1], so that writing it again changes nothing. *)
Definition covered (v1 v2 : Z) (I : Interference) : Prop :=
  if useDenseMatrix I then
    exists m w, matrix I = Some m /\
                m !! blockIndex I v1 (v2 / BITS_DWORD) = Some w /\
                Z.lor w (bitOf v2) = w
  else
    exists s, sparseMatrix I !! Z.to_nat v1 = Some s /\ {[v2]} ∪ s = s.

(** Both ends of an edge are ids of the graph. *)
Definition validEdge (I : Interference) (e : Z * Z) : Prop :=
  validId I (fst e) /\ validId I (snd e).

(** The edge insertions of a construction pass, in program order. *)
Fixpoint buildEdges (es : list (Z * Z)) (I : Interference)
  : option Interference :=
  match es with
  | [] => Some I
  | (v1, v2) :: rest => I' ← checkAndSetIntf v1 v2 I; buildEdges rest I'
  end.

(** *** Construction from liveness *)

Record G4_INST : Type := mkInst {
  inst_dst : option Z;             (* id of the destination variable *)
  inst_srcs : list Z               (* ids of the source variables *)
}.

Record G4_BB : Type := mkBB {
  instList : list G4_INST;
  liveOut : list Z                 (* supplied by the liveness oracle *)
}.

(** Modelled from the spec: the bodies of [buildInterferenceWithinBB] and
    [buildInterferenceWithLive] are not part of the header. Each block is
    walked in reverse with a live set seeded from its live-out set; a
    destination interferes with every live variable except itself, is then
    removed from the live set, and the sources are added. *)
Fixpoint buildInterferenceWithinBB (rinsts : list G4_INST) (live : gset Z)
  : list (Z * Z) :=
  match rinsts with
  | [] => []
  | i :: rest =>
      match inst_dst i with
      | Some d =>
          map (λ v, (v, d)) (elements (live ∖ {[d]}))
          ++ buildInterferenceWithinBB rest
               (list_to_set (inst_srcs i) ∪ (live ∖ {[d]}))
      | None =>
          buildInterferenceWithinBB rest (list_to_set (inst_srcs i) ∪ live)
      end
  end.

Definition edgesOfBB (bb : G4_BB) : list (Z * Z) :=
  buildInterferenceWithinBB (rev (instList bb)) (list_to_set (liveOut bb)).

Definition computeInterference (bbs : list G4_BB) (I : Interference)
  : option Interference :=
  buildEdges (concat (map edgesOfBB bbs)) I.

(** ** Assertions *)

Inductive AssertMsg : Type :=
| ERROR_UNKNOWN
| SubRegAlignmentConflict.         (* "Sub reg alignment conflict" *)

(** Outcome of code guarded by [vISA_ASSERT]: the value, or the assertion
    that fired. *)
Inductive Outcome (A : Type) : Type :=
| Ok (a : A)
| AssertionFailed (msg : AssertMsg).
Arguments Ok {A} a.
Arguments AssertionFailed {A} msg.

(** ** GlobalRA: per-declare allocation data *)

Section SubRegAlign.

(** [G4_SubReg_Align] is declared outside the header; as the header does
    ([subAlign % 2], [subAlign > subAlg]) an alignment is used through its
    numeric value. [Any] is the enumerator of an unconstrained variable. *)
Variable Any : Z.

Record RAVarInfo : Type := mkRAVarInfo {
  subAlign : Z;                    (* G4_SubReg_Align subAlign = Any *)
  isEvenAlign : bool               (* bool isEvenAlign = false *)
}.

Definition defaultValues : RAVarInfo := mkRAVarInfo Any false.

(** [vars.resize(dclid + 1)] when the declare id is not yet covered. *)
Definition allocVar (vars : list RAVarInfo) (dclid : nat) : list RAVarInfo :=
  if (length vars <=? dclid)%nat then resize (S dclid) defaultValues vars
  else vars.

Definition getSubRegAlign (vars : list RAVarInfo) (dclid : nat) : option Z :=
  subAlign <$> vars !! dclid.

Definition setSubRegAlign (vars : list RAVarInfo) (dclid : nat) (subAlg : Z)
  : Outcome (list RAVarInfo) :=
  let vars' := allocVar vars dclid in
  match vars' !! dclid with
  | None => Ok vars'
  | Some info =>
      let cur := subAlign info in
      if negb ((cur =? Any) || (cur =? subAlg) || (cur mod 2 =? 0)) then
        AssertionFailed ERROR_UNKNOWN
      else if cur >? subAlg then
        if cur mod subAlg =? 0 then Ok vars'
        else AssertionFailed SubRegAlignmentConflict
      else
        if subAlg mod cur =? 0 then
          Ok (<[dclid := mkRAVarInfo subAlg (isEvenAlign info)]> vars')
        else AssertionFailed SubRegAlignmentConflict
  end.

(** The alignment the declare has when the call is made: the stored one, or
    the default of a fresh [RAVarInfo]. *)
Definition currentSubRegAlign (vars : list RAVarInfo) (dclid : nat) : Z :=
  default Any (getSubRegAlign vars dclid).

End SubRegAlign.

(** ** Physical register offsets of operands (PhyRegCompute.cpp) *)

Inductive G4_PhyReg : Type :=
| G4_Greg (regNum : Z)             (* general register file *)
| G4_Areg (archReg : Z).           (* any architecture register *)

Definition isGreg (p : G4_PhyReg) : bool :=
  match p with G4_Greg _ => true | G4_Areg _ => false end.

Record G4_RegVar : Type := mkRegVar {
  phyReg : option G4_PhyReg;       (* assigned physical register, if any *)
  phyRegOff : Z;                   (* unsigned sub-register offset *)
  regVarDeclare : nat              (* the declare the variable belongs to *)
}.

Definition isPhyRegAssigned (v : G4_RegVar) : bool :=
  bool_decide (is_Some (phyReg v)).

Inductive G4_VarBase : Type :=
| VarBase_RegVar (v : G4_RegVar)
| VarBase_PhyReg (p : G4_PhyReg).

Record G4_Declare : Type := mkDeclare {
  elemSize : Z;                    (* getElemSize() *)
  GRFBaseOffset : Z                (* set by setGRFBaseOffset *)
}.

Definition setGRFBaseOffset (off : Z) (d : G4_Declare) : G4_Declare :=
  mkDeclare (elemSize d) off.

Section PhyRegCompute.

Variable G4_Type : Type.
Variable TypeSize : G4_Type -> Z.
(** [numEltPerGRF<Type_UB>()]: bytes in one general register. *)
Variable numEltPerGRF_UB : Z.

Record G4_RegRegion : Type := mkRegion {
  base : G4_VarBase;
  type : G4_Type
}.

(** The declares of the kernel, addressed by declare id. *)
Abbreviation Declares := (gmap nat G4_Declare).

Definition G4_SrcRegRegion_computePReg (r : G4_RegRegion) (ds : Declares)
  : Declares :=
  let thisOpSize := TypeSize (type r) in
  match base r with
  | VarBase_RegVar baseVar =>
      match phyReg baseVar with
      | Some (G4_Greg n) =>
          match ds !! regVarDeclare baseVar with
          | Some dcl =>
              let regNum := n in
              let subRegNum := phyRegOff baseVar in
              let declOpSize := elemSize dcl in
              let subRegNum :=
                if negb (thisOpSize =? declOpSize)
                then wrap32 (subRegNum * wrap32 declOpSize) / wrap32 thisOpSize
                else subRegNum in
              let linearizedStart :=
                wrap32 (wrap32 (regNum * numEltPerGRF_UB)
                        + wrap32 (subRegNum * wrap32 thisOpSize)) in
              <[regVarDeclare baseVar := setGRFBaseOffset linearizedStart dcl]>
                ds
          | None => ds
          end
      | _ => ds
      end
  | VarBase_PhyReg _ => ds
  end.

Definition G4_DstRegRegion_computePReg (r : G4_RegRegion) (ds : Declares)
  : Declares :=
  match base r with
  | VarBase_RegVar baseVar =>
      match phyReg baseVar with
      | Some (G4_Greg n) =>
          match ds !! regVarDeclare baseVar with
          | Some dcl =>
              let regNum := n in
              let subRegNum := phyRegOff baseVar in
              let declOpSize := elemSize dcl in
              let thisOpSize := TypeSize (type r) in
              let subRegNum :=
                if negb (thisOpSize =? declOpSize)
                then wrap32 (subRegNum * wrap32 declOpSize) / wrap32 thisOpSize
                else subRegNum in
              let linearizedStart :=
                wrap32 (wrap32 (regNum * numEltPerGRF_UB)
                        + wrap32 (subRegNum * wrap32 thisOpSize)) in
              <[regVarDeclare baseVar := setGRFBaseOffset linearizedStart dcl]>
                ds
          | None => ds
          end
      | _ => ds
      end
  | VarBase_PhyReg _ => ds
  end.

(** The offset as the specification words it, in exact integers: the
    sub-register number is rescaled when the operand's type size differs
    from the declare's element size, then
    [regNum * bytesPerGRF + subRegNum * thisOpSize]. *)
Definition specGRFBaseOffset (regNum subRegNum declElemSize thisOpSize : Z)
  : Z :=
  let subRegNum' :=
    if decide (thisOpSize = declElemSize) then subRegNum
    else (subRegNum * declElemSize) / thisOpSize in
  regNum * numEltPerGRF_UB + subRegNum' * thisOpSize.

(** The operand addresses a register variable that has been given a general
    register. *)
Definition greg_assigned (r : G4_RegRegion) : option (G4_RegVar * Z) :=
  match base r with
  | VarBase_RegVar v =>
      match phyReg v with
      | Some (G4_Greg n) => Some (v, n)
      | _ => None
      end
  | VarBase_PhyReg _ => None
  end.

End PhyRegCompute.

(** The condition of the first assertion of [setSubRegAlign]: the current
    alignment is [Any], equal to the requested one, or even. *)
Definition alignAdmissible (Any cur subAlg : Z) : Prop :=
  cur = Any \/ cur = subAlg \/ cur mod 2 = 0.

(** ** Augmentation *)

Inductive AugmentationMasks : Type :=
| Undetermined                     (* = 0 *)
| Default16Bit                     (* = 1 *)
| Default32Bit                     (* = 2 *)
| Default64Bit                     (* = 3 *)
| DefaultPredicateMask             (* = 4 *)
| NonDefault.                      (* = 5 *)

#[global] Instance AugmentationMasks_eq_dec : EqDecision AugmentationMasks.
Proof. solve_decision. Defined.

(** [GlobalRA::getAugmentationMask] over the [varMasks] vector. *)
Definition getAugmentationMask (varMasks : list AugmentationMasks)
    (dclid : nat) : AugmentationMasks :=
  if (length varMasks <=? dclid)%nat then Undetermined
  else default Undetermined (varMasks !! dclid).

Definition getHasNonDefaultMaskDef (varMasks : list AugmentationMasks)
    (dclid : nat) : bool :=
  bool_decide (getAugmentationMask varMasks dclid = NonDefault).

(** A declare as the augmentation handles it: its declare id, the id of its
    live range, and the lexical ids of the instructions that start and end
    its live interval ([getStartInterval], [getEndInterval]). *)
Record LiveInterval : Type := mkInterval {
  declId : nat;
  lrId : Z;
  startInterval : Z;
  endInterval : Z
}.

(** Modelled from the spec: the body of
    [criticalCmpForEndInterval::operator()] is not part of the header. The
    queues are ordered by ascending end point, ties broken by ascending start
    point; as the comparison of a [std::priority_queue] it is therefore
    [true] when [A] has to leave the queue after [B]. *)
Definition criticalCmpForEndInterval (A B : LiveInterval) : bool :=
  (endInterval A >? endInterval B)
  || ((endInterval A =? endInterval B)
      && (startInterval A >? startInterval B)).

(** [AugmentPriorityQueue]: a [std::priority_queue] kept as the list of its
    elements in the order in which [top]/[pop] deliver them. *)
Fixpoint pq_push (x : LiveInterval) (q : list LiveInterval)
  : list LiveInterval :=
  match q with
  | [] => [x]
  | y :: q' =>
      if criticalCmpForEndInterval x y then y :: pq_push x q' else x :: y :: q'
  end.

Definition pq_top (q : list LiveInterval) : option LiveInterval := head q.
Definition pq_pop (q : list LiveInterval) : list LiveInterval := tail q.

(** Modelled from the spec: [Augmentation::sortLiveIntervals] (body not in
    the header) puts all intervals in the order of the queues: ascending end
    point, then ascending start point. *)
Definition sortLiveIntervals (dcls : list LiveInterval) : list LiveInterval :=
  foldr pq_push [] dcls.

(** The ordering key of an interval. *)
Definition intervalKey (d : LiveInterval) : Z * Z :=
  (endInterval d, startInterval d).

Definition key_le (k1 k2 : Z * Z) : Prop :=
  fst k1 < fst k2 \/ (fst k1 = fst k2 /\ snd k1 <= snd k2).

Definition interval_le (A B : LiveInterval) : Prop :=
  key_le (intervalKey A) (intervalKey B).

(** Modelled from the spec: bit width of a default mask
    ([getByteSizeFromMask] is declared only); the predicate mask, the
    undetermined and the non-default classification have none. *)
Definition maskBitWidth (m : AugmentationMasks) : option Z :=
  match m with
  | Default16Bit => Some 16
  | Default32Bit => Some 32
  | Default64Bit => Some 64
  | _ => None
  end.

(** Same default mask and same bit width. *)
Definition sameDefaultMask (m1 m2 : AugmentationMasks) : bool :=
  match maskBitWidth m1, maskBitWidth m2 with
  | Some w1, Some w2 => bool_decide (m1 = m2) && (w1 =? w2)
  | _, _ => false
  end.

(** The two queues of [class Augmentation]. *)
Record Augmentation : Type := mkAugmentation {
  defaultMaskQueue : list LiveInterval;
  nonDefaultMaskQueue : list LiveInterval
}.

Definition activeIntervals (aug : Augmentation) : list LiveInterval :=
  defaultMaskQueue aug ++ nonDefaultMaskQueue aug.

(** Modelled from the spec: the bodies of [expireIntervals],
    [handleSIMDIntf] and [buildSIMDIntfAll] are not part of the header. An
    interval expires when its end point precedes the current start; the new
    interval is compared with every interval still active: same default mask
    and same bit width, no edge; otherwise a full interference edge. *)
Fixpoint pq_expire (startIdx : Z) (q : list LiveInterval)
  : list LiveInterval :=
  match q with
  | [] => []
  | y :: q' =>
      if endInterval y <? startIdx then pq_expire startIdx q' else q
  end.

(** Modelled from the spec: [Augmentation::expireIntervals] (declared
    only) drops from both queues the intervals that end before
    [startIdx]. *)
Definition expireIntervals (startIdx : Z) (aug : Augmentation)
  : Augmentation :=
  mkAugmentation (pq_expire startIdx (defaultMaskQueue aug))
                 (pq_expire startIdx (nonDefaultMaskQueue aug)).

(** Modelled from the spec: [Augmentation::handleSIMDIntf] (declared only)
    inserts the full interference edge between the two declares. *)
Definition handleSIMDIntf (firstDcl secondDcl : LiveInterval)
    (I : Interference) : option Interference :=
  checkAndSetIntf (lrId firstDcl) (lrId secondDcl) I.

(** Modelled from the spec: [Augmentation::buildSIMDIntfDcl] (declared
    only) compares the new declare with each active one. *)
Fixpoint buildSIMDIntfDcl (varMasks : list AugmentationMasks)
    (newDcl : LiveInterval) (active : list LiveInterval) (I : Interference)
  : option Interference :=
  match active with
  | [] => Some I
  | a :: rest =>
      I' ← (if sameDefaultMask (getAugmentationMask varMasks (declId a))
                               (getAugmentationMask varMasks (declId newDcl))
            then Some I
            else handleSIMDIntf a newDcl I);
      buildSIMDIntfDcl varMasks newDcl rest I'
  end.

(** Modelled from the spec: [Augmentation::buildSIMDIntfAll] (declared
    only) runs the comparison against every interval still in a queue. *)
Definition buildSIMDIntfAll (varMasks : list AugmentationMasks)
    (newDcl : LiveInterval) (aug : Augmentation) (I : Interference)
  : option Interference :=
  buildSIMDIntfDcl varMasks newDcl (activeIntervals aug) I.

(** Modelled from the spec: the new interval joins the default-mask queue
    when its mask is a default mask, the non-default queue otherwise. *)
Definition enqueue (varMasks : list AugmentationMasks) (newDcl : LiveInterval)
    (aug : Augmentation) : Augmentation :=
  if bool_decide (is_Some (maskBitWidth
                             (getAugmentationMask varMasks (declId newDcl))))
  then mkAugmentation (pq_push newDcl (defaultMaskQueue aug))
                      (nonDefaultMaskQueue aug)
  else mkAugmentation (defaultMaskQueue aug)
                      (pq_push newDcl (nonDefaultMaskQueue aug)).

(** Modelled from the spec: one step of the sweep of
    [Augmentation::buildInterferenceIncompatibleMask] (declared only) for
    the interval [newDcl]: expire, compare, enqueue. *)
Definition sweepStep (varMasks : list AugmentationMasks)
    (newDcl : LiveInterval) (st : Augmentation * Interference)
  : option (Augmentation * Interference) :=
  let aug := expireIntervals (startInterval newDcl) (fst st) in
  I' ← buildSIMDIntfAll varMasks newDcl aug (snd st);
  Some (enqueue varMasks newDcl aug, I').

(** Modelled from the spec: the sweep over the sorted intervals. *)
Fixpoint buildInterferenceIncompatibleMask
    (varMasks : list AugmentationMasks) (sorted : list LiveInterval)
    (st : Augmentation * Interference)
  : option (Augmentation * Interference) :=
  match sorted with
  | [] => Some st
  | d :: rest =>
      st' ← sweepStep varMasks d st;
      buildInterferenceIncompatibleMask varMasks rest st'
  end.

(** The edges [buildSIMDIntfDcl] asks for. *)
Definition simdEdges (varMasks : list AugmentationMasks)
    (newDcl : LiveInterval) (active : list LiveInterval) : list (Z * Z) :=
  map (fun a => (lrId a, lrId newDcl))
      (List.filter
         (fun a => negb (sameDefaultMask
                           (getAugmentationMask varMasks (declId a))
                           (getAugmentationMask varMasks (declId newDcl))))
         active).

(** The intervals a queue holds in the course of the sweep: after each
    interval of [l], in turn, has expired the queues and joined its own. *)
Definition queuesAfter (varMasks : list AugmentationMasks)
    (l : list LiveInterval) (aug : Augmentation) : Augmentation :=
  fold_left (fun aug d =>
               enqueue varMasks d (expireIntervals (startInterval d) aug))
            l aug.

(** The edges the sweep over [l] asks for, in the order of the requests. *)
Fixpoint sweepEdges (varMasks : list AugmentationMasks)
    (l : list LiveInterval) (aug : Augmentation) : list (Z * Z) :=
  match l with
  | [] => []
  | d :: rest =>
      let aug' := expireIntervals (startInterval d) aug in
      simdEdges varMasks d (activeIntervals aug')
      ++ sweepEdges varMasks rest (enqueue varMasks d aug')
  end.

(** The lexical intervals of two declares have an instruction in common. *)
Definition intervalsOverlap (a b : LiveInterval) : bool :=
  (startInterval a <=? endInterval b) && (startInterval b <=? endInterval a).

(** [a] has not expired when [b] is processed, the intervals of [between]
    having been processed after [a] and before [b]: none of them, nor [b],
    starts after the end of [a]. *)
Definition stillActive (a : LiveInterval) (between : list LiveInterval)
    (b : LiveInterval) : bool :=
  forallb (fun c => startInterval c <=? endInterval a) (between ++ [b]).

(** An arrangement of the intervals [dcls] that the ordering rule allows:
    the same intervals, in ascending order of end point, ties in ascending
    order of start point. *)
Definition orderedByEndThenStart (dcls sorted : list LiveInterval) : Prop :=
  Permutation dcls sorted /\ StronglySorted interval_le sorted.

(** Some insertion of the sequence writes the bit of row [r], column [c]. *)
Definition writesBit (es : list (Z * Z)) (r c : Z) : bool :=
  existsb (fun e => negb (fst e =? snd e) && (r =? Z.min (fst e) (snd e))
                    && (c =? Z.max (fst e) (snd e))) es.

(** ** Live ranges and the colouring engine *)

Inductive BankConflict : Type :=
| BANK_CONFLICT_NONE
| BANK_CONFLICT_FIRST_HALF_EVEN
| BANK_CONFLICT_FIRST_HALF_ODD
| BANK_CONFLICT_SECOND_HALF_EVEN
| BANK_CONFLICT_SECOND_HALF_ODD.

Record AssignedReg : Type := mkAssignedReg {
  ar_phyReg : option G4_PhyReg;    (* reg.phyReg, nullptr when unassigned *)
  ar_subRegOff : Z                 (* reg.subRegOff *)
}.

Record LiveRange : Type := mkLiveRange {
  numRegNeeded : Z;                (* unsigned numRegNeeded *)
  forbidden : gset Z;              (* BitSet *forbidden *)
  spilled : bool;                  (* bool spilled = false *)
  reg : AssignedReg;
  bc : BankConflict;               (* BankConflict bc *)
  evenAligned : bool;              (* gra.isEvenAligned(dcl) *)
  byteSize : Z                     (* getDcl()->getByteSize() *)
}.

Definition getPhyReg (lr : LiveRange) : option G4_PhyReg := ar_phyReg (reg lr).
Definition getPhyRegOff (lr : LiveRange) : Z := ar_subRegOff (reg lr).
Definition isSpilled (lr : LiveRange) : bool := spilled lr.

Definition setPhyReg (pr : G4_PhyReg) (off : Z) (lr : LiveRange) : LiveRange :=
  mkLiveRange (numRegNeeded lr) (forbidden lr) (spilled lr)
              (mkAssignedReg (Some pr) off) (bc lr) (evenAligned lr)
              (byteSize lr).

Definition resetPhyReg (lr : LiveRange) : LiveRange :=
  mkLiveRange (numRegNeeded lr) (forbidden lr) (spilled lr)
              (mkAssignedReg None 0) (bc lr) (evenAligned lr) (byteSize lr).

Definition setSpilled (v : bool) (lr : LiveRange) : LiveRange :=
  mkLiveRange (numRegNeeded lr) (forbidden lr) v (reg lr) (bc lr)
              (evenAligned lr) (byteSize lr).

(** [class GraphColor]; a [LiveRange *] is the index of the live range in
    [lrs], which is also its id in the interference graph. *)
Record GraphColor : Type := mkGraphColor {
  totalGRFRegCount : Z;
  intf : Interference;
  lrs : list LiveRange;            (* LiveRangeVec &lrs *)
  spilledLRs : list nat;           (* LIVERANGE_LIST spilledLRs *)
  colorOrder : list nat            (* LiveRangeVec colorOrder *)
}.

Definition requireSpillCode (gc : GraphColor) : bool :=
  negb (bool_decide (spilledLRs gc = [])).

Definition getSpilledLiveRanges (gc : GraphColor) : list nat := spilledLRs gc.

(** The general register assigned to a live range, if it has one. *)
Definition assignedGRF (lr : LiveRange) : option Z :=
  match getPhyReg lr with
  | Some (G4_Greg r) => Some r
  | _ => None
  end.

(** The half-open ranges [[a, a + n)] and [[b, b + m)] share an element. *)
Definition rangesOverlap (a n b m : Z) : bool :=
  Z.max a b <? Z.min (a + n) (b + m).

(** Modelled from the spec: the body of [GraphColor::assignColors] is not
    part of the header. A colour is the first of [numRegNeeded] adjacent
    registers; it is legal when the registers exist, respect the alignment,
    avoid the forbidden set, and do not overlap the registers of an
    interfering live range that is already coloured. The lowest legal
    colour is taken, one agreeing with the bank-conflict hint when there is
    such a colour; a live range without a legal colour is marked spilled and
    appended to [spilledLRs]. *)
Fixpoint neighborConflict (I : Interference) (i : Z) (r n : Z) (j : Z)
    (others : list LiveRange) : bool :=
  match others with
  | [] => false
  | nb :: rest =>
      (negb (j =? i) && interfereBetween I i j
       && match assignedGRF nb with
          | Some r' => rangesOverlap r n r' (numRegNeeded nb)
          | None => false
          end)
      || neighborConflict I i r n (j + 1) rest
  end.

(** Modelled from the spec: legality of colour [r] for live range [i]
    (part of [assignColors]). *)
Definition colorLegal (gc : GraphColor) (i : nat) (lr : LiveRange) (r : Z)
  : bool :=
  (r + numRegNeeded lr <=? totalGRFRegCount gc)
  && (if evenAligned lr then r mod 2 =? 0 else true)
  && forallb (fun k => negb (bool_decide (k ∈ forbidden lr)))
             (seqZ r (numRegNeeded lr))
  && negb (neighborConflict (intf gc) (Z.of_nat i) r (numRegNeeded lr) 0
                            (lrs gc)).

(** Modelled from the spec: the bank-conflict hint is a preference for an
    even or an odd register, never a constraint. *)
Definition bankPreferred (b : BankConflict) (r : Z) : bool :=
  match b with
  | BANK_CONFLICT_NONE => true
  | BANK_CONFLICT_FIRST_HALF_EVEN | BANK_CONFLICT_SECOND_HALF_EVEN =>
      r mod 2 =? 0
  | BANK_CONFLICT_FIRST_HALF_ODD | BANK_CONFLICT_SECOND_HALF_ODD =>
      r mod 2 =? 1
  end.

(** Modelled from the spec: the lowest legal colour, preferring one that
    agrees with the hint. *)
Definition findColor (gc : GraphColor) (i : nat) (lr : LiveRange) : option Z :=
  let colors := seqZ 0 (totalGRFRegCount gc) in
  match find (fun r => colorLegal gc i lr r && bankPreferred (bc lr) r) colors
  with
  | Some r => Some r
  | None => find (colorLegal gc i lr) colors
  end.

Definition set_lrs (l : list LiveRange) (gc : GraphColor) : GraphColor :=
  mkGraphColor (totalGRFRegCount gc) (intf gc) l (spilledLRs gc)
               (colorOrder gc).

Definition push_spilled (i : nat) (gc : GraphColor) : GraphColor :=
  mkGraphColor (totalGRFRegCount gc) (intf gc) (lrs gc) (spilledLRs gc ++ [i])
               (colorOrder gc).

(** Modelled from the spec: the turn of live range [i] in [assignColors]:
    [setPhyReg] with the colour found, or the spill mark and a place in
    [spilledLRs]. *)
Definition assignColor (gc : GraphColor) (i : nat) : GraphColor :=
  match lrs gc !! i with
  | None => gc
  | Some lr =>
      match findColor gc i lr with
      | Some r => set_lrs (<[i := setPhyReg (G4_Greg r) 0 lr]> (lrs gc)) gc
      | None =>
          push_spilled i (set_lrs (<[i := setSpilled true lr]> (lrs gc)) gc)
      end
  end.

(** Modelled from the spec: [assignColors] gives every live range of the
    colouring order one turn, in that order. *)
Definition colorPass (order : list nat) (gc : GraphColor) : GraphColor :=
  foldl assignColor gc order.

Definition assignColors (gc : GraphColor) : GraphColor :=
  colorPass (colorOrder gc) gc.

(** Modelled from the spec: [GraphColor::regAlloc] (body not in the header)
    reports success when no live range had to be spilled. *)
Definition regAlloc (gc : GraphColor) : bool * GraphColor :=
  let gc' := assignColors gc in (negb (requireSpillCode gc'), gc').

(** The state [createLiveRanges] hands to a colouring pass: nothing
    assigned, nothing spilled. *)
Definition freshLiveRange (lr : LiveRange) : Prop :=
  getPhyReg lr = None /\ spilled lr = false.

Definition freshGraphColor (gc : GraphColor) : Prop :=
  Forall freshLiveRange (lrs gc) /\ spilledLRs gc = [].

(** *** Spill locations *)

(** Modelled from the spec: [SpillManager::createSpillLocations] is declared
    only. Every spilled live range gets a slot of its own, sized to its byte
    size rounded up to the block-transfer granularity; slots are laid out
    one after the other. *)
Fixpoint createSpillLocations (granule : Z) (ranges : list LiveRange)
    (spilledList : list nat) (nextOff : Z) (slots : gmap nat (Z * Z))
  : gmap nat (Z * Z) :=
  match spilledList with
  | [] => slots
  | i :: rest =>
      match ranges !! i with
      | Some lr =>
          let sz := ROUND (byteSize lr) granule in
          createSpillLocations granule ranges rest (nextOff + sz)
                               (<[i := (nextOff, sz)]> slots)
      | None => createSpillLocations granule ranges rest nextOff slots
      end
  end.

(** Modelled from the spec: what is produced for the code-emission stage,
    per live range: a register range or a spill slot. *)
Inductive Storage : Type :=
| InRegisters (first count : Z)
| InSpillSlot (offset size : Z)
| Unallocated.

Definition storageOf (gc : GraphColor) (slots : gmap nat (Z * Z)) (i : nat)
  : Storage :=
  match lrs gc !! i with
  | Some lr =>
      if isSpilled lr then
        match slots !! i with
        | Some (o, s) => InSpillSlot o s
        | None => Unallocated
        end
      else
        match assignedGRF lr with
        | Some r => InRegisters r (numRegNeeded lr)
        | None => Unallocated
        end
  | None => Unallocated
  end.

Definition storageOverlap (s1 s2 : Storage) : bool :=
  match s1, s2 with
  | InRegisters a n, InRegisters b m => rangesOverlap a n b m
  | InSpillSlot a n, InSpillSlot b m => rangesOverlap a n b m
  | _, _ => false
  end.

(** Invariant of a colouring pass: interfering live ranges that both hold
    registers hold disjoint ones. *)
Definition conflictFree (gc : GraphColor) : Prop :=
  forall i j li lj ri rj,
    i <> j -> lrs gc !! i = Some li -> lrs gc !! j = Some lj ->
    interfereBetween (intf gc) (Z.of_nat i) (Z.of_nat j) = true ->
    assignedGRF li = Some ri -> assignedGRF lj = Some rj ->
    rangesOverlap ri (numRegNeeded li) rj (numRegNeeded lj) = false.

(** Slots handed out so far end at or before [nextOff] and are pairwise
    disjoint. *)
Definition slotsDisjoint (nextOff : Z) (slots : gmap nat (Z * Z)) : Prop :=
  (forall i o s, slots !! i = Some (o, s) -> o + s <= nextOff) /\
  (forall i j o s o' s', i <> j -> slots !! i = Some (o, s) ->
                         slots !! j = Some (o', s') ->
                         rangesOverlap o s o' s' = false).

(** The spilled list and the spill marks of the live ranges agree. *)
Definition spillListExact (gc : GraphColor) : Prop :=
  forall i, In i (spilledLRs gc) <->
            exists lr, lrs gc !! i = Some lr /\ spilled lr = true.

(** A live range that has had its turn holds registers or is spilled. *)
Definition settled (gc : GraphColor) (i : nat) : Prop :=
  exists lr, lrs gc !! i = Some lr
             /\ (is_Some (assignedGRF lr) \/ spilled lr = true).

(** Scenario A of the specification: three one-register live ranges that
    interfere pairwise, and a budget of two registers. *)
Definition scenarioA : GraphColor :=
  let lr := mkLiveRange 1 ∅ false (mkAssignedReg None 0) BANK_CONFLICT_NONE
                        false 32 in
  let I0 := init (newInterference 3 1 100) in
  mkGraphColor 2 (default I0 (buildEdges [(0, 1); (0, 2); (1, 2)] I0))
               [lr; lr; lr] [] [0; 1; 2]%nat.

Definition set_intf (I : Interference) (gc : GraphColor) : GraphColor :=
  mkGraphColor (totalGRFRegCount gc) I (lrs gc) (spilledLRs gc)
               (colorOrder gc).

(** Augmentation followed by colouring, as in the control flow of the
    allocator: the intervals are sorted, the sweep adds its edges to the
    interference graph, and the live ranges are coloured against the
    augmented graph. *)
Definition augmentAndColor (varMasks : list AugmentationMasks)
    (dcls : list LiveInterval) (gc : GraphColor) : option GraphColor :=
  st ← buildInterferenceIncompatibleMask varMasks (sortLiveIntervals dcls)
         (mkAugmentation [] [], intf gc);
  Some (assignColors (set_intf (snd st) gc)).

(** ** The spill-and-retry loop *)

Inductive FatalReason : Type :=
| IterationCapExceeded             (* ran out of allowed iterations *)
| FailSafeInfeasible.              (* even the fail-safe colouring spills *)

Inductive RAOutcome : Type :=
| RA_Success                       (* every live range coloured *)
| RA_SuccessFailSafe               (* coloured in fail-safe mode *)
| RA_Fatal (why : FatalReason).

Record RARun : Type := mkRARun {
  outcome : RAOutcome;
  iterNo : nat;                    (* GlobalRA::iterNo when the loop ends *)
  spillCounts : list nat           (* spill-set size of every iteration that
                                      was run, in the order of the
                                      iterations *)
}.

Section ColoringRegAlloc.

(** The kernel (instruction stream and declares) and the collaborators that
    are only declared in the headers: building the live ranges and the
    interference graph of a kernel, the same with the emergency register
    budget of the fail-safe mode reserved, and
    [SpillManager::insertSpillCode]. *)
Variable Kernel : Type.
Variable buildGraphColor : Kernel -> GraphColor.
Variable buildFailSafe : Kernel -> GraphColor.
Variable insertSpillCode : Kernel -> list nat -> Kernel.

(** Modelled from the spec: the fail-safe mode colours once with the
    emergency budget reserved and aborts if that spills too. *)
Definition failSafeRA (k : Kernel) : RAOutcome :=
  if requireSpillCode (assignColors (buildFailSafe k))
  then RA_Fatal FailSafeInfeasible
  else RA_SuccessFailSafe.

(** The live ranges one colouring of the kernel spills. *)
Definition spilledOf (k : Kernel) : list nat :=
  getSpilledLiveRanges (assignColors (buildGraphColor k)).

(** The kernel that iteration [i] (counted from 0) colours: the input
    rewritten by the spill code of the iterations before it. *)
Fixpoint kernelAt (i : nat) (k : Kernel) : Kernel :=
  match i with
  | O => k
  | S i' => kernelAt i' (insertSpillCode k (spilledOf k))
  end.

(** Modelled from the spec: the body of [GlobalRA::coloringRegAlloc] is not
    part of the header. While the iteration counter is below the configured
    maximum the loop colours the kernel; when live ranges spill it inserts
    spill code and colours the rewritten kernel in the next iteration.
    Reaching the maximum is fatal. A retry is taken only when the number of
    spilled live ranges is below that of the previous iteration, [prev];
    otherwise the loop is left for the fail-safe mode. [fuel] bounds the
    number of passes through the loop head, and the result is [None] when
    it does not suffice. *)
Fixpoint retryLoop (fuel maxRAIterations iter : nat) (prev : option nat)
    (k : Kernel) : option RARun :=
  match fuel with
  | O => None
  | S fuel' =>
      if (maxRAIterations <=? iter)%nat
      then Some (mkRARun (RA_Fatal IterationCapExceeded) iter [])
      else
        let gc := assignColors (buildGraphColor k) in
        let n := length (getSpilledLiveRanges gc) in
        if requireSpillCode gc then
          if match prev with Some p => (p <=? n)%nat | None => false end then
            Some (mkRARun (failSafeRA k) (S iter) [n])
          else
            run ← retryLoop fuel' maxRAIterations (S iter) (Some n)
                    (insertSpillCode k (getSpilledLiveRanges gc));
            Some (mkRARun (outcome run) (iterNo run) (n :: spillCounts run))
        else Some (mkRARun RA_Success (S iter) [n])
  end.

Definition coloringRegAlloc (fuel maxRAIterations : nat) (k : Kernel)
  : option RARun :=
  retryLoop fuel maxRAIterations 0 None k.

(** The spill counts a run of the loop can leave, with the outcome they
    lead to: [room] iterations are left, [prev] is the count of the
    iteration before. *)
Inductive LoopTrace
  : nat -> option nat -> Kernel -> list nat -> RAOutcome -> Prop :=
| trace_cap prev k :
    LoopTrace 0 prev k [] (RA_Fatal IterationCapExceeded)
| trace_success room prev k :
    spilledOf k = [] -> LoopTrace (S room) prev k [0%nat] RA_Success
| trace_failsafe room p k :
    spilledOf k <> [] -> (p <= length (spilledOf k))%nat ->
    LoopTrace (S room) (Some p) k [length (spilledOf k)] (failSafeRA k)
| trace_retry room prev k counts out :
    spilledOf k <> [] ->
    (forall p, prev = Some p -> (length (spilledOf k) < p)%nat) ->
    LoopTrace room (Some (length (spilledOf k)))
              (insertSpillCode k (spilledOf k)) counts out ->
    LoopTrace (S room) prev k (length (spilledOf k) :: counts) out.

End ColoringRegAlloc.

(** Spill code for scenario A: the spilled live ranges leave the colouring
    order, their uses going through memory. *)
Definition spillOutOfOrder (gc : GraphColor) (spilledList : list nat)
  : GraphColor :=
  mkGraphColor (totalGRFRegCount gc) (intf gc) (lrs gc) []
               (List.filter (fun i => negb (bool_decide (i ∈ spilledList)))
                            (colorOrder gc)).

(** Scenario A made worse: four one-register live ranges that interfere
    pairwise, and the same budget of two registers. *)
Definition scenarioA_worse : GraphColor :=
  let lr := mkLiveRange 1 ∅ false (mkAssignedReg None 0) BANK_CONFLICT_NONE
                        false 32 in
  let I0 := init (newInterference 4 1 100) in
  mkGraphColor 2
    (default I0 (buildEdges [(0, 1); (0, 2); (0, 3); (1, 2); (1, 3); (2, 3)]
                            I0))
    [lr; lr; lr; lr] [] [0; 1; 2; 3]%nat.

(** ** Further operations of [class Interference] *)

(** The loop of the sparse branch of [setBlockInterferencesOneWay]: for
    [i] running over [idxs], bit [i] of [block] adds column
    [col * BITS_DWORD + i] (a [uint32_t]) to the row. *)
Fixpoint setBlockBits (col block : Z) (idxs : list Z) (intfSet : gset Z)
  : gset Z :=
  match idxs with
  | [] => intfSet
  | i :: rest =>
      setBlockBits col block rest
        (if negb (Z.land block (wrap32 (Z.shiftl 1 i)) =? 0)
         then {[wrap32 (wrap32 (col * BITS_DWORD) + i)]} ∪ intfSet
         else intfSet)
  end.

(** The debug-only assertion on [sparseIntf] is compiled out of release
    builds and is not modelled. *)
Definition setBlockInterferencesOneWay (v1 col block : Z) (I : Interference)
  : option Interference :=
  if useDenseMatrix I then
    m ← matrix I;
    w ← m !! blockIndex I v1 col;
    Some (set_matrix (<[blockIndex I v1 col := Z.lor w block]> m) I)
  else
    intfSet ← sparseMatrix I !! Z.to_nat v1;
    Some (set_sparseMatrix
            (<[Z.to_nat v1 := setBlockBits col block (seqZ 0 BITS_DWORD)
                                           intfSet]> (sparseMatrix I)) I).

(** [getInterferenceBlk]: [None] when the assertion on [useDenseMatrix]
    fails or the index is outside the matrix. *)
Definition getInterferenceBlk (idx : Z) (I : Interference) : option Z :=
  if useDenseMatrix I then matrix I ≫= (λ m, m !! Z.to_nat idx) else None.

(** The words of the matrix are [uint32_t] values. *)
Definition wordsInRange (I : Interference) : Prop :=
  forall m, matrix I = Some m -> Forall is_unsigned m.

(** ** GlobalRA: copying the alignment of declares *)

(** The part of a [G4_Declare] the alignment bookkeeping reads. *)
Record G4_DeclareRA : Type := mkDeclareRA {
  declareId : nat;                 (* getDeclId() *)
  aliasDeclare : option nat;       (* getAliasDeclare(), nullptr = None *)
  declSubRegAlign : Z;             (* dcl->getSubRegAlign() *)
  declEvenAlign : bool             (* dcl->isEvenAlign() *)
}.

Section CopyAlignment.

Variable Any : Z.

(** [getVar(dcl).isEvenAlign]; [getVar] is undefined outside the vector. *)
Definition isEvenAligned (vars : list RAVarInfo) (dclid : nat) : option bool :=
  isEvenAlign <$> vars !! dclid.

Definition setEvenAligned (vars : list RAVarInfo) (dclid : nat) (e : bool)
  : list RAVarInfo :=
  let vars' := allocVar Any vars dclid in
  match vars' !! dclid with
  | Some info => <[dclid := mkRAVarInfo (subAlign info) e]> vars'
  | None => vars'
  end.

Definition hasAlignSetup (vars : list RAVarInfo) (dcl : G4_DeclareRA)
  : option bool :=
  info ← vars !! declareId dcl;
  Some (negb ((subAlign info =? Any) && negb (declSubRegAlign dcl =? Any))).

(** One iteration of the loop of [copyMissingAlignment]. *)
Definition copyMissingAlignmentStep (vars : list RAVarInfo)
    (dcl : G4_DeclareRA) : Outcome (list RAVarInfo) :=
  if bool_decide (is_Some (aliasDeclare dcl)) then Ok vars
  else
    let vars1 := if (length vars <=? declareId dcl)%nat
                 then allocVar Any vars (declareId dcl) else vars in
    match hasAlignSetup vars1 dcl with
    | Some false =>
        match setSubRegAlign Any vars1 (declareId dcl) (declSubRegAlign dcl)
        with
        | Ok vars2 =>
            Ok (setEvenAligned vars2 (declareId dcl) (declEvenAlign dcl))
        | AssertionFailed msg => AssertionFailed msg
        end
    | _ => Ok vars1
    end.

(** One iteration of the loop of [copyAlignment()]. *)
Definition copyAlignmentStep (vars : list RAVarInfo) (dcl : G4_DeclareRA)
  : Outcome (list RAVarInfo) :=
  if bool_decide (is_Some (aliasDeclare dcl)) then Ok vars
  else
    match setSubRegAlign Any vars (declareId dcl) (declSubRegAlign dcl) with
    | Ok vars2 => Ok (setEvenAligned vars2 (declareId dcl) (declEvenAlign dcl))
    | AssertionFailed msg => AssertionFailed msg
    end.

(** [for (auto dcl : kernel.Declares)] over a body that may assert. *)
Fixpoint forDeclares
    (body : list RAVarInfo -> G4_DeclareRA -> Outcome (list RAVarInfo))
    (declares : list G4_DeclareRA) (vars : list RAVarInfo)
  : Outcome (list RAVarInfo) :=
  match declares with
  | [] => Ok vars
  | dcl :: rest =>
      match body vars dcl with
      | Ok vars' => forDeclares body rest vars'
      | AssertionFailed msg => AssertionFailed msg
      end
  end.

Definition copyMissingAlignment (declares : list G4_DeclareRA)
    (vars : list RAVarInfo) : Outcome (list RAVarInfo) :=
  forDeclares copyMissingAlignmentStep declares vars.

Definition copyAlignment (declares : list G4_DeclareRA)
    (vars : list RAVarInfo) : Outcome (list RAVarInfo) :=
  forDeclares copyAlignmentStep declares vars.

(** [Any] is the weakest alignment: it divides, and does not exceed, the
    alignment the declare asks for. *)
Definition alignAboveAny (dcl : G4_DeclareRA) : Prop :=
  Any <= declSubRegAlign dcl /\ (Any | declSubRegAlign dcl).

(** The stored alignment data of a declare is the declared one. *)
Definition alignCopied (vars : list RAVarInfo) (dcl : G4_DeclareRA) : Prop :=
  vars !! declareId dcl
  = Some (mkRAVarInfo (declSubRegAlign dcl) (declEvenAlign dcl)).

End CopyAlignment.

(** ** GlobalRA: recording augmentation masks *)

Section AugmentationMaskStore.

(** [dcl->getIsSplittedDcl()] and [getSubDclList(dcl)], by declare id. *)
Variable isSplittedDcl : nat -> bool.
Variable subDclList : nat -> list nat.

(** [GlobalRA::setAugmentationMask]. The function calls itself on the
    sub-declares of a split declare; [fuel] bounds the depth of these calls
    and [None] is returned when it does not suffice. A resized vector is
    filled with value-initialised masks, that is [Undetermined]. *)
Fixpoint setAugmentationMask (fuel : nat) (varMasks : list AugmentationMasks)
    (dclid : nat) (m : AugmentationMasks) : option (list AugmentationMasks) :=
  match fuel with
  | O => None
  | S fuel' =>
      let resized := if (length varMasks <=? dclid)%nat
                     then resize (S dclid) Undetermined varMasks
                     else varMasks in
      let stored := <[dclid := m]> resized in
      if isSplittedDcl dclid then
        foldl (fun acc subDcl =>
                 acc ≫= fun vm => setAugmentationMask fuel' vm subDcl m)
              (Some stored) (subDclList dclid)
      else Some stored
  end.

End AugmentationMaskStore.

(** ** GlobalRA: bundles and banks of registers *)

(** [baseReg + offset] with [baseReg] an [unsigned] and [offset] an [int]:
    the offset is converted to [unsigned] and the sum wraps. *)
Definition regPlusOffset (baseReg offset : Z) : Z :=
  wrap32 (baseReg + wrap32 offset).

Definition get_bundle (hasPartialInt64Support : bool) (baseReg offset : Z)
  : Z :=
  if hasPartialInt64Support
  then (regPlusOffset baseReg offset mod 32) / 2
  else (regPlusOffset baseReg offset mod 64) / 4.

Definition get_bank (hasTwoGRFBank16Bundles hasOneGRFBank16Bundles : bool)
    (baseReg offset : Z) : Z :=
  let bankID := regPlusOffset baseReg offset mod 2 in
  let bankID := if hasTwoGRFBank16Bundles
                then (regPlusOffset baseReg offset mod 4) / 2 else bankID in
  let bankID := if hasOneGRFBank16Bundles
                then regPlusOffset baseReg offset mod 2 else bankID in
  wrap32 bankID.

(** ** class SpillManager (SpillCode.h) *)

(** The counters of the spill manager; its other members are references to
    the allocator, the kernel and the builder. *)
Record SpillManager : Type := mkSpillManager {
  sm_bbId : Z;                     (* unsigned bbId *)
  origTempDclId : Z;               (* uint32_t origTempDclId *)
  tempDclId : Z;                   (* uint32_t tempDclId *)
  numFlagSpillStore : Z;
  numFlagSpillLoad : Z
}.

(** The constructor. *)
Definition newSpillManager (startTempDclId : Z) : SpillManager :=
  mkSpillManager UINT_MAX startTempDclId startTempDclId 0 0.

Definition getNumTempCreated (sm : SpillManager) : Z :=
  wrap32 (tempDclId sm - origTempDclId sm).

Definition isAnyNewTempCreated (sm : SpillManager) : bool :=
  negb (getNumTempCreated sm =? 0).

Definition getNextTempDclId (sm : SpillManager) : Z := tempDclId sm.

(** ** GlobalRA: summaries per block and return locations *)

Section BlockMaps.

(** [PhyRegSummary *] *)
Variable PhyRegSummary : Type.
(** [UNDEFINED_VAL], defined outside the header. *)
Variable UNDEFINED_VAL : Z.

(** [bbLocalRAMap.insert(std::make_pair(bb, summary))]: [std::map::insert]
    leaves the map unchanged when the key is present. *)
Definition addBBLRASummary (bb : nat) (summary : PhyRegSummary)
    (bbLocalRAMap : gmap nat PhyRegSummary) : gmap nat PhyRegSummary :=
  match bbLocalRAMap !! bb with
  | Some _ => bbLocalRAMap
  | None => <[bb := summary]> bbLocalRAMap
  end.

(** [nullptr] is [None]. *)
Definition getBBLRASummary (bb : nat) (bbLocalRAMap : gmap nat PhyRegSummary)
  : option PhyRegSummary :=
  bbLocalRAMap !! bb.

Definition clearBBLRASummaries (bbLocalRAMap : gmap nat PhyRegSummary)
  : gmap nat PhyRegSummary := ∅.

(** [subretloc[bb] = s] *)
Definition setSubRetLoc (bb : nat) (s : Z) (subretloc : gmap nat Z)
  : gmap nat Z :=
  <[bb := s]> subretloc.

Definition getSubRetLoc (bb : nat) (subretloc : gmap nat Z) : Z :=
  match subretloc !! bb with
  | None => UNDEFINED_VAL
  | Some s => s
  end.

(** A sequence of calls of [addBBLRASummary], respectively of
    [setSubRetLoc], in the order of the list. *)
Definition addBBLRASummaries (calls : list (nat * PhyRegSummary))
    (bbLocalRAMap : gmap nat PhyRegSummary) : gmap nat PhyRegSummary :=
  foldl (fun m c => addBBLRASummary c.1 c.2 m) bbLocalRAMap calls.

Definition setSubRetLocs (calls : list (nat * Z)) (subretloc : gmap nat Z)
  : gmap nat Z :=
  foldl (fun m c => setSubRetLoc c.1 c.2 m) subretloc calls.

End BlockMaps.

(** The first, respectively last, value paired with [k] in a list. *)
Fixpoint firstFor {A} (k : nat) (l : list (nat * A)) : option A :=
  match l with
  | [] => None
  | (k', a) :: rest => if decide (k' = k) then Some a else firstFor k rest
  end.

Definition lastFor {A} (k : nat) (l : list (nat * A)) : option A :=
  firstFor k (rev l).

(** ** The offset computed by [computePReg] *)

(** The value of the local [linearizedStart] of both [computePReg] for an
    operand of type size [thisOpSize] on register [regNum] at sub-register
    [subRegNum], whose declare has element size [declOpSize]. *)
Definition linearizedStart
    (numEltPerGRF_UB thisOpSize regNum subRegNum declOpSize : Z) : Z :=
  let subRegNum :=
    if negb (thisOpSize =? declOpSize)
    then wrap32 (subRegNum * wrap32 declOpSize) / wrap32 thisOpSize
    else subRegNum in
  wrap32 (wrap32 (regNum * numEltPerGRF_UB)
          + wrap32 (subRegNum * wrap32 thisOpSize)).

(** Both [computePReg] divide by the operand's type size, converted to
    [unsigned], when it differs from the element size of the declare. A
    type size of zero makes that division undefined; the two definitions
    above describe the operands whose type size is not zero. *)
Definition typeSizeNonZero {G4_Type : Type} (TypeSize : G4_Type -> Z)
    (r : G4_RegRegion G4_Type) : Prop :=
  wrap32 (TypeSize (type G4_Type r)) <> 0.
(** * Properties *)

(** ** Machine arithmetic facts *)

Lemma bitOf_pow2 (v : Z) : bitOf v = 2 ^ (v mod BITS_DWORD).
Proof.
  unfold bitOf, wrap32, BITS_DWORD.
  rewrite Z.shiftl_1_l.
  assert (H : 0 <= v mod 32 < 32) by (apply Z.mod_pos_bound; lia).
  apply Z.mod_small. split; [apply Z.pow_nonneg; lia|].
  apply Z.pow_lt_mono_r; lia.
Qed.

Lemma testbit_bitOf (v j : Z) :
  Z.testbit (bitOf v) j = (v mod BITS_DWORD =? j).
Proof.
  rewrite bitOf_pow2. apply Z.pow2_bits_eqb.
  unfold BITS_DWORD. apply Z.mod_pos_bound. lia.
Qed.

Lemma lor_bitOf_absorb (w v : Z) :
  Z.lor (Z.lor w (bitOf v)) (bitOf v) = Z.lor w (bitOf v).
Proof. rewrite <- Z.lor_assoc. now rewrite Z.lor_diag. Qed.

Lemma split_column (c c' : Z) :
  c / BITS_DWORD = c' / BITS_DWORD -> c mod BITS_DWORD = c' mod BITS_DWORD ->
  c = c'.
Proof.
  unfold BITS_DWORD. intros Hq Hr.
  rewrite (Z.div_mod c 32), (Z.div_mod c' 32) by lia. congruence.
Qed.

(** ** The representation choice *)

Lemma useDenseMatrix_set_matrix m I :
  useDenseMatrix (set_matrix m I) = useDenseMatrix I.
Proof. reflexivity. Qed.

Lemma useDenseMatrix_set_sparseMatrix s I :
  useDenseMatrix (set_sparseMatrix s I) = useDenseMatrix I.
Proof. reflexivity. Qed.

Lemma product_fits (a b : Z) :
  is_unsigned a -> is_unsigned b -> wrap64 (wrap64 a * wrap64 b) = a * b.
Proof.
  unfold is_unsigned, wrap64. intros Ha Hb.
  rewrite (Z.mod_small a), (Z.mod_small b) by lia.
  apply Z.mod_small. nia.
Qed.

Lemma useDenseMatrix_spec I :
  is_unsigned (maxId I) -> is_unsigned (rowSize I) ->
  useDenseMatrix I = true <->
  maxId I < denseMatrixLimit I /\ rowSize I * maxId I < UINT_MAX.
Proof.
  intros Hm Hr. unfold useDenseMatrix.
  rewrite product_fits by assumption.
  replace (wrap64 UINT_MAX) with UINT_MAX by reflexivity.
  rewrite andb_true_iff, !Z.ltb_lt. tauto.
Qed.

Lemma safeSet_useDenseMatrix v1 v2 I I' :
  safeSetInterference v1 v2 I = Some I' ->
  useDenseMatrix I' = useDenseMatrix I.
Proof.
  unfold safeSetInterference. intros H.
  destruct (useDenseMatrix I) eqn:E.
  - destruct (matrix I) as [m|]; simpl in H; [|discriminate].
    destruct (m !! _); simpl in H; [|discriminate].
    inversion H; subst. now rewrite useDenseMatrix_set_matrix.
  - destruct (sparseMatrix I !! _); simpl in H; [|discriminate].
    inversion H; subst. now rewrite useDenseMatrix_set_sparseMatrix.
Qed.

(** Within an initialised dense matrix the word index never wraps and stays
    inside the row of [r]. *)
Lemma blockIndex_dense I r c :
  wf_intf I -> useDenseMatrix I = true -> validId I r -> validId I c ->
  Z.of_nat (blockIndex I r (c / BITS_DWORD)) = r * rowSize I + c / BITS_DWORD
  /\ 0 <= c / BITS_DWORD < rowSize I
  /\ r * rowSize I + c / BITS_DWORD < rowSize I * maxId I.
Proof.
  intros W D [Hr0 Hr] [Hc0 Hc].
  pose proof (wf_maxId _ W) as Hm. pose proof (wf_rowSize _ W) as Hs.
  pose proof (wf_cols _ W) as Hcols.
  apply useDenseMatrix_spec in D as [_ Hfit]; [|assumption..].
  unfold is_unsigned, UINT_MAX, BITS_DWORD in *.
  assert (Hq : 0 <= c / 32 < rowSize I).
  { split; [apply Z.div_pos; lia|]. apply Z.div_lt_upper_bound; lia. }
  assert (Hlt : r * rowSize I + c / 32 < rowSize I * maxId I) by nia.
  split; [|split; assumption].
  unfold blockIndex, wrap32.
  rewrite (Z.mod_small (r * rowSize I)) by nia.
  rewrite Z.mod_small by nia. rewrite Z2Nat.id; nia.
Qed.

Lemma blockIndex_inj I r c r' c' :
  wf_intf I -> useDenseMatrix I = true ->
  validId I r -> validId I c -> validId I r' -> validId I c' ->
  blockIndex I r (c / BITS_DWORD) = blockIndex I r' (c' / BITS_DWORD) ->
  r = r' /\ c / BITS_DWORD = c' / BITS_DWORD.
Proof.
  intros W D Hr Hc Hr' Hc' E.
  destruct (blockIndex_dense I r c W D Hr Hc) as (E1 & B1 & _).
  destruct (blockIndex_dense I r' c' W D Hr' Hc') as (E2 & B2 & _).
  rewrite E in E1. rewrite E1 in E2.
  assert (r = r') by nia. subst r'. split; [reflexivity|lia].
Qed.

(** ** Writing one edge *)

Lemma safeSet_total v1 v2 I :
  wf_intf I -> validId I v1 -> validId I v2 ->
  is_Some (safeSetInterference v1 v2 I).
Proof.
  intros W H1 H2. unfold safeSetInterference.
  destruct (useDenseMatrix I) eqn:D.
  - destruct (wf_dense _ W D) as (m & -> & Hlen). simpl.
    destruct (blockIndex_dense I v1 v2 W D H1 H2) as (E & _ & Hlt).
    destruct (lookup_lt_is_Some_2 m (blockIndex I v1 (v2 / BITS_DWORD)))
      as [w ->]; [lia|]. simpl. eauto.
  - pose proof (wf_sparse _ W D) as Hlen.
    destruct (lookup_lt_is_Some_2 (sparseMatrix I) (Z.to_nat v1)) as [s ->];
      [unfold validId in H1; lia|]. simpl. eauto.
Qed.

Lemma safeSet_wf v1 v2 I I' :
  wf_intf I -> safeSetInterference v1 v2 I = Some I' -> wf_intf I'.
Proof.
  intros W H. pose proof (safeSet_useDenseMatrix _ _ _ _ H) as U.
  unfold safeSetInterference in H.
  destruct (useDenseMatrix I) eqn:D.
  - destruct (wf_dense _ W D) as (m & Em & Hlen). rewrite Em in H. simpl in H.
    destruct (m !! _); simpl in H; [|discriminate]. inversion H; subst I'.
    constructor; simpl; try apply W.
    intros _. eexists. split; [reflexivity|]. now rewrite length_insert.
  - pose proof (wf_sparse _ W D) as Hlen.
    destruct (sparseMatrix I !! _); simpl in H; [|discriminate].
    inversion H; subst I'.
    constructor; simpl; try apply W.
    intros _. now rewrite length_insert.
Qed.

(** After [safeSetInterference v1 v2] the storage holds exactly one more
    bit: column [v2] of row [v1]. *)
Lemma safeSet_stored v1 v2 I I' r c :
  wf_intf I -> validId I v1 -> validId I v2 -> validId I r -> validId I c ->
  safeSetInterference v1 v2 I = Some I' ->
  edgeStored I' r c = edgeStored I r c || ((r =? v1) && (c =? v2)).
Proof.
  intros W H1 H2 Hr Hc H.
  pose proof (safeSet_useDenseMatrix _ _ _ _ H) as U.
  unfold edgeStored. rewrite U. unfold safeSetInterference in H.
  destruct (useDenseMatrix I) eqn:D.
  - destruct (wf_dense _ W D) as (m & Em & Hlen). rewrite Em in H |- *.
    simpl in H. destruct (m !! blockIndex I v1 _) as [w|] eqn:Ew;
      simpl in H; [|discriminate].
    inversion H; subst I'. simpl.
    replace (blockIndex (set_matrix _ I) r (c / BITS_DWORD))
      with (blockIndex I r (c / BITS_DWORD)) by reflexivity.
    destruct (decide (blockIndex I v1 (v2 / BITS_DWORD)
                      = blockIndex I r (c / BITS_DWORD))) as [Ei|Ni].
    + destruct (blockIndex_inj _ _ _ _ _ W D H1 H2 Hr Hc Ei) as [-> Eq].
      rewrite <- Ei, list_lookup_insert_eq by (eapply lookup_lt_Some; eauto).
      rewrite Ew, Z.lor_spec, testbit_bitOf, Z.eqb_refl. simpl.
      f_equal.
      destruct (Z.eqb_spec (v2 mod BITS_DWORD) (c mod BITS_DWORD)) as [Em'|Nm].
      * symmetry. apply Z.eqb_eq. symmetry. now apply split_column.
      * symmetry. apply Z.eqb_neq. congruence.
    + rewrite list_lookup_insert_ne by assumption.
      assert (Hn : (r =? v1) && (c =? v2) = false).
      { apply andb_false_iff.
        destruct (Z.eqb_spec r v1) as [->|]; [|now left].
        destruct (Z.eqb_spec c v2) as [->|]; [|now right].
        now contradiction Ni. }
      rewrite Hn, orb_false_r. reflexivity.
  - destruct (sparseMatrix I !! Z.to_nat v1) as [s|] eqn:Es;
      simpl in H; [|discriminate].
    inversion H; subst I'. simpl.
    destruct (Z.eqb_spec r v1) as [->|Nr].
    + rewrite list_lookup_insert_eq by (eapply lookup_lt_Some; eauto).
      rewrite Es. simpl.
      destruct (Z.eqb_spec c v2) as [->|Nc].
      * rewrite orb_true_r. apply bool_decide_eq_true.
        apply elem_of_union. left. now apply elem_of_singleton.
      * rewrite orb_false_r. apply bool_decide_ext.
        rewrite elem_of_union, elem_of_singleton. tauto.
    + rewrite list_lookup_insert_ne
        by (unfold validId in *; intros E; apply Nr; lia).
      simpl. now rewrite orb_false_r.
Qed.

(** A second write of the same edge finds the bit already there. *)
Lemma safeSet_idem v1 v2 I I' :
  safeSetInterference v1 v2 I = Some I' ->
  safeSetInterference v1 v2 I' = Some I'.
Proof.
  intros H. pose proof (safeSet_useDenseMatrix _ _ _ _ H) as U.
  unfold safeSetInterference in *. rewrite U.
  destruct (useDenseMatrix I).
  - destruct (matrix I) as [m|]; simpl in H; [|discriminate].
    destruct (m !! blockIndex I v1 _) as [w|] eqn:Ew; simpl in H;
      [|discriminate].
    inversion H; subst I'. simpl.
    replace (blockIndex (set_matrix _ I) v1 (v2 / BITS_DWORD))
      with (blockIndex I v1 (v2 / BITS_DWORD)) by reflexivity.
    rewrite list_lookup_insert_eq by (eapply lookup_lt_Some; eauto). simpl.
    rewrite lor_bitOf_absorb, list_insert_insert_eq. reflexivity.
  - destruct (sparseMatrix I !! Z.to_nat v1) as [s|] eqn:Es; simpl in H;
      [|discriminate].
    inversion H; subst I'. simpl.
    rewrite list_lookup_insert_eq by (eapply lookup_lt_Some; eauto). simpl.
    rewrite list_insert_insert_eq.
    replace ({[v2]} ∪ ({[v2]} ∪ s)) with ({[v2]} ∪ s); [reflexivity|].
    apply set_eq. intros x. rewrite !elem_of_union. tauto.
Qed.

Lemma covered_fixed v1 v2 I :
  covered v1 v2 I -> safeSetInterference v1 v2 I = Some I.
Proof.
  unfold covered, safeSetInterference. destruct I as [n rs lim mx sp].
  destruct (useDenseMatrix _); simpl.
  - intros (m & w & -> & Hw & E). simpl. rewrite Hw. simpl. rewrite E.
    unfold set_matrix. simpl. now rewrite list_insert_id.
  - intros (s & Hs & E). rewrite Hs. simpl. rewrite E.
    unfold set_sparseMatrix. simpl. now rewrite list_insert_id.
Qed.

Lemma safeSet_covered v1 v2 I I' :
  safeSetInterference v1 v2 I = Some I' -> covered v1 v2 I'.
Proof.
  intros H. pose proof (safeSet_useDenseMatrix _ _ _ _ H) as U.
  unfold covered. rewrite U. unfold safeSetInterference in H.
  destruct (useDenseMatrix I).
  - destruct (matrix I) as [m|]; simpl in H; [|discriminate].
    destruct (m !! blockIndex I v1 _) as [w|] eqn:Ew; simpl in H;
      [|discriminate].
    inversion H; subst I'. simpl. eexists _, _. split; [reflexivity|].
    replace (blockIndex (set_matrix _ I) v1 (v2 / BITS_DWORD))
      with (blockIndex I v1 (v2 / BITS_DWORD)) by reflexivity.
    rewrite list_lookup_insert_eq by (eapply lookup_lt_Some; eauto).
    split; [reflexivity|apply lor_bitOf_absorb].
  - destruct (sparseMatrix I !! Z.to_nat v1) as [s|] eqn:Es; simpl in H;
      [|discriminate].
    inversion H; subst I'. simpl. eexists.
    rewrite list_lookup_insert_eq by (eapply lookup_lt_Some; eauto).
    split; [reflexivity|]. apply set_eq. intros x.
    rewrite !elem_of_union. tauto.
Qed.

(** Bits only accumulate: a later write keeps every edge already held. *)
Lemma covered_preserved v1 v2 a b I I' :
  covered v1 v2 I -> safeSetInterference a b I = Some I' -> covered v1 v2 I'.
Proof.
  intros C H. pose proof (safeSet_useDenseMatrix _ _ _ _ H) as U.
  unfold covered in *. rewrite U. unfold safeSetInterference in H.
  destruct (useDenseMatrix I).
  - destruct C as (m & w & Em & Hw & E). rewrite Em in H. simpl in H.
    destruct (m !! blockIndex I a _) as [w'|] eqn:Ew'; simpl in H;
      [|discriminate].
    inversion H; subst I'. simpl.
    replace (blockIndex (set_matrix _ I) v1 (v2 / BITS_DWORD))
      with (blockIndex I v1 (v2 / BITS_DWORD)) by reflexivity.
    destruct (decide (blockIndex I a (b / BITS_DWORD)
                      = blockIndex I v1 (v2 / BITS_DWORD))) as [Ei|Ni].
    + rewrite Ei in Ew' |- *. assert (w' = w) by congruence. subst w'.
      eexists _, _. split; [reflexivity|].
      rewrite list_lookup_insert_eq by (eapply lookup_lt_Some; eauto).
      split; [reflexivity|].
      rewrite <- Z.lor_assoc, (Z.lor_comm (bitOf b)), Z.lor_assoc.
      now rewrite E.
    + eexists _, _. split; [reflexivity|].
      rewrite list_lookup_insert_ne by assumption.
      split; [exact Hw|exact E].
  - destruct C as (s & Hs & E).
    destruct (sparseMatrix I !! Z.to_nat a) as [s'|] eqn:Es'; simpl in H;
      [|discriminate].
    inversion H; subst I'. simpl.
    destruct (decide (Z.to_nat a = Z.to_nat v1)) as [Ei|Ni].
    + rewrite Ei in Es' |- *. assert (s' = s) by congruence. subst s'.
      eexists.
      rewrite list_lookup_insert_eq by (eapply lookup_lt_Some; eauto).
      split; [reflexivity|]. apply set_eq. intros x.
      assert (Hx : x ∈ {[v2]} ∪ s <-> x ∈ s) by now rewrite E.
      rewrite !elem_of_union in *. tauto.
    + eexists. rewrite list_lookup_insert_ne by assumption.
      split; [exact Hs|exact E].
Qed.

(** ** [checkAndSetIntf] *)

Lemma checkAndSet_as_safeSet v1 v2 I :
  v1 <> v2 ->
  checkAndSetIntf v1 v2 I
  = safeSetInterference (Z.min v1 v2) (Z.max v1 v2) I.
Proof.
  intros N. unfold checkAndSetIntf.
  destruct (Z.ltb_spec v1 v2).
  - now rewrite Z.min_l, Z.max_r by lia.
  - destruct (Z.gtb_spec v1 v2); [|lia].
    now rewrite Z.min_r, Z.max_l by lia.
Qed.

Lemma checkAndSet_self v I : checkAndSetIntf v v I = Some I.
Proof.
  unfold checkAndSetIntf. rewrite Z.ltb_irrefl.
  destruct (Z.gtb_spec v v); [lia|reflexivity].
Qed.

Lemma checkAndSet_sym v1 v2 I :
  checkAndSetIntf v1 v2 I = checkAndSetIntf v2 v1 I.
Proof.
  destruct (Z.eq_dec v1 v2) as [->|N]; [reflexivity|].
  rewrite !checkAndSet_as_safeSet by congruence.
  now rewrite Z.min_comm, Z.max_comm.
Qed.

Lemma checkAndSet_wf v1 v2 I I' :
  wf_intf I -> checkAndSetIntf v1 v2 I = Some I' -> wf_intf I'.
Proof.
  intros W. destruct (Z.eq_dec v1 v2) as [->|N].
  - rewrite checkAndSet_self. congruence.
  - rewrite checkAndSet_as_safeSet by assumption. apply safeSet_wf, W.
Qed.

Lemma checkAndSet_maxId v1 v2 I I' :
  checkAndSetIntf v1 v2 I = Some I' -> maxId I' = maxId I.
Proof.
  unfold checkAndSetIntf, safeSetInterference. intros H.
  repeat match type of H with
         | context [if ?b then _ else _] => destruct b
         | context [matrix I] => destruct (matrix I); simpl in H
         | context [?l !! ?i] => destruct (l !! i); simpl in H
         end; try discriminate; inversion H; reflexivity.
Qed.

Lemma checkAndSet_total v1 v2 I :
  wf_intf I -> validId I v1 -> validId I v2 ->
  is_Some (checkAndSetIntf v1 v2 I).
Proof.
  intros W H1 H2. destruct (Z.eq_dec v1 v2) as [->|N].
  - rewrite checkAndSet_self. eauto.
  - rewrite checkAndSet_as_safeSet by assumption.
    apply safeSet_total; [assumption|unfold validId in *; lia..].
Qed.

Lemma checkAndSet_stored v1 v2 I I' r c :
  wf_intf I -> validId I v1 -> validId I v2 -> validId I r -> validId I c ->
  checkAndSetIntf v1 v2 I = Some I' ->
  edgeStored I' r c
  = edgeStored I r c
    || (negb (v1 =? v2) && (r =? Z.min v1 v2) && (c =? Z.max v1 v2)).
Proof.
  intros W H1 H2 Hr Hc. destruct (Z.eq_dec v1 v2) as [->|N].
  - rewrite checkAndSet_self. intros [= <-].
    rewrite Z.eqb_refl. simpl. now rewrite orb_false_r.
  - rewrite checkAndSet_as_safeSet by assumption. intros H.
    rewrite (safeSet_stored (Z.min v1 v2) (Z.max v1 v2) I I' r c)
      by (assumption || (unfold validId in *; lia)).
    apply Z.eqb_neq in N. rewrite N. reflexivity.
Qed.

Lemma checkAndSet_idem v1 v2 I I' :
  checkAndSetIntf v1 v2 I = Some I' -> checkAndSetIntf v1 v2 I' = Some I'.
Proof.
  destruct (Z.eq_dec v1 v2) as [->|N].
  - intros _. apply checkAndSet_self.
  - rewrite !checkAndSet_as_safeSet by assumption. apply safeSet_idem.
Qed.

(** An edge insertion that is a fixed point of the graph stays one after
    any further insertion. *)
Lemma checkAndSet_fixed_preserved v1 v2 a b I I' :
  checkAndSetIntf v1 v2 I = Some I -> checkAndSetIntf a b I = Some I' ->
  checkAndSetIntf v1 v2 I' = Some I'.
Proof.
  destruct (Z.eq_dec v1 v2) as [->|N].
  { intros _ _. apply checkAndSet_self. }
  rewrite !(checkAndSet_as_safeSet v1 v2) by assumption. intros F H.
  apply covered_fixed. apply safeSet_covered in F.
  destruct (Z.eq_dec a b) as [->|Nab].
  - rewrite checkAndSet_self in H. congruence.
  - rewrite checkAndSet_as_safeSet in H by assumption.
    eapply covered_preserved; eauto.
Qed.

(** ** [init] *)

Lemma init_useDenseMatrix I : useDenseMatrix (init I) = useDenseMatrix I.
Proof.
  unfold init. destruct (useDenseMatrix I) eqn:D.
  - now rewrite useDenseMatrix_set_matrix.
  - now rewrite useDenseMatrix_set_sparseMatrix.
Qed.

Lemma init_fields I :
  maxId (init I) = maxId I /\ rowSize (init I) = rowSize I.
Proof. unfold init. now destruct (useDenseMatrix I). Qed.

Lemma init_wf n rs lim :
  is_unsigned n -> is_unsigned rs -> n <= BITS_DWORD * rs ->
  wf_intf (init (newInterference n rs lim)).
Proof.
  intros Hn Hrs Hc. set (I := newInterference n rs lim).
  destruct (init_fields I) as [Em Er].
  constructor; rewrite ?Em, ?Er, ?init_useDenseMatrix; try assumption.
  - intros D. unfold init. rewrite D. eexists. split; [reflexivity|].
    rewrite length_replicate, product_fits by assumption.
    unfold is_unsigned in *. simpl. rewrite Z2Nat.id; nia.
  - intros D. unfold init. rewrite D. simpl. rewrite length_resize.
    unfold is_unsigned in *. lia.
Qed.

Lemma init_no_edge n rs lim r c :
  edgeStored (init (newInterference n rs lim)) r c = false.
Proof.
  set (I := newInterference n rs lim).
  unfold edgeStored. rewrite init_useDenseMatrix.
  unfold init. destruct (useDenseMatrix I); simpl.
  - destruct (replicate _ 0 !! _) as [w|] eqn:E; [|reflexivity].
    apply lookup_replicate in E as [-> _]. apply Z.bits_0.
  - rewrite resize_nil.
    destruct (replicate _ ∅ !! _) as [s|] eqn:E; [|reflexivity].
    apply lookup_replicate in E as [-> _].
    apply bool_decide_eq_false, not_elem_of_empty.
Qed.

(** ** Construction passes *)

Lemma validEdge_maxId I I' e :
  maxId I' = maxId I -> validEdge I e -> validEdge I' e.
Proof. unfold validEdge, validId. now intros ->. Qed.

Lemma buildEdges_total es I :
  wf_intf I -> Forall (validEdge I) es -> is_Some (buildEdges es I).
Proof.
  revert I. induction es as [|[a b] es IH]; intros I W F; simpl; [eauto|].
  inversion F as [|? ? [Ha Hb] F']; subst. simpl in Ha, Hb.
  destruct (checkAndSet_total a b I W Ha Hb) as [I' E]. rewrite E. simpl.
  apply IH; [eapply checkAndSet_wf; eauto|].
  eapply Forall_impl; [exact F'|]. intros e.
  apply validEdge_maxId. eapply checkAndSet_maxId; eauto.
Qed.

Lemma buildEdges_wf es I G :
  wf_intf I -> buildEdges es I = Some G -> wf_intf G /\ maxId G = maxId I.
Proof.
  revert I. induction es as [|[a b] es IH]; intros I W H; simpl in H.
  - inversion H; subst. now split.
  - destruct (checkAndSetIntf a b I) as [I'|] eqn:E; simpl in H;
      [|discriminate].
    destruct (IH I') as [W' M]; [eapply checkAndSet_wf; eauto|assumption|].
    split; [assumption|]. rewrite M. eapply checkAndSet_maxId; eauto.
Qed.

Lemma buildEdges_app es1 es2 I :
  buildEdges (es1 ++ es2) I = buildEdges es1 I ≫= buildEdges es2.
Proof.
  revert I. induction es1 as [|[a b] es1 IH]; intros I; simpl; [reflexivity|].
  destruct (checkAndSetIntf a b I); simpl; [apply IH|reflexivity].
Qed.

(** Every edge inserted by a pass is a fixed point of the graph it
    produces. *)
Lemma buildEdges_fixed es I G :
  buildEdges es I = Some G ->
  Forall (fun e => checkAndSetIntf (fst e) (snd e) G = Some G) es.
Proof.
  revert I. induction es as [|[a b] es IH]; intros I H; simpl in H;
    [constructor|].
  destruct (checkAndSetIntf a b I) as [I'|] eqn:E; simpl in H; [|discriminate].
  constructor; [|eapply IH; eauto]. simpl.
  apply checkAndSet_idem in E. clear IH.
  revert I' E H. induction es as [|[c d] es IH]; intros I' E H; simpl in H.
  - congruence.
  - destruct (checkAndSetIntf c d I') as [I''|] eqn:E'; simpl in H;
      [|discriminate].
    eapply IH; [|exact H]. eapply checkAndSet_fixed_preserved; eauto.
Qed.

Lemma buildEdges_of_fixed es G :
  Forall (fun e => checkAndSetIntf (fst e) (snd e) G = Some G) es ->
  buildEdges es G = Some G.
Proof.
  induction 1 as [|[a b] es H _ IH]; simpl; [reflexivity|].
  simpl in H. rewrite H. simpl. exact IH.
Qed.

Lemma buildEdges_idem es I G :
  buildEdges es I = Some G -> buildEdges es G = Some G.
Proof. intros H. apply buildEdges_of_fixed. eapply buildEdges_fixed; eauto. Qed.

(** Rows only ever receive columns of larger ids. *)
Lemma buildEdges_upper es I G :
  wf_intf I -> Forall (validEdge I) es ->
  (forall r c, validId I r -> validId I c -> edgeStored I r c = true -> r < c) ->
  buildEdges es I = Some G ->
  forall r c, validId I r -> validId I c -> edgeStored G r c = true -> r < c.
Proof.
  revert I. induction es as [|[a b] es IH]; intros I W F U H r c Hr Hc S;
    simpl in H.
  - inversion H; subst. now apply U.
  - destruct (checkAndSetIntf a b I) as [I'|] eqn:E; simpl in H;
      [|discriminate].
    inversion F as [|? ? [Ha Hb] F']; subst. simpl in Ha, Hb.
    pose proof (checkAndSet_maxId _ _ _ _ E) as M.
    assert (V : forall v, validId I v <-> validId I' v)
      by (intros v; unfold validId; now rewrite M).
    apply (IH I'); try (now apply V); try assumption.
    + eapply checkAndSet_wf; eauto.
    + eapply Forall_impl; [exact F'|]. intros e. now apply validEdge_maxId.
    + intros r' c' Hr' Hc'. apply V in Hr', Hc'.
      rewrite (checkAndSet_stored a b I I' r' c') by assumption.
      rewrite orb_true_iff, !andb_true_iff, negb_true_iff.
      rewrite !Z.eqb_eq, Z.eqb_neq. intros [S'|[[N ->] ->]]; [now apply U|lia].
Qed.

(** ** Claims on the interference graph *)

(** C4. For an [Interference] object with [unsigned] fields, the dense
    matrix is refused exactly when [maxId] reaches [denseMatrixLimit] or the
    64-bit product [rowSize * maxId] reaches the maximum of [unsigned int];
    [init] then allocates [maxId] empty sparse rows and no matrix, as a
    total function with no error outcome. The choice depends on the three
    fields [maxId], [rowSize] and [denseMatrixLimit] only, and neither
    [init] nor an edge insertion changes it. *)
Theorem useDenseMatrix_capacity_fallback (n rs lim : Z) :
  is_unsigned n -> is_unsigned rs ->
  let I := newInterference n rs lim in
  (useDenseMatrix I = false <-> lim <= n \/ UINT_MAX <= rs * n) /\
  (useDenseMatrix I = false ->
     matrix (init I) = None /\
     sparseMatrix (init I) = replicate (Z.to_nat n) ∅ /\
     forall r c, edgeStored (init I) r c = false) /\
  (useDenseMatrix I = true ->
     matrix (init I) = Some (replicate (Z.to_nat (rs * n)) 0) /\
     sparseMatrix (init I) = []) /\
  (forall J, maxId J = n -> rowSize J = rs -> denseMatrixLimit J = lim ->
             useDenseMatrix J = useDenseMatrix I) /\
  useDenseMatrix (init I) = useDenseMatrix I /\
  (forall G v1 v2 G', useDenseMatrix G = useDenseMatrix I ->
                      checkAndSetIntf v1 v2 G = Some G' ->
                      useDenseMatrix G' = useDenseMatrix I).
Proof.
  intros Hn Hrs I. repeat split.
  - intros D.
    destruct (Z.lt_ge_cases n lim) as [L|L]; [|now left].
    destruct (Z.lt_ge_cases (rs * n) UINT_MAX) as [P|P]; [|now right].
    assert (T : useDenseMatrix I = true)
      by (apply useDenseMatrix_spec; simpl; auto).
    congruence.
  - intros C. apply not_true_is_false. intros T.
    apply useDenseMatrix_spec in T; simpl in *; try assumption. lia.
  - unfold init. now rewrite H.
  - unfold init. rewrite H. simpl. now rewrite resize_nil.
  - intros r c. apply init_no_edge.
  - unfold init. rewrite H. simpl.
    now rewrite (product_fits rs n) by assumption.
  - unfold init. now rewrite H.
  - intros J Em Er El. unfold useDenseMatrix. rewrite Em, Er, El. reflexivity.
  - apply init_useDenseMatrix.
  - intros G v1 v2 G' U H. rewrite <- U. revert H.
    destruct (Z.eq_dec v1 v2) as [->|N].
    + rewrite checkAndSet_self. congruence.
    + rewrite checkAndSet_as_safeSet by assumption.
      apply safeSet_useDenseMatrix.
Qed.

Lemma useDenseMatrix_capacity_fallback_witness :
  useDenseMatrix (init (newInterference 65537 65535 UINT_MAX)) = false
  /\ matrix (init (newInterference 65537 65535 UINT_MAX)) = None.
Proof.
  destruct (useDenseMatrix_capacity_fallback 65537 65535 UINT_MAX)
    as (A & B & _ & _ & E & _).
  - unfold is_unsigned. lia.
  - unfold is_unsigned. lia.
  - assert (F : useDenseMatrix (newInterference 65537 65535 UINT_MAX) = false).
    { apply A. right. unfold UINT_MAX. lia. }
    split.
    + rewrite E. exact F.
    + apply B. exact F.
Defined.

(** The boundary itself: one word below the maximum is still dense. *)
Example useDenseMatrix_boundary :
  useDenseMatrix (newInterference 2 2147483647 10) = true
  /\ useDenseMatrix (newInterference 65537 65535 UINT_MAX) = false
  /\ useDenseMatrix (newInterference 3 1 3) = false.
Proof. repeat split; vm_compute; reflexivity. Qed.

(** C5. Storage is upper-triangular. [checkAndSetIntf v v] leaves the graph
    as it is; [checkAndSetIntf v1 v2] and [checkAndSetIntf v2 v1] are the
    same operation; for distinct ids of an initialised graph the call
    succeeds, sets the bit of column [max v1 v2] in row [min v1 v2] and
    changes no other bit; and in a graph built from [init] by any sequence
    of such calls every stored bit has its row id below its column id, so
    no self-edge is stored. *)
Theorem interference_upper_triangular :
  (forall I v, checkAndSetIntf v v I = Some I) /\
  (forall I v1 v2, checkAndSetIntf v1 v2 I = checkAndSetIntf v2 v1 I) /\
  (forall I v1 v2,
     wf_intf I -> validId I v1 -> validId I v2 -> v1 <> v2 ->
     exists I',
       checkAndSetIntf v1 v2 I = Some I' /\
       safeSetInterference (Z.min v1 v2) (Z.max v1 v2) I = Some I' /\
       edgeStored I' (Z.min v1 v2) (Z.max v1 v2) = true /\
       forall r c, validId I r -> validId I c ->
                   (r, c) <> (Z.min v1 v2, Z.max v1 v2) ->
                   edgeStored I' r c = edgeStored I r c) /\
  (forall n rs lim es G,
     is_unsigned n -> is_unsigned rs -> n <= BITS_DWORD * rs ->
     Forall (fun e => (0 <= fst e < n) /\ (0 <= snd e < n)) es ->
     buildEdges es (init (newInterference n rs lim)) = Some G ->
     forall r c, 0 <= r < n -> 0 <= c < n ->
                 edgeStored G r c = true -> r < c).
Proof.
  split; [exact (fun I v => checkAndSet_self v I)|].
  split; [exact (fun I v1 v2 => checkAndSet_sym v1 v2 I)|].
  split.
  - intros I v1 v2 W H1 H2 N.
    destruct (checkAndSet_total v1 v2 I W H1 H2) as [I' E].
    exists I'. split; [exact E|].
    split; [now rewrite <- checkAndSet_as_safeSet|].
    split.
    + rewrite (checkAndSet_stored v1 v2 I I')
        by (assumption || (unfold validId in *; lia)).
      apply Z.eqb_neq in N. rewrite N, !Z.eqb_refl. apply orb_true_r.
    + intros r c Hr Hc Ne.
      rewrite (checkAndSet_stored v1 v2 I I') by assumption.
      destruct (Z.eqb_spec r (Z.min v1 v2)) as [->|];
        [|now rewrite andb_false_r, orb_false_r].
      destruct (Z.eqb_spec c (Z.max v1 v2)) as [->|];
        [now contradiction Ne|now rewrite andb_false_r, orb_false_r].
  - intros n rs lim es G Hn Hrs Hc F B r c Hr Hc' S.
    set (I := init (newInterference n rs lim)) in *.
    assert (M : maxId I = n) by apply (init_fields (newInterference n rs lim)).
    eapply (buildEdges_upper es I G); try eassumption.
    + now apply init_wf.
    + eapply Forall_impl; [exact F|]. intros [a b]. unfold validEdge, validId.
      now rewrite M.
    + intros r' c' _ _. unfold I. now rewrite init_no_edge.
    + unfold validId. now rewrite M.
    + unfold validId. now rewrite M.
Qed.

Lemma interference_upper_triangular_witness :
  (exists I', checkAndSetIntf 3 1 (init (newInterference 4 1 100)) = Some I'
              /\ edgeStored I' 1 3 = true)
  /\ (forall G,
        buildEdges [(3, 1); (2, 2); (0, 3)] (init (newInterference 4 1 2))
        = Some G ->
        edgeStored G 3 1 = false).
Proof.
  destruct interference_upper_triangular as (_ & _ & A & B).
  split.
  - destruct (A (init (newInterference 4 1 100)) 3 1) as (I' & E & _ & S & _).
    + apply init_wf; unfold is_unsigned, BITS_DWORD; lia.
    + unfold validId. rewrite (proj1 (init_fields _)). simpl. lia.
    + unfold validId. rewrite (proj1 (init_fields _)). simpl. lia.
    + lia.
    + exists I'. split; assumption.
  - intros G H. destruct (edgeStored G 3 1) eqn:S; [|reflexivity].
    assert (C : 3 < 1); [|lia].
    apply (B 4 1 2 [(3, 1); (2, 2); (0, 3)] G);
      try exact H; try exact S; try (unfold is_unsigned, BITS_DWORD; lia).
    repeat constructor; simpl; lia.
Defined.

(** C6. Inserting an edge twice is the same as inserting it once, whichever
    representation is in use; on an initialised graph with ids in range the
    insertion does succeed. Hence a construction pass, being a sequence of
    edge insertions determined by the instruction stream, reproduces its own
    result bit for bit when run again, from the same start or on top of the
    graph it has built. *)
Theorem edge_insertion_idempotent :
  (forall I v1 v2 I',
     safeSetInterference v1 v2 I = Some I' ->
     safeSetInterference v1 v2 I' = Some I') /\
  (forall I v1 v2 I',
     checkAndSetIntf v1 v2 I = Some I' ->
     checkAndSetIntf v1 v2 I' = Some I'
     /\ (checkAndSetIntf v1 v2 I ≫= checkAndSetIntf v1 v2)
        = checkAndSetIntf v1 v2 I) /\
  (forall I v1 v2,
     wf_intf I -> validId I v1 -> validId I v2 ->
     is_Some (checkAndSetIntf v1 v2 I)) /\
  (forall es I G, buildEdges es I = Some G -> buildEdges es G = Some G) /\
  (forall bbs I G,
     computeInterference bbs I = Some G ->
     computeInterference bbs G = Some G).
Proof.
  split; [intros I v1 v2 I'; apply safeSet_idem|].
  split.
  { intros I v1 v2 I' H. pose proof (checkAndSet_idem _ _ _ _ H) as H'.
    split; [exact H'|]. rewrite H. simpl. exact H'. }
  split; [exact (fun I v1 v2 => checkAndSet_total v1 v2 I)|].
  split; [intros es I G; apply buildEdges_idem|].
  intros bbs I G H. unfold computeInterference in *.
  exact (buildEdges_idem _ _ _ H).
Qed.

Lemma edge_insertion_idempotent_witness :
  let dense := init (newInterference 40 2 100) in
  let sparse := init (newInterference 40 2 8) in
  let prog := [mkBB [mkInst (Some 1) [2; 3]; mkInst (Some 35) [1; 2]] [35; 7]] in
  useDenseMatrix dense = true /\ useDenseMatrix sparse = false /\
  (forall G, checkAndSetIntf 35 3 dense = Some G ->
             checkAndSetIntf 35 3 G = Some G) /\
  (forall G, checkAndSetIntf 35 3 sparse = Some G ->
             checkAndSetIntf 35 3 G = Some G) /\
  is_Some (computeInterference prog dense) /\
  (forall G, computeInterference prog sparse = Some G ->
             computeInterference prog G = Some G).
Proof.
  destruct edge_insertion_idempotent as (_ & A & _ & _ & B).
  intros dense sparse prog.
  split; [vm_compute; reflexivity|]. split; [vm_compute; reflexivity|].
  split; [intros G H; exact (proj1 (A dense 35 3 G H))|].
  split; [intros G H; exact (proj1 (A sparse 35 3 G H))|].
  split.
  - vm_compute. eauto.
  - intros G H. exact (B prog sparse G H).
Defined.

(** ** Sub-register alignment *)

Section SubRegAlignFacts.

Variable Any : Z.

Lemma allocVar_length vars d : (d < length (allocVar Any vars d))%nat.
Proof.
  unfold allocVar. destruct (Nat.leb_spec (length vars) d).
  - rewrite length_resize. lia.
  - assumption.
Qed.

Lemma allocVar_covered vars d :
  (d < length vars)%nat -> allocVar Any vars d = vars.
Proof.
  intros L. unfold allocVar.
  destruct (Nat.leb_spec (length vars) d); [lia|reflexivity].
Qed.

Lemma allocVar_idem vars d :
  allocVar Any (allocVar Any vars d) d = allocVar Any vars d.
Proof.
  pose proof (allocVar_length vars d) as L.
  unfold allocVar at 1. destruct (Nat.leb_spec (length (allocVar Any vars d)) d);
    [lia|reflexivity].
Qed.

Lemma allocVar_lookup vars d :
  exists info, allocVar Any vars d !! d = Some info
               /\ subAlign info = currentSubRegAlign Any vars d.
Proof.
  unfold allocVar, currentSubRegAlign, getSubRegAlign.
  destruct (Nat.leb_spec (length vars) d) as [L|L].
  - exists (defaultValues Any). split.
    + apply lookup_resize_new; lia.
    + rewrite (lookup_ge_None_2 vars d) by lia. reflexivity.
  - destruct (lookup_lt_is_Some_2 vars d L) as [info E].
    exists info. rewrite E. now split.
Qed.

Lemma allocVar_other vars d d' :
  d' <> d ->
  currentSubRegAlign Any (allocVar Any vars d) d'
  = currentSubRegAlign Any vars d'.
Proof.
  intros N. unfold allocVar, currentSubRegAlign, getSubRegAlign.
  destruct (Nat.leb_spec (length vars) d) as [L|L]; [|reflexivity].
  destruct (Nat.lt_ge_cases d' (length vars)) as [L'|L'].
  - rewrite lookup_resize by lia. reflexivity.
  - rewrite (lookup_ge_None_2 vars d') by lia. simpl.
    destruct (Nat.lt_ge_cases d' (S d)) as [L2|L2].
    + rewrite lookup_resize_new by lia. reflexivity.
    + rewrite lookup_resize_old by lia. reflexivity.
Qed.

(** The three ways a call can end, read off the current alignment. *)
Lemma setSubRegAlign_cases vars d subAlg :
  let cur := currentSubRegAlign Any vars d in
  exists info, allocVar Any vars d !! d = Some info /\ subAlign info = cur /\
  setSubRegAlign Any vars d subAlg =
    if negb ((cur =? Any) || (cur =? subAlg) || (cur mod 2 =? 0)) then
      AssertionFailed ERROR_UNKNOWN
    else if cur >? subAlg then
      if cur mod subAlg =? 0 then Ok (allocVar Any vars d)
      else AssertionFailed SubRegAlignmentConflict
    else if subAlg mod cur =? 0 then
      Ok (<[d := mkRAVarInfo subAlg (isEvenAlign info)]> (allocVar Any vars d))
    else AssertionFailed SubRegAlignmentConflict.
Proof.
  intros cur. destruct (allocVar_lookup vars d) as (info & E & S).
  exists info. split; [exact E|]. split; [exact S|].
  unfold setSubRegAlign. rewrite E. fold cur in S. rewrite S. reflexivity.
Qed.

Lemma divide_mod_eqb (a b : Z) : 0 < a -> (b mod a =? 0) = true <-> (a | b).
Proof. intros P. rewrite Z.eqb_eq. apply Z.mod_divide. lia. Qed.

End SubRegAlignFacts.

Lemma alignAdmissible_eqb Any cur subAlg :
  alignAdmissible Any cur subAlg ->
  negb ((cur =? Any) || (cur =? subAlg) || (cur mod 2 =? 0)) = false.
Proof.
  intros H. apply negb_false_iff. rewrite !orb_true_iff, !Z.eqb_eq.
  unfold alignAdmissible in H. tauto.
Qed.

(** C9. Refinement of a declare's sub-register alignment is monotone. With
    [cur] the alignment the declare has and [subAlg] the requested one (both
    positive): a call that returns leaves an alignment that both [cur] and
    [subAlg] divide, so never a less restrictive one; if [subAlg] divides
    [cur] the value [cur] is kept, if [cur] divides [subAlg] the value
    becomes [subAlg] (in both cases for a current value that passes the
    first assertion: [Any], equal to [subAlg], or even); repeating a call
    changes nothing; when neither divides the other an assertion fires and
    nothing is stored; the alignment of every other declare is untouched. *)
Theorem setSubRegAlign_monotone (Any : Z) (vars : list RAVarInfo) (d : nat)
    (subAlg : Z) :
  let cur := currentSubRegAlign Any vars d in
  0 < cur -> 0 < subAlg ->
  (forall vars', setSubRegAlign Any vars d subAlg = Ok vars' ->
     exists r, getSubRegAlign vars' d = Some r /\ (cur | r) /\ (subAlg | r)
               /\ (r = cur \/ r = subAlg)) /\
  ((subAlg | cur) -> alignAdmissible Any cur subAlg ->
     exists vars', setSubRegAlign Any vars d subAlg = Ok vars'
                   /\ getSubRegAlign vars' d = Some cur) /\
  ((cur | subAlg) -> alignAdmissible Any cur subAlg ->
     exists vars', setSubRegAlign Any vars d subAlg = Ok vars'
                   /\ getSubRegAlign vars' d = Some subAlg) /\
  (forall vars', setSubRegAlign Any vars d subAlg = Ok vars' ->
     setSubRegAlign Any vars' d subAlg = Ok vars') /\
  (~ (subAlg | cur) -> ~ (cur | subAlg) ->
     exists msg, setSubRegAlign Any vars d subAlg = AssertionFailed msg) /\
  (forall vars' d', setSubRegAlign Any vars d subAlg = Ok vars' -> d' <> d ->
     currentSubRegAlign Any vars' d' = currentSubRegAlign Any vars d').
Proof.
  intros cur Pc Ps.
  destruct (setSubRegAlign_cases Any vars d subAlg)
    as (info & E & S & C). fold cur in S, C.
  pose proof (allocVar_length Any vars d) as L.
  assert (Gk : getSubRegAlign (allocVar Any vars d) d = Some cur)
    by (unfold getSubRegAlign; rewrite E; simpl; now rewrite S).
  assert (Gn : getSubRegAlign
                 (<[d := mkRAVarInfo subAlg (isEvenAlign info)]>
                    (allocVar Any vars d)) d = Some subAlg)
    by (unfold getSubRegAlign; now rewrite list_lookup_insert_eq).
  repeat split.
  - intros vars' H. rewrite C in H.
    destruct (negb _); [discriminate|].
    destruct (Z.gtb_spec cur subAlg).
    + destruct (cur mod subAlg =? 0) eqn:M; [|discriminate].
      apply divide_mod_eqb in M; [|assumption]. inversion H; subst vars'.
      exists cur. repeat split; auto. apply Z.divide_refl.
    + destruct (subAlg mod cur =? 0) eqn:M; [|discriminate].
      apply divide_mod_eqb in M; [|assumption]. inversion H; subst vars'.
      exists subAlg. repeat split; auto. apply Z.divide_refl.
  - intros D A. rewrite C, (alignAdmissible_eqb _ _ _ A).
    destruct (Z.gtb_spec cur subAlg).
    + apply divide_mod_eqb in D; [|assumption]. rewrite D. eauto.
    + assert (cur = subAlg)
        by (apply Z.le_antisymm; [assumption|apply Z.divide_pos_le; auto]).
      rewrite <- H0, Z.mod_same, Z.eqb_refl by lia.
      eexists. split; [reflexivity|]. rewrite H0. exact Gn.
  - intros D A. rewrite C, (alignAdmissible_eqb _ _ _ A).
    destruct (Z.gtb_spec cur subAlg).
    + pose proof (Z.divide_pos_le _ _ Ps D). lia.
    + apply divide_mod_eqb in D; [|assumption]. rewrite D. eauto.
  - intros vars' H. rewrite C in H.
    destruct (negb _) eqn:A1; [discriminate|].
    destruct (Z.gtb_spec cur subAlg) as [G|G].
    + destruct (cur mod subAlg =? 0) eqn:M; [|discriminate].
      inversion H; subst vars'. unfold setSubRegAlign.
      rewrite allocVar_idem, E, S, A1.
      destruct (Z.gtb_spec cur subAlg); [|lia]. now rewrite M.
    + destruct (subAlg mod cur =? 0) eqn:M; [|discriminate].
      inversion H; subst vars'. unfold setSubRegAlign.
      rewrite allocVar_covered by (now rewrite length_insert).
      rewrite list_lookup_insert_eq by assumption. cbn [subAlign isEvenAlign].
      rewrite Z.eqb_refl, orb_true_r. cbn [orb negb].
      destruct (Z.gtb_spec subAlg subAlg); [lia|].
      rewrite Z.mod_same, Z.eqb_refl by lia.
      now rewrite list_insert_insert_eq.
  - intros N1 N2. rewrite C. destruct (negb _); [eauto|].
    destruct (Z.gtb_spec cur subAlg).
    + destruct (cur mod subAlg =? 0) eqn:M; [|eauto].
      apply divide_mod_eqb in M; tauto.
    + destruct (subAlg mod cur =? 0) eqn:M; [|eauto].
      apply divide_mod_eqb in M; tauto.
  - intros vars' d' H N. rewrite C in H.
    destruct (negb _); [discriminate|].
    destruct (Z.gtb_spec cur subAlg).
    + destruct (cur mod subAlg =? 0); [|discriminate].
      inversion H; subst vars'. now apply allocVar_other.
    + destruct (subAlg mod cur =? 0); [|discriminate].
      inversion H; subst vars'. rewrite <- (allocVar_other Any vars d d' N).
      unfold currentSubRegAlign, getSubRegAlign.
      rewrite list_lookup_insert_ne by congruence. reflexivity.
Qed.

Lemma setSubRegAlign_monotone_witness :
  (exists vars', setSubRegAlign 1 [mkRAVarInfo 4 false] 0 2 = Ok vars'
                 /\ getSubRegAlign vars' 0 = Some 4)
  /\ (exists vars', setSubRegAlign 1 [] 2 8 = Ok vars'
                    /\ getSubRegAlign vars' 2 = Some 8)
  /\ (exists msg, setSubRegAlign 1 [mkRAVarInfo 4 false] 0 6
                  = AssertionFailed msg).
Proof.
  split; [|split].
  - destruct (setSubRegAlign_monotone 1 [mkRAVarInfo 4 false] 0%nat 2)
      as (_ & K & _); [reflexivity|lia|].
    apply K.
    + exists 2. reflexivity.
    + right. right. reflexivity.
  - destruct (setSubRegAlign_monotone 1 [] 2%nat 8)
      as (_ & _ & K & _); [reflexivity|lia|].
    apply K.
    + exists 8. reflexivity.
    + left. reflexivity.
  - destruct (setSubRegAlign_monotone 1 [mkRAVarInfo 4 false] 0%nat 6)
      as (_ & _ & _ & _ & K & _); [reflexivity|lia|].
    apply K; intros [k Hk]; change (currentSubRegAlign 1 [mkRAVarInfo 4 false] 0) with 4 in Hk; lia.
Defined.

Example setSubRegAlign_runs :
  setSubRegAlign 1 [mkRAVarInfo 4 false] 0 2 = Ok [mkRAVarInfo 4 false]
  /\ setSubRegAlign 1 [mkRAVarInfo 4 false] 0 16 = Ok [mkRAVarInfo 16 false]
  /\ setSubRegAlign 1 [mkRAVarInfo 4 false] 0 6
     = AssertionFailed SubRegAlignmentConflict
  /\ setSubRegAlign 1 [] 1 4
     = Ok [mkRAVarInfo 1 false; mkRAVarInfo 4 false].
Proof. repeat split. Qed.

(** ** Physical register offsets *)

Section PhyRegComputeFacts.

Variable G4_Type : Type.
Variable TypeSize : G4_Type -> Z.
Variable numEltPerGRF_UB : Z.

Local Abbreviation Src := (G4_SrcRegRegion_computePReg G4_Type TypeSize numEltPerGRF_UB).
Local Abbreviation Dst := (G4_DstRegRegion_computePReg G4_Type TypeSize numEltPerGRF_UB).

Lemma computePReg_same (r : G4_RegRegion G4_Type) (ds : gmap nat G4_Declare) :
  Src r ds = Dst r ds.
Proof.
  unfold G4_SrcRegRegion_computePReg, G4_DstRegRegion_computePReg.
  destruct (base _ r) as [v|p]; [|reflexivity].
  destruct (phyReg v) as [[n|a]|]; reflexivity.
Qed.

Lemma computePReg_untouched (r : G4_RegRegion G4_Type)
    (ds : gmap nat G4_Declare) :
  greg_assigned G4_Type r = None -> Src r ds = ds.
Proof.
  unfold greg_assigned, G4_SrcRegRegion_computePReg.
  destruct (base _ r) as [v|p]; [|reflexivity].
  destruct (phyReg v) as [[n|a]|]; [discriminate|reflexivity..].
Qed.

(** Without overflow the machine expression is the exact offset. *)
Lemma linearizedStart_exact (regNum subRegNum declOpSize thisOpSize : Z) :
  0 <= regNum -> 0 <= subRegNum -> 0 < declOpSize < 2 ^ 31 ->
  0 < thisOpSize < 2 ^ 31 -> 0 <= numEltPerGRF_UB ->
  subRegNum * declOpSize < 2 ^ 32 ->
  specGRFBaseOffset numEltPerGRF_UB regNum subRegNum declOpSize thisOpSize
    < 2 ^ 32 ->
  wrap32 (wrap32 (regNum * numEltPerGRF_UB)
          + wrap32 ((if negb (thisOpSize =? declOpSize)
                     then wrap32 (subRegNum * wrap32 declOpSize)
                          / wrap32 thisOpSize
                     else subRegNum) * wrap32 thisOpSize))
  = specGRFBaseOffset numEltPerGRF_UB regNum subRegNum declOpSize thisOpSize.
Proof.
  intros Hr Hs Hd Ht Hg Hm. unfold specGRFBaseOffset, wrap32.
  rewrite (Z.mod_small declOpSize), (Z.mod_small thisOpSize) by lia.
  rewrite (Z.mod_small (subRegNum * declOpSize)) by lia.
  destruct (decide (thisOpSize = declOpSize)) as [->|N]; intros Hb.
  - rewrite Z.eqb_refl. cbn [negb].
    assert (0 <= regNum * numEltPerGRF_UB) by nia.
    assert (0 <= subRegNum * declOpSize) by nia.
    rewrite (Z.mod_small (regNum * numEltPerGRF_UB)) by lia.
    rewrite (Z.mod_small (subRegNum * declOpSize)) by lia.
    apply Z.mod_small. lia.
  - apply Z.eqb_neq in N. rewrite N. cbn [negb].
    assert (0 <= regNum * numEltPerGRF_UB) by nia.
    assert (0 <= subRegNum * declOpSize / thisOpSize)
      by (apply Z.div_pos; nia).
    assert (0 <= subRegNum * declOpSize / thisOpSize * thisOpSize) by nia.
    rewrite (Z.mod_small (regNum * numEltPerGRF_UB)) by lia.
    rewrite (Z.mod_small (_ / _ * _)) by lia.
    apply Z.mod_small. lia.
Qed.

End PhyRegComputeFacts.

(** C10. The source-operand and the destination-operand [computePReg] are
    one function. For an operand whose base is a register variable with an
    assigned general register they store into the variable's declare the
    offset [regNum * bytesPerGRF + subRegNum * thisOpSize], the sub-register
    number being first rescaled to [(subRegNum * declElemSize) / thisOpSize]
    when the two sizes differ (the 32-bit computation is exact as long as
    the products fit an [unsigned]), and leave every other declare alone;
    for any other operand they return the declares unchanged. *)
Theorem computePReg_src_dst_agree (G4_Type : Type) (TypeSize : G4_Type -> Z)
    (numEltPerGRF_UB : Z) (r : G4_RegRegion G4_Type)
    (ds : gmap nat G4_Declare) :
  let src := G4_SrcRegRegion_computePReg G4_Type TypeSize numEltPerGRF_UB in
  let dst := G4_DstRegRegion_computePReg G4_Type TypeSize numEltPerGRF_UB in
  src r ds = dst r ds /\
  (greg_assigned G4_Type r = None -> src r ds = ds /\ dst r ds = ds) /\
  (forall v regNum dcl,
     greg_assigned G4_Type r = Some (v, regNum) ->
     ds !! regVarDeclare v = Some dcl ->
     0 <= regNum -> 0 <= phyRegOff v -> 0 < elemSize dcl < 2 ^ 31 ->
     0 < TypeSize (type G4_Type r) < 2 ^ 31 -> 0 <= numEltPerGRF_UB ->
     phyRegOff v * elemSize dcl < 2 ^ 32 ->
     specGRFBaseOffset numEltPerGRF_UB regNum (phyRegOff v) (elemSize dcl)
                       (TypeSize (type G4_Type r)) < 2 ^ 32 ->
     dst r ds
     = <[regVarDeclare v :=
           setGRFBaseOffset
             (specGRFBaseOffset numEltPerGRF_UB regNum (phyRegOff v)
                                (elemSize dcl) (TypeSize (type G4_Type r)))
             dcl]> ds).
Proof.
  intros src dst. split; [apply computePReg_same|].
  split.
  - intros N. unfold dst. rewrite <- computePReg_same.
    split; now apply computePReg_untouched.
  - intros v regNum dcl A L H1 H2 H3 H4 H5 H6 H7.
    revert A. unfold dst, G4_DstRegRegion_computePReg, greg_assigned.
    destruct (base _ r) as [bv|p]; [|discriminate].
    destruct (phyReg bv) as [[n|a]|]; try discriminate.
    intros [= -> ->]. rewrite L. cbv zeta.
    now rewrite linearizedStart_exact.
Qed.

Lemma computePReg_src_dst_agree_witness :
  let ds : gmap nat G4_Declare := {[ 7%nat := mkDeclare 4 0 ]} in
  let r := mkRegion nat (VarBase_RegVar (mkRegVar (Some (G4_Greg 12)) 3 7)) 2%nat in
  G4_DstRegRegion_computePReg nat Z.of_nat 32 r ds
  = {[ 7%nat := mkDeclare 4 396 ]}
  /\ G4_SrcRegRegion_computePReg nat Z.of_nat 32
       (mkRegion nat (VarBase_PhyReg (G4_Areg 0)) 2%nat) ds = ds.
Proof.
  intros ds r. split.
  - destruct (computePReg_src_dst_agree nat Z.of_nat 32 r ds) as (_ & _ & E).
    rewrite (E (mkRegVar (Some (G4_Greg 12)) 3 7) 12 (mkDeclare 4 0));
      try reflexivity; try (simpl; lia).
  - destruct (computePReg_src_dst_agree nat Z.of_nat 32
                (mkRegion nat (VarBase_PhyReg (G4_Areg 0)) 2%nat) ds)
      as (_ & U & _).
    apply U. reflexivity.
Defined.

(** ** Augmentation sweep *)

Lemma buildEdges_stored es I G r c :
  wf_intf I -> Forall (validEdge I) es -> validId I r -> validId I c ->
  buildEdges es I = Some G ->
  edgeStored G r c = edgeStored I r c || writesBit es r c.
Proof.
  revert I. induction es as [|[a b] es IH]; intros I W F Hr Hc H; simpl in H.
  - inversion H; subst. simpl. now rewrite orb_false_r.
  - destruct (checkAndSetIntf a b I) as [I'|] eqn:E; simpl in H;
      [|discriminate].
    inversion F as [|? ? [Ha Hb] F']; subst. simpl in Ha, Hb.
    pose proof (checkAndSet_maxId _ _ _ _ E) as M.
    rewrite (IH I'); try assumption.
    + rewrite (checkAndSet_stored a b I I' r c) by assumption.
      simpl. now rewrite orb_assoc.
    + eapply checkAndSet_wf; eauto.
    + eapply Forall_impl; [exact F'|]. intros e. now apply validEdge_maxId.
    + unfold validId. now rewrite M.
    + unfold validId. now rewrite M.
Qed.

Lemma interfereBetween_sym I v1 v2 :
  interfereBetween I v1 v2 = interfereBetween I v2 v1.
Proof.
  unfold interfereBetween.
  destruct (Z.gtb_spec v1 v2), (Z.gtb_spec v2 v1); try reflexivity; try lia.
  now replace v2 with v1 by lia.
Qed.

Lemma interfereBetween_stored I v1 v2 :
  interfereBetween I v1 v2 = edgeStored I (Z.min v1 v2) (Z.max v1 v2).
Proof.
  unfold interfereBetween. destruct (Z.gtb_spec v1 v2).
  - now rewrite Z.min_r, Z.max_l by lia.
  - now rewrite Z.min_l, Z.max_r by lia.
Qed.

Lemma buildSIMDIntfDcl_edges varMasks newDcl active I :
  buildSIMDIntfDcl varMasks newDcl active I
  = buildEdges (simdEdges varMasks newDcl active) I.
Proof.
  revert I. unfold simdEdges.
  induction active as [|a rest IH]; intros I; simpl; [reflexivity|].
  destruct (sameDefaultMask _ _); simpl; [apply IH|].
  unfold handleSIMDIntf.
  destruct (checkAndSetIntf _ _ I); simpl; [apply IH|reflexivity].
Qed.

Lemma NoDup_map_eq {A B} (f : A -> B) (l : list A) (x y : A) :
  List.NoDup (map f l) -> In x l -> In y l -> f x = f y -> x = y.
Proof.
  induction l as [|z l IH]; simpl; [tauto|].
  intros N Hx Hy E. inversion N as [|? ? Nz N']; subst.
  destruct Hx as [->|Hx], Hy as [->|Hy]; auto.
  - exfalso. apply Nz. rewrite E. now apply in_map.
  - exfalso. apply Nz. rewrite <- E. now apply in_map.
Qed.

Lemma sameDefaultMask_spec m1 m2 :
  sameDefaultMask m1 m2 = true <->
  m1 = m2 /\ exists w, maskBitWidth m1 = Some w /\ maskBitWidth m2 = Some w.
Proof.
  unfold sameDefaultMask.
  destruct (maskBitWidth m1) as [w1|] eqn:E1, (maskBitWidth m2) as [w2|] eqn:E2;
    try (split; [discriminate|intros (_ & w & ? & ?); discriminate]).
  rewrite andb_true_iff, bool_decide_eq_true, Z.eqb_eq. split.
  - intros [-> ->]. split; [reflexivity|]. exists w2. split; congruence.
  - intros (-> & w & ? & ?). split; congruence.
Qed.

(** ** Ordering of live intervals *)

Lemma key_le_refl k : key_le k k.
Proof. unfold key_le. lia. Qed.

Lemma key_le_trans k1 k2 k3 : key_le k1 k2 -> key_le k2 k3 -> key_le k1 k3.
Proof. unfold key_le. lia. Qed.

Lemma key_le_antisym k1 k2 : key_le k1 k2 -> key_le k2 k1 -> k1 = k2.
Proof.
  destruct k1 as [a b], k2 as [c d]. unfold key_le. simpl.
  intros H1 H2. f_equal; lia.
Qed.

Lemma key_le_total k1 k2 : key_le k1 k2 \/ key_le k2 k1.
Proof. unfold key_le. lia. Qed.

Lemma criticalCmp_false A B :
  criticalCmpForEndInterval A B = false <-> interval_le A B.
Proof.
  unfold criticalCmpForEndInterval, interval_le, key_le, intervalKey. simpl.
  rewrite orb_false_iff, andb_false_iff.
  destruct (Z.gtb_spec (endInterval A) (endInterval B)),
           (Z.eqb_spec (endInterval A) (endInterval B)),
           (Z.gtb_spec (startInterval A) (startInterval B));
    split; intros; try lia; try tauto; intuition (discriminate || lia).
Qed.

Lemma criticalCmp_true A B :
  criticalCmpForEndInterval A B = true -> interval_le B A.
Proof.
  intros T. destruct (key_le_total (intervalKey B) (intervalKey A)) as [H|H];
    [exact H|].
  apply criticalCmp_false in H. congruence.
Qed.

Lemma pq_push_perm x q : Permutation (x :: q) (pq_push x q).
Proof.
  induction q as [|y q IH]; simpl; [reflexivity|].
  destruct (criticalCmpForEndInterval x y); [|reflexivity].
  rewrite perm_swap. now constructor.
Qed.

Lemma pq_push_sorted x q :
  StronglySorted interval_le q -> StronglySorted interval_le (pq_push x q).
Proof.
  induction 1 as [|y q S IH F]; simpl.
  - repeat constructor.
  - destruct (criticalCmpForEndInterval x y) eqn:C.
    + constructor; [exact IH|].
      apply criticalCmp_true in C.
      eapply Permutation_Forall; [apply pq_push_perm|].
      constructor; assumption.
    + apply criticalCmp_false in C.
      constructor; [now constructor|].
      constructor; [exact C|].
      eapply Forall_impl; [exact F|].
      intros z Hz. eapply key_le_trans; eassumption.
Qed.

Lemma sortLiveIntervals_perm dcls : Permutation dcls (sortLiveIntervals dcls).
Proof.
  unfold sortLiveIntervals. induction dcls as [|d dcls IH]; simpl;
    [reflexivity|].
  rewrite <- pq_push_perm. now constructor.
Qed.

Lemma sortLiveIntervals_sorted dcls :
  StronglySorted interval_le (sortLiveIntervals dcls).
Proof.
  unfold sortLiveIntervals. induction dcls as [|d dcls IH]; simpl.
  - constructor.
  - now apply pq_push_sorted.
Qed.

Lemma sorted_keys l :
  StronglySorted interval_le l -> StronglySorted key_le (map intervalKey l).
Proof.
  induction 1 as [|y q S IH F]; simpl; constructor; [exact IH|].
  apply Forall_map. exact F.
Qed.

(** A total order leaves one sorted arrangement of a multiset of keys. *)
Lemma sorted_keys_unique (l1 l2 : list (Z * Z)) :
  StronglySorted key_le l1 -> StronglySorted key_le l2 ->
  Permutation l1 l2 -> l1 = l2.
Proof.
  intros S1. revert l2. induction S1 as [|a l1 S1 IH F1]; intros l2 S2 P.
  - apply Permutation_nil in P. now subst.
  - destruct S2 as [|b l2 S2 F2].
    + apply Permutation_sym, Permutation_nil in P. discriminate.
    + assert (a = b).
      { apply key_le_antisym.
        - assert (Hb : In b (a :: l1))
            by (eapply Permutation_in; [symmetry; exact P|now left]).
          destruct Hb as [->|Hb]; [apply key_le_refl|].
          now apply (proj1 (List.Forall_forall _ _) F1).
        - assert (Ha : In a (b :: l2))
            by (eapply Permutation_in; [exact P|now left]).
          destruct Ha as [->|Ha]; [apply key_le_refl|].
          now apply (proj1 (List.Forall_forall _ _) F2). }
      subst b. f_equal. apply IH; [assumption|].
      eapply Permutation_cons_inv; eassumption.
Qed.

Lemma same_keys_same_list (l s1 s2 : list LiveInterval) :
  List.NoDup (map intervalKey l) ->
  (forall x, In x s1 -> In x l) -> (forall x, In x s2 -> In x l) ->
  map intervalKey s1 = map intervalKey s2 -> s1 = s2.
Proof.
  intros N. revert s2. induction s1 as [|a s1 IH]; intros [|b s2] I1 I2 E;
    simpl in E; try discriminate; [reflexivity|].
  assert (Ek : intervalKey a = intervalKey b) by congruence.
  assert (Er : map intervalKey s1 = map intervalKey s2) by congruence.
  f_equal.
  - apply (NoDup_map_eq intervalKey l a b N);
      [apply I1; now left|apply I2; now left|exact Ek].
  - apply IH; auto; intros x Hx; [apply I1|apply I2]; now right.
Qed.

(** ** The sweep as a whole *)

Lemma list_snoc_case {A} (l : list A) : l = [] \/ exists l' x, l = l' ++ [x].
Proof.
  induction l as [|x l _] using rev_ind; [now left|right; eauto].
Qed.

Lemma NoDup_split_unique {A} (l1 l2 r1 r2 : list A) (x : A) :
  List.NoDup (l1 ++ x :: r1) -> l1 ++ x :: r1 = l2 ++ x :: r2 ->
  l1 = l2 /\ r1 = r2.
Proof.
  revert l2. induction l1 as [|a l1 IH]; intros [|a' l2] N E; simpl in *.
  - injection E as ->. now split.
  - injection E as <- ->. inversion N as [|? ? Nx _]; subst.
    exfalso. apply Nx. apply in_or_app. right. now left.
  - injection E as -> <-. inversion N as [|? ? Nx _]; subst.
    exfalso. apply Nx. apply in_or_app. right. now left.
  - injection E as <- E. inversion N as [|? ? _ N']; subst.
    destruct (IH l2 N' E) as [-> ->]. now split.
Qed.

Lemma NoDup_map_apart {A B} (f : A -> B) l1 a l2 b l3 :
  List.NoDup (map f (l1 ++ a :: l2 ++ b :: l3)) -> f a <> f b.
Proof.
  rewrite map_app. simpl. rewrite map_app. simpl. intros N E.
  apply NoDup_remove_2 in N. apply N.
  apply in_or_app. right. apply in_or_app. right. left. now symmetry.
Qed.

Lemma StronglySorted_app_r {A} (R : A -> A -> Prop) l1 l2 :
  StronglySorted R (l1 ++ l2) -> StronglySorted R l2.
Proof.
  induction l1 as [|a l1 IH]; [tauto|]. simpl. intros S.
  inversion S; subst. auto.
Qed.

Lemma StronglySorted_app_cross {A} (R : A -> A -> Prop) l1 l2 x y :
  StronglySorted R (l1 ++ l2) -> In x l1 -> In y l2 -> R x y.
Proof.
  induction l1 as [|a l1 IH]; simpl; [tauto|]. intros S [->|Hx] Hy.
  - inversion S as [|? ? _ F]; subst.
    apply (proj1 (List.Forall_forall _ _) F). apply in_or_app. now right.
  - inversion S; subst. auto.
Qed.

Lemma queuesAfter_cons vm d l aug :
  queuesAfter vm (d :: l) aug
  = queuesAfter vm l (enqueue vm d (expireIntervals (startInterval d) aug)).
Proof. reflexivity. Qed.

Lemma queuesAfter_snoc vm l d aug :
  queuesAfter vm (l ++ [d]) aug
  = enqueue vm d (expireIntervals (startInterval d) (queuesAfter vm l aug)).
Proof. unfold queuesAfter. now rewrite fold_left_app. Qed.

Lemma sweepEdges_app vm l1 l2 aug :
  sweepEdges vm (l1 ++ l2) aug
  = sweepEdges vm l1 aug ++ sweepEdges vm l2 (queuesAfter vm l1 aug).
Proof.
  revert aug. induction l1 as [|d l1 IH]; intros aug; [reflexivity|].
  rewrite queuesAfter_cons. cbn [app sweepEdges]. rewrite IH.
  now rewrite app_assoc.
Qed.

(** The sweep is the insertion of the edges it asks for. *)
Lemma sweep_as_edges vm l aug I :
  buildInterferenceIncompatibleMask vm l (aug, I)
  = I' ← buildEdges (sweepEdges vm l aug) I;
    Some (queuesAfter vm l aug, I').
Proof.
  revert aug I. induction l as [|d l IH]; intros aug I; [reflexivity|].
  rewrite queuesAfter_cons.
  cbn [buildInterferenceIncompatibleMask sweepEdges].
  unfold sweepStep, buildSIMDIntfAll. cbn [fst snd].
  rewrite buildSIMDIntfDcl_edges, buildEdges_app.
  destruct (buildEdges (simdEdges _ _ _) I) as [I1|]; [|reflexivity].
  cbn [mbind option_bind]. apply IH.
Qed.

Lemma interval_le_end x y : interval_le x y -> endInterval x <= endInterval y.
Proof. unfold interval_le, key_le, intervalKey. simpl. lia. Qed.

(** On a queue in the order of its comparator, expiry removes exactly the
    intervals that end before the start index. *)
Lemma pq_expire_filter s q :
  StronglySorted interval_le q ->
  pq_expire s q = List.filter (fun x => negb (endInterval x <? s)) q.
Proof.
  induction 1 as [|y q S IH F]; [reflexivity|]. simpl.
  destruct (Z.ltb_spec (endInterval y) s) as [Hlt|Hge]; simpl; [exact IH|].
  f_equal. symmetry. apply forallb_filter_id, forallb_forall.
  intros z Hz. apply negb_true_iff, Z.ltb_ge.
  pose proof (interval_le_end _ _ (proj1 (List.Forall_forall _ _) F z Hz)).
  lia.
Qed.

Lemma pq_expire_sorted s q :
  StronglySorted interval_le q -> StronglySorted interval_le (pq_expire s q).
Proof.
  induction 1 as [|y q S IH F]; simpl; [constructor|].
  destruct (endInterval y <? s); [exact IH|now constructor].
Qed.

Lemma In_pq_expire s q x :
  StronglySorted interval_le q ->
  In x (pq_expire s q) <-> In x q /\ s <= endInterval x.
Proof.
  intros S. rewrite (pq_expire_filter s q S), filter_In, negb_true_iff.
  now rewrite Z.ltb_ge.
Qed.

Lemma In_pq_push x y q : In y (pq_push x q) <-> y = x \/ In y q.
Proof.
  split; intros H.
  - apply (Permutation_in _ (Permutation_sym (pq_push_perm x q))) in H.
    destruct H; auto.
  - apply (Permutation_in _ (pq_push_perm x q)). destruct H; [left|right]; auto.
Qed.

Lemma active_expire s aug x :
  StronglySorted interval_le (defaultMaskQueue aug) ->
  StronglySorted interval_le (nonDefaultMaskQueue aug) ->
  In x (activeIntervals (expireIntervals s aug))
  <-> In x (activeIntervals aug) /\ s <= endInterval x.
Proof.
  intros S1 S2. unfold activeIntervals, expireIntervals. simpl.
  rewrite !in_app_iff, !In_pq_expire by assumption. tauto.
Qed.

Lemma active_enqueue vm d aug x :
  In x (activeIntervals (enqueue vm d aug))
  <-> x = d \/ In x (activeIntervals aug).
Proof.
  unfold enqueue. destruct (bool_decide _); unfold activeIntervals; simpl;
    rewrite !in_app_iff, In_pq_push; tauto.
Qed.

Lemma enqueue_sorted vm d aug :
  StronglySorted interval_le (defaultMaskQueue aug) ->
  StronglySorted interval_le (nonDefaultMaskQueue aug) ->
  StronglySorted interval_le (defaultMaskQueue (enqueue vm d aug))
  /\ StronglySorted interval_le (nonDefaultMaskQueue (enqueue vm d aug)).
Proof.
  intros S1 S2. unfold enqueue. destruct (bool_decide _); simpl;
    split; try assumption; now apply pq_push_sorted.
Qed.

(** The queues of the sweep started with empty queues: they are in the
    order of the comparator and hold the intervals processed so far that no
    later interval has expired. *)
Lemma queues_spec vm p :
  let aug := queuesAfter vm p (mkAugmentation [] []) in
  StronglySorted interval_le (defaultMaskQueue aug)
  /\ StronglySorted interval_le (nonDefaultMaskQueue aug)
  /\ forall x,
       In x (activeIntervals aug) <->
       exists p1 p2,
         p = p1 ++ x :: p2
         /\ forallb (fun c => startInterval c <=? endInterval x) p2 = true.
Proof.
  induction p as [|d p IH] using rev_ind.
  - simpl. repeat split; try constructor; try tauto.
    intros (p1 & p2 & E & _). now destruct p1.
  - destruct IH as (S1 & S2 & A). cbv zeta. rewrite queuesAfter_snoc.
    set (aug := queuesAfter vm p (mkAugmentation [] [])) in *.
    destruct (enqueue_sorted vm d (expireIntervals (startInterval d) aug))
      as [T1 T2]; [now apply pq_expire_sorted..|].
    split; [exact T1|]. split; [exact T2|].
    intros x. rewrite active_enqueue, active_expire, A by assumption.
    split.
    + intros [->|[(p1 & p2 & -> & F) Hs]].
      * exists p, []. now split.
      * exists p1, (p2 ++ [d]). split; [now rewrite <- app_assoc|].
        rewrite forallb_app, F. simpl. rewrite andb_true_r.
        now apply Z.leb_le.
    + intros (p1 & p2 & E & F).
      destruct (list_snoc_case p2) as [->|(p2' & d' & ->)].
      * apply app_inj_tail in E as [_ ->]. now left.
      * rewrite app_comm_cons, app_assoc in E.
        apply app_inj_tail in E as [-> <-].
        rewrite forallb_app in F. simpl in F.
        apply andb_true_iff in F as [F Hd]. rewrite andb_true_r in Hd.
        right. split; [eauto|now apply Z.leb_le].
Qed.

Lemma simdEdges_In vm d act u v :
  In (u, v) (simdEdges vm d act) <->
  exists x, In x act
            /\ sameDefaultMask (getAugmentationMask vm (declId x))
                               (getAugmentationMask vm (declId d)) = false
            /\ u = lrId x /\ v = lrId d.
Proof.
  unfold simdEdges. rewrite in_map_iff. split.
  - intros (x & [= <- <-] & Hf). apply filter_In in Hf as [Hx Hs].
    apply negb_true_iff in Hs. eauto.
  - intros (x & Hx & Hs & -> & ->). exists x. split; [reflexivity|].
    apply filter_In. split; [exact Hx|]. now apply negb_true_iff.
Qed.

(** The edges the sweep from empty queues asks for: one for every interval
    and every earlier interval that is still active and whose mask is not
    the same default mask. *)
Lemma sweepEdges_In vm l u v :
  In (u, v) (sweepEdges vm l (mkAugmentation [] [])) <->
  exists p1 x p2 d rest,
    l = p1 ++ x :: p2 ++ d :: rest
    /\ stillActive x p2 d = true
    /\ sameDefaultMask (getAugmentationMask vm (declId x))
                       (getAugmentationMask vm (declId d)) = false
    /\ u = lrId x /\ v = lrId d.
Proof.
  induction l as [|d0 l IH] using rev_ind.
  - simpl. split; [tauto|]. intros (p1 & x & p2 & d & rest & E & _).
    now destruct p1.
  - rewrite sweepEdges_app, in_app_iff, IH. cbn [sweepEdges].
    rewrite app_nil_r, simdEdges_In.
    destruct (queues_spec vm l) as (S1 & S2 & A). cbv zeta in S1, S2, A.
    split.
    + intros [(p1 & x & p2 & d & rest & -> & H)|(x & Hx & Hs & -> & ->)].
      * exists p1, x, p2, d, (rest ++ [d0]). split; [|exact H].
        rewrite <- app_assoc. simpl. rewrite <- app_assoc. reflexivity.
      * apply active_expire in Hx as [Hx Hd]; [|assumption..].
        apply A in Hx as (p1 & p2 & -> & F).
        exists p1, x, p2, d0, []. split; [now rewrite <- app_assoc|].
        split; [|auto]. unfold stillActive. rewrite forallb_app, F. simpl.
        rewrite andb_true_r. now apply Z.leb_le.
    + intros (p1 & x & p2 & d & rest & E & SA & Hs & -> & ->).
      destruct (list_snoc_case rest) as [->|(rest' & r & ->)].
      * right. replace (p1 ++ x :: p2 ++ [d]) with ((p1 ++ x :: p2) ++ [d])
          in E by (now rewrite <- app_assoc).
        apply app_inj_tail in E as [-> ->].
        exists x. split; [|auto].
        unfold stillActive in SA. rewrite forallb_app in SA. simpl in SA.
        apply andb_true_iff in SA as [F Hd]. rewrite andb_true_r in Hd.
        apply active_expire; [assumption..|].
        split; [apply A; eauto|now apply Z.leb_le].
      * left.
        replace (p1 ++ x :: p2 ++ d :: rest' ++ [r])
          with ((p1 ++ x :: p2 ++ d :: rest') ++ [r]) in E.
        2:{ rewrite <- app_assoc. simpl. rewrite <- app_assoc. reflexivity. }
        apply app_inj_tail in E as [-> _]. eauto 10.
Qed.

Lemma writesBit_true es r c :
  writesBit es r c = true <->
  exists u v, In (u, v) es /\ u <> v /\ r = Z.min u v /\ c = Z.max u v.
Proof.
  unfold writesBit. rewrite existsb_exists. split.
  - intros ([u v] & Hin & Hb). simpl in Hb.
    rewrite !andb_true_iff, negb_true_iff, Z.eqb_neq, !Z.eqb_eq in Hb.
    exists u, v. tauto.
  - intros (u & v & Hin & N & -> & ->). exists (u, v). split; [exact Hin|].
    simpl. rewrite !Z.eqb_refl, !andb_true_r. now apply negb_true_iff, Z.eqb_neq.
Qed.

(** With distinct live-range ids, the bit of a pair of intervals is written
    exactly when the earlier one is still active at the later one and the
    masks are not the same default mask. *)
Lemma sweep_writes vm l1 a l2 b l3 :
  List.NoDup (map lrId (l1 ++ a :: l2 ++ b :: l3)) ->
  writesBit (sweepEdges vm (l1 ++ a :: l2 ++ b :: l3) (mkAugmentation [] []))
            (Z.min (lrId a) (lrId b)) (Z.max (lrId a) (lrId b))
  = stillActive a l2 b
    && negb (sameDefaultMask (getAugmentationMask vm (declId a))
                             (getAugmentationMask vm (declId b))).
Proof.
  intros N. pose proof (NoDup_map_inv _ _ N) as N'.
  pose proof (NoDup_map_apart _ _ _ _ _ _ N) as Nab.
  apply eq_true_iff_eq.
  rewrite writesBit_true, andb_true_iff, negb_true_iff. split.
  - intros (u & v & Hin & Hne & Hmin & Hmax).
    apply sweepEdges_In in Hin as (p1 & x & p2 & d & rest & E & SA & Hs
                                   & -> & ->).
    assert (Ix : In x (l1 ++ a :: l2 ++ b :: l3))
      by (rewrite E; apply in_or_app; right; now left).
    assert (Id : In d (l1 ++ a :: l2 ++ b :: l3)).
    { rewrite E. apply in_or_app. right. right. apply in_or_app. right.
      now left. }
    assert (Ia : In a (l1 ++ a :: l2 ++ b :: l3))
      by (apply in_or_app; right; now left).
    assert (Ib : In b (l1 ++ a :: l2 ++ b :: l3)).
    { apply in_or_app. right. right. apply in_or_app. right. now left. }
    assert (C : (lrId x = lrId a /\ lrId d = lrId b)
                \/ (lrId x = lrId b /\ lrId d = lrId a)) by lia.
    destruct C as [[Ex Ed]|[Ex Ed]];
      apply (NoDup_map_eq lrId _ _ _ N Ix) in Ex; try assumption;
      apply (NoDup_map_eq lrId _ _ _ N Id) in Ed; try assumption; subst x d.
    + destruct (NoDup_split_unique _ _ _ _ _ N' E) as [<- E2].
      apply NoDup_app_remove_l in N'. inversion N' as [|? ? _ N2]; subst.
      destruct (NoDup_split_unique _ _ _ _ _ N2 E2) as [<- _]. now split.
    + exfalso.
      replace (l1 ++ a :: l2 ++ b :: l3) with ((l1 ++ a :: l2) ++ b :: l3)
        in E, N' by (now rewrite <- app_assoc).
      destruct (NoDup_split_unique _ _ _ _ _ N' E) as [_ ->].
      rewrite <- app_assoc in N'. simpl in N'.
      apply NoDup_remove_2 in N'. apply N'.
      apply in_or_app. right. apply in_or_app. right. right.
      apply in_or_app. right. now left.
  - intros [SA Hs]. exists (lrId a), (lrId b).
    split; [|now repeat split].
    apply sweepEdges_In. exists l1, a, l2, b, l3. now repeat split.
Qed.

Lemma stillActive_overlap l1 a l2 b l3 :
  StronglySorted (fun x y => startInterval x <= startInterval y)
                 (l1 ++ a :: l2 ++ b :: l3) ->
  startInterval b <= endInterval b ->
  stillActive a l2 b = intervalsOverlap a b.
Proof.
  intros S Hb. apply StronglySorted_app_r in S.
  inversion S as [|? ? S' F]; subst.
  assert (Hab : startInterval a <= startInterval b).
  { apply (proj1 (List.Forall_forall _ _) F). apply in_or_app. right. now left. }
  assert (Hc : forall c, In c l2 -> startInterval c <= startInterval b).
  { intros c Hin.
    apply (StronglySorted_app_cross _ _ _ _ _ S' Hin). now left. }
  unfold stillActive, intervalsOverlap. rewrite forallb_app. simpl.
  rewrite andb_true_r.
  destruct (Z.leb_spec (startInterval b) (endInterval a)) as [H|H].
  - rewrite andb_true_r. rewrite (proj2 (Z.leb_le _ _)) by lia.
    apply forallb_forall. intros c Hin. apply Z.leb_le.
    specialize (Hc c Hin). lia.
  - now rewrite !andb_false_r.
Qed.




(** ** The colouring pass *)

Lemma rangesOverlap_sym a n b m : rangesOverlap a n b m = rangesOverlap b m a n.
Proof. unfold rangesOverlap. now rewrite Z.max_comm, Z.min_comm. Qed.

Lemma neighborConflict_false I i r n j0 others :
  neighborConflict I i r n j0 others = false ->
  forall k nb r',
    others !! k = Some nb -> j0 + Z.of_nat k <> i ->
    interfereBetween I i (j0 + Z.of_nat k) = true ->
    assignedGRF nb = Some r' ->
    rangesOverlap r n r' (numRegNeeded nb) = false.
Proof.
  revert j0. induction others as [|x rest IH]; intros j0 H k nb r' L N B A.
  - discriminate.
  - simpl in H. apply orb_false_iff in H as [H1 H2].
    destruct k as [|k]; simpl in L.
    + inversion L; subst x. rewrite Z.add_0_r in N, B.
      rewrite A, B, andb_true_r in H1.
      apply Z.eqb_neq in N. rewrite N in H1. exact H1.
    + apply (IH (j0 + 1) H2 k nb r' L); [lia| |exact A].
      now replace (j0 + 1 + Z.of_nat k) with (j0 + Z.of_nat (S k)) by lia.
Qed.

Lemma findColor_legal gc i lr r :
  findColor gc i lr = Some r ->
  colorLegal gc i lr r = true /\ 0 <= r < totalGRFRegCount gc.
Proof.
  unfold findColor. intros H.
  assert (In r (seqZ 0 (totalGRFRegCount gc)) /\ colorLegal gc i lr r = true)
    as [Hin Hl].
  { destruct (find (fun r => colorLegal gc i lr r && _) _) as [r0|] eqn:F.
    - inversion H; subst r0. apply find_some in F as [Hin Hb].
      apply andb_true_iff in Hb. tauto.
    - now apply find_some in H. }
  split; [exact Hl|].
  apply list_elem_of_In, elem_of_seqZ in Hin. lia.
Qed.

Lemma findColor_none gc i lr :
  findColor gc i lr = None <->
  forall r, 0 <= r < totalGRFRegCount gc -> colorLegal gc i lr r = false.
Proof.
  unfold findColor. split.
  - intros H r Hr.
    destruct (find (fun r => colorLegal gc i lr r && _) _); [discriminate|].
    apply (find_none _ _ H). apply list_elem_of_In, elem_of_seqZ. lia.
  - intros H.
    assert (N : forall f : Z -> bool,
               (forall r, f r = true -> colorLegal gc i lr r = true) ->
               find f (seqZ 0 (totalGRFRegCount gc)) = None).
    { intros f Hf. destruct (find f _) as [r|] eqn:F; [|reflexivity].
      apply find_some in F as [Hin Hb].
      apply list_elem_of_In, elem_of_seqZ in Hin.
      apply Hf in Hb. rewrite H in Hb by lia. discriminate. }
    rewrite N; [apply N; auto|].
    intros r Hb. apply andb_true_iff in Hb. tauto.
Qed.

(** The three ways a live range's turn can end. *)
Lemma assignColor_cases gc i :
  (lrs gc !! i = None /\ assignColor gc i = gc) \/
  (exists lr r, lrs gc !! i = Some lr /\ findColor gc i lr = Some r /\
     assignColor gc i
     = set_lrs (<[i := setPhyReg (G4_Greg r) 0 lr]> (lrs gc)) gc) \/
  (exists lr, lrs gc !! i = Some lr /\ findColor gc i lr = None /\
     assignColor gc i
     = push_spilled i (set_lrs (<[i := setSpilled true lr]> (lrs gc)) gc)).
Proof.
  unfold assignColor. destruct (lrs gc !! i) as [lr|]; [|now left].
  right. destruct (findColor gc i lr) as [r|] eqn:F; [left|right]; eauto.
Qed.

Lemma assignColor_frame gc i :
  intf (assignColor gc i) = intf gc
  /\ totalGRFRegCount (assignColor gc i) = totalGRFRegCount gc
  /\ colorOrder (assignColor gc i) = colorOrder gc
  /\ length (lrs (assignColor gc i)) = length (lrs gc).
Proof.
  destruct (assignColor_cases gc i)
    as [[_ ->]|[(lr & r & _ & _ & ->)|(lr & _ & _ & ->)]]; simpl;
    rewrite ?length_insert; auto.
Qed.

Lemma assignColor_other gc i j :
  j <> i -> lrs (assignColor gc i) !! j = lrs gc !! j.
Proof.
  intros N. destruct (assignColor_cases gc i)
    as [[_ ->]|[(lr & r & _ & _ & ->)|(lr & _ & _ & ->)]]; simpl;
    rewrite ?list_lookup_insert_ne by congruence; reflexivity.
Qed.

(** What a turn does to any live range: sizes stay, a register or a spill
    mark once given is not taken back. *)
Lemma assignColor_keeps gc i j lr :
  lrs gc !! j = Some lr ->
  exists lr', lrs (assignColor gc i) !! j = Some lr'
    /\ numRegNeeded lr' = numRegNeeded lr /\ byteSize lr' = byteSize lr
    /\ (is_Some (assignedGRF lr) -> is_Some (assignedGRF lr'))
    /\ (spilled lr = true -> spilled lr' = true).
Proof.
  intros L. destruct (decide (j = i)) as [->|N].
  - destruct (assignColor_cases gc i)
      as [[_ ->]|[(lr0 & r & L0 & _ & ->)|(lr0 & L0 & _ & ->)]]; simpl.
    + exists lr. auto.
    + rewrite list_lookup_insert_eq by (eapply lookup_lt_Some; eauto).
      assert (lr0 = lr) by congruence. subst lr0.
      eexists. split; [reflexivity|]. simpl. repeat split; eauto.
    + rewrite list_lookup_insert_eq by (eapply lookup_lt_Some; eauto).
      assert (lr0 = lr) by congruence. subst lr0.
      eexists. split; [reflexivity|]. simpl. repeat split; eauto.
  - rewrite assignColor_other by assumption. exists lr. auto.
Qed.

Lemma assignColor_conflictFree gc i :
  conflictFree gc -> conflictFree (assignColor gc i).
Proof.
  intros CF. destruct (assignColor_cases gc i)
    as [[_ ->]|[(lr & r & L & F & ->)|(lr & L & F & ->)]]; [exact CF| |].
  - apply findColor_legal in F as [Leg _].
    unfold colorLegal in Leg. rewrite !andb_true_iff, negb_true_iff in Leg.
    destruct Leg as (_ & NC).
    pose proof (neighborConflict_false _ _ _ _ _ _ NC) as NCf.
    pose proof (lookup_lt_Some _ _ _ L) as Li.
    intros a b la lb ra rb Nab La Lb IB Aa Ab. simpl in *.
    destruct (decide (a = i)) as [->|Na], (decide (b = i)) as [->|Nb];
      try congruence.
    + rewrite list_lookup_insert_eq in La by assumption.
      rewrite list_lookup_insert_ne in Lb by congruence.
      inversion La; subst la. simpl in *. inversion Aa; subst ra.
      apply (NCf b lb rb Lb); [lia| |exact Ab].
      now rewrite Z.add_0_l.
    + rewrite list_lookup_insert_ne in La by congruence.
      rewrite list_lookup_insert_eq in Lb by assumption.
      inversion Lb; subst lb. simpl in *. inversion Ab; subst rb.
      rewrite rangesOverlap_sym.
      apply (NCf a la ra La); [lia| |exact Aa].
      rewrite Z.add_0_l. now rewrite interfereBetween_sym.
    + rewrite list_lookup_insert_ne in La, Lb by congruence.
      exact (CF a b la lb ra rb Nab La Lb IB Aa Ab).
  - intros a b la lb ra rb Nab La Lb IB Aa Ab. simpl in *.
    pose proof (lookup_lt_Some _ _ _ L) as Li.
    assert (Old : forall x lx rx,
               <[i:=setSpilled true lr]> (lrs gc) !! x = Some lx ->
               assignedGRF lx = Some rx ->
               exists lx', lrs gc !! x = Some lx'
                           /\ assignedGRF lx' = Some rx
                           /\ numRegNeeded lx' = numRegNeeded lx).
    { intros x lx rx Lx Ax. destruct (decide (x = i)) as [->|Nx].
      - rewrite list_lookup_insert_eq in Lx by assumption.
        inversion Lx; subst lx. exists lr. auto.
      - rewrite list_lookup_insert_ne in Lx by congruence. eauto. }
    destruct (Old a la ra La Aa) as (la' & La' & Aa' & <-).
    destruct (Old b lb rb Lb Ab) as (lb' & Lb' & Ab' & <-).
    exact (CF a b la' lb' ra rb Nab La' Lb' IB Aa' Ab').
Qed.

Lemma colorPass_app o1 o2 gc :
  colorPass (o1 ++ o2) gc = colorPass o2 (colorPass o1 gc).
Proof. unfold colorPass. apply foldl_app. Qed.

Lemma colorPass_frame order gc :
  intf (colorPass order gc) = intf gc
  /\ totalGRFRegCount (colorPass order gc) = totalGRFRegCount gc
  /\ colorOrder (colorPass order gc) = colorOrder gc
  /\ length (lrs (colorPass order gc)) = length (lrs gc).
Proof.
  revert gc. induction order as [|i order IH]; intros gc; simpl; [auto|].
  destruct (IH (assignColor gc i)) as (-> & -> & -> & ->).
  apply assignColor_frame.
Qed.

Lemma colorPass_conflictFree order gc :
  conflictFree gc -> conflictFree (colorPass order gc).
Proof.
  revert gc. induction order as [|i order IH]; intros gc CF; simpl; [exact CF|].
  apply IH. now apply assignColor_conflictFree.
Qed.

Lemma colorPass_keeps order gc j lr :
  lrs gc !! j = Some lr ->
  exists lr', lrs (colorPass order gc) !! j = Some lr'
    /\ numRegNeeded lr' = numRegNeeded lr /\ byteSize lr' = byteSize lr
    /\ (is_Some (assignedGRF lr) -> is_Some (assignedGRF lr'))
    /\ (spilled lr = true -> spilled lr' = true).
Proof.
  revert gc lr. induction order as [|i order IH]; intros gc lr L; simpl.
  - exists lr. auto.
  - destruct (assignColor_keeps gc i j lr L) as (lr1 & L1 & N1 & B1 & A1 & S1).
    destruct (IH _ _ L1) as (lr2 & L2 & N2 & B2 & A2 & S2).
    exists lr2. rewrite N2, B2. repeat split; auto.
Qed.

Lemma colorPass_untouched order gc j :
  ~ In j order -> lrs (colorPass order gc) !! j = lrs gc !! j.
Proof.
  revert gc. induction order as [|i order IH]; intros gc N; simpl;
    [reflexivity|].
  rewrite IH by (intros H; apply N; now right).
  apply assignColor_other. intros ->. apply N. now left.
Qed.

Lemma assignColor_settled gc i :
  is_Some (lrs gc !! i) -> settled (assignColor gc i) i.
Proof.
  intros [lr L]. pose proof (lookup_lt_Some _ _ _ L) as Li. unfold settled.
  destruct (assignColor_cases gc i)
    as [[N _]|[(lr0 & r & L0 & _ & ->)|(lr0 & L0 & _ & ->)]]; [congruence| |];
    simpl; rewrite list_lookup_insert_eq by assumption;
    eexists; (split; [reflexivity|]); simpl; eauto.
Qed.

Lemma settled_kept order gc i : settled gc i -> settled (colorPass order gc) i.
Proof.
  intros (lr & L & H).
  destruct (colorPass_keeps order gc i lr L) as (lr' & L' & _ & _ & A & S).
  exists lr'. split; [exact L'|]. tauto.
Qed.

Lemma colorPass_settled order gc i :
  In i order -> is_Some (lrs gc !! i) -> settled (colorPass order gc) i.
Proof.
  intros Hin. apply in_split in Hin as (o1 & o2 & ->). intros [lr L].
  rewrite colorPass_app. simpl. apply settled_kept.
  apply assignColor_settled.
  destruct (colorPass_keeps o1 gc i lr L) as (lr' & L' & _). eauto.
Qed.

Lemma assignColor_spillListExact gc i :
  spillListExact gc -> spillListExact (assignColor gc i).
Proof.
  intros SE. destruct (assignColor_cases gc i)
    as [[_ ->]|[(lr & r & L & _ & ->)|(lr & L & _ & ->)]]; [exact SE| |];
    pose proof (lookup_lt_Some _ _ _ L) as Li; intros x; simpl.
  - rewrite (SE x). destruct (decide (x = i)) as [->|N].
    + rewrite list_lookup_insert_eq by assumption. rewrite L. split.
      * intros (l0 & [= <-] & S). eexists. split; [reflexivity|exact S].
      * intros (l0 & [= <-] & S). eexists. split; [reflexivity|exact S].
    + now rewrite list_lookup_insert_ne by congruence.
  - rewrite in_app_iff, (SE x). simpl. destruct (decide (x = i)) as [->|N].
    + rewrite list_lookup_insert_eq by assumption. split; [|auto].
      intros _. eexists. split; [reflexivity|reflexivity].
    + rewrite list_lookup_insert_ne by congruence. split; [|auto].
      intros [H|[H|[]]]; [exact H|congruence].
Qed.

Lemma colorPass_spillListExact order gc :
  spillListExact gc -> spillListExact (colorPass order gc).
Proof.
  revert gc. induction order as [|i order IH]; intros gc SE; simpl; [exact SE|].
  apply IH. now apply assignColor_spillListExact.
Qed.

Lemma fresh_spillListExact gc : freshGraphColor gc -> spillListExact gc.
Proof.
  intros [F E] i. rewrite E. simpl. split; [tauto|].
  intros (lr & L & S).
  assert (Hf : freshLiveRange lr).
  { apply (proj1 (List.Forall_forall _ _) F). apply list_elem_of_In.
    eapply list_elem_of_lookup_2; eauto. }
  destruct Hf as [_ Hs]. congruence.
Qed.

Lemma fresh_conflictFree gc : freshGraphColor gc -> conflictFree gc.
Proof.
  intros [F _] i j li lj ri rj _ Li _ _ Ai _.
  assert (Hf : freshLiveRange li).
  { apply (proj1 (List.Forall_forall _ _) F). apply list_elem_of_In.
    eapply list_elem_of_lookup_2; eauto. }
  destruct Hf as [Hp _]. unfold assignedGRF in Ai. rewrite Hp in Ai.
  discriminate.
Qed.

Lemma colorPass_spilled_sublist order gc :
  exists s, spilledLRs (colorPass order gc) = spilledLRs gc ++ s
            /\ sublist s order.
Proof.
  revert gc. induction order as [|i order IH]; intros gc; simpl.
  - exists []. now rewrite app_nil_r.
  - destruct (IH (assignColor gc i)) as (s & -> & Sub).
    destruct (assignColor_cases gc i)
      as [[_ ->]|[(lr & r & _ & _ & ->)|(lr & _ & _ & ->)]]; simpl.
    + exists s. split; [reflexivity|now apply sublist_cons].
    + exists s. split; [reflexivity|now apply sublist_cons].
    + exists (i :: s). rewrite <- app_assoc. split; [reflexivity|].
      now apply sublist_skip.
Qed.

(** ** Spill locations *)

Lemma ROUND_ge x y : 0 < y -> x <= ROUND x y.
Proof.
  intros P. unfold ROUND.
  pose proof (Z.mod_pos_bound (y - x mod y) y P). lia.
Qed.

Lemma slotsDisjoint_insert nextOff slots i sz :
  0 <= sz -> slotsDisjoint nextOff slots ->
  slotsDisjoint (nextOff + sz) (<[i := (nextOff, sz)]> slots).
Proof.
  intros P [B D]. split.
  - intros k o s. rewrite lookup_insert. case_decide.
    + intros [= <- <-]. lia.
    + intros H'. specialize (B _ _ _ H'). lia.
  - intros k j o s o' s' N. rewrite !lookup_insert.
    repeat case_decide; try congruence.
    + intros [= <- <-] H'. specialize (B _ _ _ H').
      unfold rangesOverlap. apply Z.ltb_ge. lia.
    + intros H' [= <- <-]. specialize (B _ _ _ H').
      unfold rangesOverlap. apply Z.ltb_ge. lia.
    + intros H1' H2'. exact (D k j o s o' s' N H1' H2').
Qed.

Lemma createSpillLocations_disjoint granule ranges l nextOff slots :
  0 < granule ->
  (forall i lr, ranges !! i = Some lr -> 0 <= byteSize lr) ->
  slotsDisjoint nextOff slots ->
  exists off',
    slotsDisjoint off' (createSpillLocations granule ranges l nextOff slots).
Proof.
  intros G B. revert nextOff slots.
  induction l as [|i l IH]; intros nextOff slots SD; simpl; [eauto|].
  destruct (ranges !! i) as [lr|] eqn:L; [|now apply IH].
  apply IH. apply slotsDisjoint_insert; [|exact SD].
  pose proof (B _ _ L). pose proof (ROUND_ge (byteSize lr) granule G). lia.
Qed.

Lemma createSpillLocations_dom granule ranges l nextOff slots i :
  (is_Some (slots !! i) \/ (In i l /\ is_Some (ranges !! i))) ->
  is_Some (createSpillLocations granule ranges l nextOff slots !! i).
Proof.
  revert nextOff slots. induction l as [|j l IH]; intros nextOff slots H;
    simpl.
  - destruct H as [H|[[] _]]. exact H.
  - destruct (ranges !! j) as [lr|] eqn:L.
    + apply IH. destruct (decide (i = j)) as [->|N].
      * left. rewrite lookup_insert_eq. eauto.
      * destruct H as [H|[[->|H] S]]; [| congruence |right; auto].
        left. now rewrite lookup_insert_ne by congruence.
    + apply IH. destruct H as [H|[[->|H] S]]; [now left| |right; auto].
      rewrite L in S. now destruct S.
Qed.

Lemma empty_slotsDisjoint : slotsDisjoint 0 (∅ : gmap nat (Z * Z)).
Proof. split; intros; simplify_map_eq. Qed.

(** ** Claims on colouring and spilling *)

(** C1. For every colouring pass started on freshly created live ranges,
    followed by the creation of the spill locations: two distinct live
    ranges between which the interference graph records an edge get storage
    that does not overlap, whether both hold registers, both hold spill
    slots, or one of each; the pass leaves the graph as it is, and every
    live range of the colouring order does get storage. *)
Theorem interfering_ranges_disjoint_storage (gc : GraphColor) (granule : Z) :
  freshGraphColor gc -> 0 < granule ->
  (forall i lr, lrs gc !! i = Some lr -> 0 <= byteSize lr) ->
  let gc' := assignColors gc in
  let slots := createSpillLocations granule (lrs gc')
                                    (getSpilledLiveRanges gc') 0 ∅ in
  intf gc' = intf gc /\
  (forall v1 v2 : nat,
     v1 <> v2 ->
     interfereBetween (intf gc') (Z.of_nat v1) (Z.of_nat v2) = true ->
     storageOverlap (storageOf gc' slots v1) (storageOf gc' slots v2) = false)
  /\
  (forall i, In i (colorOrder gc) -> (i < length (lrs gc))%nat ->
             storageOf gc' slots i <> Unallocated).
Proof.
  intros Fr G B gc' slots.
  pose proof (colorPass_frame (colorOrder gc) gc) as (Ei & _ & _ & El).
  fold (assignColors gc) in Ei, El. fold gc' in Ei, El.
  assert (CF : conflictFree gc')
    by (apply colorPass_conflictFree, fresh_conflictFree, Fr).
  assert (SE : spillListExact gc')
    by (apply colorPass_spillListExact, fresh_spillListExact, Fr).
  assert (B' : forall i lr, lrs gc' !! i = Some lr -> 0 <= byteSize lr).
  { intros i lr' L'.
    destruct (lookup_lt_is_Some_2 (lrs gc) i) as [lr L];
      [rewrite <- El; eapply lookup_lt_Some; eauto|].
    destruct (colorPass_keeps (colorOrder gc) gc i lr L)
      as (lr2 & L2 & _ & Eb & _).
    fold (assignColors gc) in L2. fold gc' in L2.
    assert (lr2 = lr') by congruence. subst lr2. rewrite Eb. eauto. }
  destruct (createSpillLocations_disjoint granule (lrs gc')
              (getSpilledLiveRanges gc') 0 ∅ G B' empty_slotsDisjoint)
    as (off' & _ & SD). fold slots in SD.
  split; [exact Ei|]. split.
  - intros v1 v2 N IB. unfold storageOf.
    destruct (lrs gc' !! v1) as [l1|] eqn:L1; [|reflexivity].
    destruct (lrs gc' !! v2) as [l2|] eqn:L2;
      [|now destruct (isSpilled l1), (slots !! v1) as [[? ?]|],
                     (assignedGRF l1)].
    destruct (isSpilled l1), (isSpilled l2).
    + destruct (slots !! v1) as [[o s]|] eqn:S1; [|reflexivity].
      destruct (slots !! v2) as [[o' s']|] eqn:S2; [|reflexivity].
      simpl. exact (SD v1 v2 o s o' s' N S1 S2).
    + destruct (slots !! v1) as [[o s]|]; [|reflexivity].
      now destruct (assignedGRF l2).
    + destruct (assignedGRF l1); [|reflexivity].
      now destruct (slots !! v2) as [[o s]|].
    + destruct (assignedGRF l1) as [r1|] eqn:A1; [|reflexivity].
      destruct (assignedGRF l2) as [r2|] eqn:A2; [|reflexivity].
      simpl. exact (CF v1 v2 l1 l2 r1 r2 N L1 L2 IB A1 A2).
  - intros i Hin Hlt.
    destruct (colorPass_settled (colorOrder gc) gc i Hin
                (lookup_lt_is_Some_2 _ _ Hlt)) as (lr' & L' & St).
    fold (assignColors gc) in L'. fold gc' in L'.
    unfold storageOf. rewrite L'. unfold isSpilled.
    destruct (spilled lr') eqn:Sp.
    + assert (Hs : In i (getSpilledLiveRanges gc')) by (apply SE; eauto).
      destruct (createSpillLocations_dom granule (lrs gc')
                  (getSpilledLiveRanges gc') 0 ∅ i) as [[o s] Sl];
        [right; split; [exact Hs|eauto]|].
      fold slots in Sl. rewrite Sl. discriminate.
    + destruct St as [[r A]|St]; [|congruence]. rewrite A. discriminate.
Qed.

Lemma scenarioA_fresh : freshGraphColor scenarioA.
Proof. split; [repeat constructor|reflexivity]. Qed.

Lemma scenarioA_sizes i lr : lrs scenarioA !! i = Some lr -> 0 <= byteSize lr.
Proof.
  destruct i as [|[|[|i]]]; simpl; intros [= <-]; simpl; lia.
Qed.

Lemma interfering_ranges_disjoint_storage_witness :
  let gc' := assignColors scenarioA in
  let slots := createSpillLocations 32 (lrs gc') (getSpilledLiveRanges gc')
                                    0 ∅ in
  storageOverlap (storageOf gc' slots 0) (storageOf gc' slots 1) = false
  /\ storageOverlap (storageOf gc' slots 1) (storageOf gc' slots 2) = false
  /\ storageOf gc' slots 2 <> Unallocated.
Proof.
  destruct (interfering_ranges_disjoint_storage scenarioA 32 scenarioA_fresh)
    as (_ & A & B); [lia|exact scenarioA_sizes|].
  split; [|split].
  - apply A; [lia|]. vm_compute. reflexivity.
  - apply A; [lia|]. vm_compute. reflexivity.
  - apply B; [simpl; auto|simpl; lia].
Defined.

Example scenarioA_allocation :
  let gc' := assignColors scenarioA in
  let slots := createSpillLocations 32 (lrs gc') (getSpilledLiveRanges gc')
                                    0 ∅ in
  storageOf gc' slots 0 = InRegisters 0 1
  /\ storageOf gc' slots 1 = InRegisters 1 1
  /\ storageOf gc' slots 2 = InSpillSlot 0 32
  /\ getSpilledLiveRanges gc' = [2%nat]
  /\ requireSpillCode gc' = true.
Proof. vm_compute. repeat split; reflexivity. Qed.

Lemma requireSpillCode_true gc :
  requireSpillCode gc = true <-> getSpilledLiveRanges gc <> [].
Proof.
  unfold requireSpillCode, getSpilledLiveRanges.
  rewrite negb_true_iff, bool_decide_eq_false. reflexivity.
Qed.

Lemma requireSpillCode_false gc :
  requireSpillCode gc = false <-> spilledLRs gc = [].
Proof.
  unfold requireSpillCode.
  rewrite negb_false_iff, bool_decide_eq_true. reflexivity.
Qed.

(** C7. [requireSpillCode] is true exactly when the spilled list is not
    empty. For a pass on freshly created live ranges whose colouring order
    holds valid indices: the engine reports success exactly when every live
    range of the order ends with registers and without spill mark; a live
    range for which, at its turn, no colour of the budget is legal is a
    member of the spilled list; and if the order has no repetition, that
    live range still has no register when the pass ends (its turn is not
    taken again) and the spilled list has no repetition either. *)
Theorem spill_report_complete (gc : GraphColor) :
  (requireSpillCode gc = true <-> getSpilledLiveRanges gc <> []) /\
  (freshGraphColor gc ->
   Forall (fun i => (i < length (lrs gc))%nat) (colorOrder gc) ->
   let gc' := assignColors gc in
   (fst (regAlloc gc) = true <-> requireSpillCode gc' = false) /\
   (requireSpillCode gc' = false <->
    forall i, In i (colorOrder gc) ->
      exists lr r, lrs gc' !! i = Some lr /\ assignedGRF lr = Some r
                   /\ isSpilled lr = false) /\
   (forall pre i post lr,
      colorOrder gc = pre ++ i :: post ->
      lrs (colorPass pre gc) !! i = Some lr ->
      (forall r, 0 <= r < totalGRFRegCount gc ->
                 colorLegal (colorPass pre gc) i lr r = false) ->
      In i (getSpilledLiveRanges gc') /\
      (List.NoDup (colorOrder gc) ->
       exists lr', lrs gc' !! i = Some lr' /\ isSpilled lr' = true
                   /\ getPhyReg lr' = None)) /\
   (List.NoDup (colorOrder gc) -> List.NoDup (getSpilledLiveRanges gc'))).
Proof.
  split; [apply requireSpillCode_true|].
  intros Fr Val gc'.
  assert (SE : spillListExact gc')
    by (apply colorPass_spillListExact, fresh_spillListExact, Fr).
  destruct (colorPass_spilled_sublist (colorOrder gc) gc) as (s & Es & Sub).
  fold (assignColors gc) in Es. fold gc' in Es.
  rewrite (proj2 Fr) in Es. simpl in Es.
  split; [|split; [|split]].
  - unfold regAlloc. simpl. fold gc'. apply negb_true_iff.
  - rewrite requireSpillCode_false. split.
    + intros E i Hin.
      assert (Hlt : (i < length (lrs gc))%nat)
        by now apply (proj1 (List.Forall_forall _ _) Val).
      destruct (colorPass_settled (colorOrder gc) gc i Hin
                  (lookup_lt_is_Some_2 _ _ Hlt)) as (lr' & L' & St).
      fold (assignColors gc) in L'. fold gc' in L'.
      assert (Sp : spilled lr' = false).
      { apply not_true_is_false. intros T.
        assert (Hs : In i (spilledLRs gc')) by (apply SE; eauto).
        rewrite E in Hs. exact Hs. }
      destruct St as [[r A]|St]; [|congruence]. eauto.
    + intros All. rewrite Es. destruct s as [|x s']; [reflexivity|exfalso].
      assert (Hx : In x (colorOrder gc)).
      { apply list_elem_of_In. eapply sublist_subseteq; [exact Sub|].
        apply list_elem_of_In. now left. }
      destruct (All x Hx) as (lr & r & L & _ & Sp).
      assert (Hs : In x (spilledLRs gc')) by (rewrite Es; now left).
      apply SE in Hs as (lr2 & L2 & Sp2).
      unfold isSpilled in Sp. congruence.
  - intros pre i post lr Eo L NoLegal.
    set (g := colorPass pre gc) in *.
    assert (Et : totalGRFRegCount g = totalGRFRegCount gc)
      by apply (colorPass_frame pre gc).
    assert (F : findColor g i lr = None)
      by (apply findColor_none; rewrite Et; exact NoLegal).
    assert (Eg : gc' = colorPass post (assignColor g i)).
    { unfold gc', assignColors. rewrite Eo, colorPass_app. reflexivity. }
    assert (Ea : assignColor g i
                 = push_spilled i
                     (set_lrs (<[i := setSpilled true lr]> (lrs g)) g)).
    { unfold assignColor. now rewrite L, F. }
    split.
    + destruct (colorPass_spilled_sublist post (assignColor g i))
        as (s2 & Es2 & _).
      unfold getSpilledLiveRanges. rewrite Eg, Es2, Ea. simpl.
      rewrite !in_app_iff. left. right. now left.
    + intros ND. rewrite Eo in ND.
      apply NoDup_ListNoDup, NoDup_app in ND as (_ & Npre & Npost).
      apply NoDup_cons in Npost as [Npost _].
      assert (Hpre : ~ In i pre).
      { intros H. apply list_elem_of_In in H.
        apply (Npre i H). now left. }
      assert (Hpost : ~ In i post) by (now rewrite <- list_elem_of_In).
      assert (Lf : freshLiveRange lr).
      { unfold g in L. rewrite colorPass_untouched in L by assumption.
        apply (proj1 (List.Forall_forall _ _) (proj1 Fr)).
        apply list_elem_of_In. eapply list_elem_of_lookup_2; eauto. }
      exists (setSpilled true lr).
      rewrite Eg, colorPass_untouched, Ea by assumption. simpl.
      rewrite list_lookup_insert_eq by (eapply lookup_lt_Some; eauto).
      split; [reflexivity|]. split; [reflexivity|]. apply Lf.
  - intros ND. unfold getSpilledLiveRanges. rewrite Es.
    apply NoDup_ListNoDup. eapply sublist_NoDup; [|exact Sub].
    now apply NoDup_ListNoDup.
Qed.

Lemma spill_report_complete_witness :
  In 2%nat (getSpilledLiveRanges (assignColors scenarioA))
  /\ exists lr', lrs (assignColors scenarioA) !! 2%nat = Some lr'
                 /\ isSpilled lr' = true /\ getPhyReg lr' = None.
Proof.
  destruct (spill_report_complete scenarioA) as (_ & H).
  destruct (H scenarioA_fresh) as (_ & _ & T & _).
  { repeat constructor; simpl; lia. }
  destruct (T [0; 1]%nat 2%nat []
              (mkLiveRange 1 ∅ false (mkAssignedReg None 0)
                           BANK_CONFLICT_NONE false 32))
    as (A & B).
  - reflexivity.
  - reflexivity.
  - intros r Hr. simpl in Hr.
    assert (C : r = 0 \/ r = 1) by lia.
    destruct C as [-> | ->]; vm_compute; reflexivity.
  - split; [exact A|]. apply B. simpl. repeat constructor; simpl; lia.
Defined.

Lemma ordered_keys_unique dcls s1 s2 :
  orderedByEndThenStart dcls s1 -> orderedByEndThenStart dcls s2 ->
  map intervalKey s1 = map intervalKey s2.
Proof.
  intros [P1 S1] [P2 S2]. apply sorted_keys_unique.
  - now apply sorted_keys.
  - now apply sorted_keys.
  - apply Permutation_map. now rewrite <- P1, <- P2.
Qed.

Lemma ordered_unique dcls s1 s2 :
  List.NoDup (map intervalKey dcls) ->
  orderedByEndThenStart dcls s1 -> orderedByEndThenStart dcls s2 ->
  s1 = s2.
Proof.
  intros N O1 O2. apply (same_keys_same_list dcls); [exact N| | |].
  - intros x Hx. eapply Permutation_in; [|exact Hx].
    symmetry. apply O1.
  - intros x Hx. eapply Permutation_in; [|exact Hx].
    symmetry. apply O2.
  - now apply (ordered_keys_unique dcls).
Qed.

(** An interval pushed on a queue goes in front of those with its key. *)
Lemma pq_push_stable (k : Z * Z) x q :
  List.filter (fun d => bool_decide (intervalKey d = k)) (pq_push x q)
  = List.filter (fun d => bool_decide (intervalKey d = k)) (x :: q).
Proof.
  induction q as [|y q IH]; [reflexivity|]. simpl pq_push.
  destruct (criticalCmpForEndInterval x y) eqn:C; [|reflexivity].
  simpl in IH |- *. rewrite IH.
  destruct (bool_decide (intervalKey x = k)) eqn:Bx; [|reflexivity].
  destruct (bool_decide (intervalKey y = k)) eqn:By; [|reflexivity].
  apply bool_decide_eq_true in Bx, By.
  assert (L : interval_le x y)
    by (unfold interval_le; rewrite Bx, By; apply key_le_refl).
  apply criticalCmp_false in L. congruence.
Qed.

Lemma sortLiveIntervals_stable (k : Z * Z) dcls :
  List.filter (fun d => bool_decide (intervalKey d = k))
              (sortLiveIntervals dcls)
  = List.filter (fun d => bool_decide (intervalKey d = k)) dcls.
Proof.
  unfold sortLiveIntervals. induction dcls as [|d dcls IH]; [reflexivity|].
  simpl foldr. rewrite pq_push_stable. simpl. now rewrite IH.
Qed.




(** ** The spill-and-retry loop *)

Lemma descending_length (l : list nat) (c : nat) :
  StronglySorted (fun a b => (b < a)%nat) l ->
  Forall (fun n => (0 < n)%nat) l ->
  head l = Some c -> (length l <= c)%nat.
Proof.
  intros S. revert c. induction S as [|a l S IH F]; intros c P H;
    [discriminate|].
  simpl in H. injection H as ->. inversion P as [|? ? Pc Pl]; subst.
  destruct l as [|b l]; simpl; [lia|].
  specialize (IH b Pl eq_refl). simpl in IH.
  inversion F as [|? ? Hb _]; subst. lia.
Qed.

Section ColoringRegAllocFacts.

Variable Kernel : Type.
Variable buildGraphColor : Kernel -> GraphColor.
Variable buildFailSafe : Kernel -> GraphColor.
Variable insertSpillCode : Kernel -> list nat -> Kernel.

Local Abbreviation loop :=
  (retryLoop Kernel buildGraphColor buildFailSafe insertSpillCode).
Local Abbreviation Trace :=
  (LoopTrace Kernel buildGraphColor buildFailSafe insertSpillCode).
Local Abbreviation spilledAt := (spilledOf Kernel buildGraphColor).
Local Abbreviation kernelOf :=
  (kernelAt Kernel buildGraphColor insertSpillCode).
Local Abbreviation failSafe := (failSafeRA Kernel buildFailSafe).

Lemma failSafeRA_cases k :
  failSafe k = RA_SuccessFailSafe \/ failSafe k = RA_Fatal FailSafeInfeasible.
Proof. unfold failSafeRA. destruct (requireSpillCode _); auto. Qed.

Lemma retryLoop_S fuel cap iter prev k :
  loop (S fuel) cap iter prev k
  = if (cap <=? iter)%nat
    then Some (mkRARun (RA_Fatal IterationCapExceeded) iter [])
    else
      if requireSpillCode (assignColors (buildGraphColor k)) then
        if match prev with
           | Some p => (p <=? length (spilledAt k))%nat
           | None => false
           end
        then Some (mkRARun (failSafe k) (S iter) [length (spilledAt k)])
        else
          run ← loop fuel cap (S iter) (Some (length (spilledAt k)))
                  (insertSpillCode k (spilledAt k));
          Some (mkRARun (outcome run) (iterNo run)
                        (length (spilledAt k) :: spillCounts run))
      else Some (mkRARun RA_Success (S iter) [length (spilledAt k)]).
Proof. reflexivity. Qed.

(** More fuel does not change a result. *)
Lemma retryLoop_more_fuel fuel cap iter prev k run :
  loop fuel cap iter prev k = Some run ->
  loop (S fuel) cap iter prev k = Some run.
Proof.
  revert iter prev k run. induction fuel as [|fuel IH];
    intros iter prev k run H; [discriminate|].
  rewrite retryLoop_S in H. rewrite retryLoop_S.
  destruct (cap <=? iter)%nat; [exact H|].
  destruct (requireSpillCode _); [|exact H].
  destruct (match prev with Some p => _ | None => false end); [exact H|].
  destruct (loop fuel cap (S iter) _ _) as [run'|] eqn:E; [|discriminate].
  now rewrite (IH _ _ _ _ E).
Qed.

Lemma retryLoop_fuel_le fuel fuel' cap iter prev k run :
  (fuel <= fuel')%nat ->
  loop fuel cap iter prev k = Some run ->
  loop fuel' cap iter prev k = Some run.
Proof.
  induction 1 as [|fuel' L IH]; [tauto|].
  intros H. now apply retryLoop_more_fuel, IH.
Qed.

(** The loop returns once the fuel exceeds the iterations that are left,
    and its result is a trace. *)
Lemma retryLoop_trace cap fuel iter prev k :
  (iter <= cap)%nat -> (cap - iter < fuel)%nat ->
  exists run,
    loop fuel cap iter prev k = Some run
    /\ iterNo run = (iter + length (spillCounts run))%nat
    /\ Trace (cap - iter) prev k (spillCounts run) (outcome run).
Proof.
  revert iter prev k. induction fuel as [|fuel IH]; intros iter prev k Hi Hf;
    [lia|].
  rewrite retryLoop_S. destruct (Nat.leb_spec cap iter) as [Hc|Hc].
  - eexists. split; [reflexivity|]. simpl. split; [lia|].
    replace (cap - iter)%nat with 0%nat by lia. constructor.
  - replace (cap - iter)%nat with (S (cap - S iter)) by lia.
    destruct (requireSpillCode _) eqn:R.
    + assert (Ne : spilledAt k <> []).
      { intros E. unfold spilledOf, getSpilledLiveRanges in E.
        apply requireSpillCode_false in E. congruence. }
      destruct prev as [p|].
      * destruct (Nat.leb_spec p (length (spilledAt k))) as [Hp|Hp].
        -- eexists. split; [reflexivity|]. simpl. split; [lia|].
           now constructor.
        -- destruct (IH (S iter) (Some (length (spilledAt k)))
                        (insertSpillCode k (spilledAt k)))
             as (run & E & N & T); [lia..|].
           rewrite E. eexists. split; [reflexivity|]. simpl.
           split; [lia|]. constructor; [exact Ne| |exact T].
           intros q [= <-]. exact Hp.
      * destruct (IH (S iter) (Some (length (spilledAt k)))
                     (insertSpillCode k (spilledAt k)))
          as (run & E & N & T); [lia..|].
        rewrite E. eexists. split; [reflexivity|]. simpl.
        split; [lia|]. constructor; [exact Ne| |exact T].
        intros q [=].
    + apply requireSpillCode_false in R.
      change (spilledAt k = []) in R.
      eexists. split; [reflexivity|]. simpl. split; [lia|].
      rewrite R. now constructor.
Qed.

Lemma trace_length room prev k counts out :
  Trace room prev k counts out -> (length counts <= room)%nat.
Proof. induction 1; simpl; lia. Qed.

Lemma trace_counts room prev k counts out :
  Trace room prev k counts out ->
  forall i n, counts !! i = Some n -> n = length (spilledAt (kernelOf i k)).
Proof.
  induction 1 as [prev k|room prev k E|room p k Ne Hp
                  |room prev k counts out Ne Hp T IH]; intros i n L.
  - discriminate.
  - destruct i; [|discriminate]. injection L as <-. simpl. now rewrite E.
  - destruct i; [|discriminate]. now injection L as <-.
  - destruct i as [|i]; [now injection L as <-|].
    simpl in L. simpl. now apply IH.
Qed.

Lemma trace_nonempty_spills k : spilledAt k <> [] -> (0 < length (spilledAt k))%nat.
Proof. destruct (spilledAt k); [congruence|simpl; lia]. Qed.

Lemma trace_decreasing room prev k counts out :
  Trace room prev k counts out ->
  StronglySorted (fun a b => (b < a)%nat) (removelast counts)
  /\ Forall (fun n => (0 < n)%nat) (removelast counts)
  /\ (forall p, prev = Some p ->
                Forall (fun c => (c < p)%nat) (removelast counts)).
Proof.
  induction 1 as [prev k|room prev k E|room p k Ne Hp
                  |room prev k counts out Ne Hp T IH];
    try (simpl; repeat split; intros; constructor).
  destruct IH as (S & P & B).
  destruct counts as [|c counts]; [simpl; repeat split; intros; constructor|].
  change (removelast (length (spilledAt k) :: c :: counts))
    with (length (spilledAt k) :: removelast (c :: counts)).
  specialize (B _ eq_refl). split; [|split].
  - now constructor.
  - constructor; [now apply trace_nonempty_spills|exact P].
  - intros p Ep. specialize (Hp p Ep). constructor; [exact Hp|].
    eapply Forall_impl; [exact B|]. simpl. lia.
Qed.

Lemma trace_success_iff room prev k counts out :
  Trace room prev k counts out ->
  (out = RA_Success <-> last counts = Some 0%nat).
Proof.
  induction 1 as [prev k|room prev k E|room p k Ne Hp
                  |room prev k counts out Ne Hp T IH].
  - split; discriminate.
  - split; reflexivity.
  - pose proof (trace_nonempty_spills k Ne). simpl.
    destruct (failSafeRA_cases k) as [-> | ->];
      split; try discriminate; intros [= ?]; lia.
  - destruct counts as [|c counts].
    + inversion T; subst. pose proof (trace_nonempty_spills k Ne). simpl.
      split; [discriminate|intros [= ?]; lia].
    + exact IH.
Qed.

Lemma trace_cap_iff room prev k counts out :
  Trace room prev k counts out ->
  (out = RA_Fatal IterationCapExceeded <->
   length counts = room
   /\ Forall (fun n => (0 < n)%nat) counts
   /\ StronglySorted (fun a b => (b < a)%nat) counts
   /\ (forall p, prev = Some p -> Forall (fun c => (c < p)%nat) counts)).
Proof.
  induction 1 as [prev k|room prev k E|room p k Ne Hp
                  |room prev k counts out Ne Hp T IH].
  - split; [|reflexivity]. intros _. repeat split; intros; constructor.
  - split; [discriminate|]. intros (_ & P & _).
    inversion P as [|? ? H0 _]; subst. lia.
  - split.
    + destruct (failSafeRA_cases k) as [-> | ->]; discriminate.
    + intros (_ & _ & _ & B). specialize (B p eq_refl).
      inversion B as [|? ? Hlt _]; subst. lia.
  - rewrite IH. simpl. split.
    + intros (L & P & S & B). specialize (B _ eq_refl).
      split; [now rewrite L|]. split; [|split].
      * constructor; [now apply trace_nonempty_spills|exact P].
      * now constructor.
      * intros p Ep. specialize (Hp p Ep). constructor; [exact Hp|].
        eapply Forall_impl; [exact B|]. simpl. lia.
    + intros (L & P & S & B).
      inversion P as [|? ? _ P']; subst. inversion S as [|? ? S' F']; subst.
      split; [lia|]. split; [exact P'|]. split; [exact S'|].
      now intros p [= <-].
Qed.

Lemma trace_failsafe_iff room prev k counts out :
  Trace room prev k counts out ->
  (out = RA_SuccessFailSafe \/ out = RA_Fatal FailSafeInfeasible <->
   (exists l a b, counts = l ++ [a; b] /\ (a <= b)%nat /\ (0 < b)%nat)
   \/ (exists p b, prev = Some p /\ counts = [b]
                   /\ (p <= b)%nat /\ (0 < b)%nat)).
Proof.
  induction 1 as [prev k|room prev k Es|room p k Ne Hp
                  |room prev k counts out Ne Hp T IH].
  - split.
    + intros [?|?]; discriminate.
    + intros [(l & a & b & E & _)|(p & b & _ & E & _)];
        [destruct l; discriminate|discriminate].
  - split.
    + intros [?|?]; discriminate.
    + intros [(l & a & b & E & _ & P)|(p & b & _ & E & _ & P)].
      * destruct l as [|x [|y l]]; simpl in E; try discriminate.
      * injection E as <-. lia.
  - split; [|intros _; destruct (failSafeRA_cases k); auto].
    intros _. right. exists p, (length (spilledAt k)).
    repeat split; [exact Hp|now apply trace_nonempty_spills].
  - rewrite IH. split.
    + intros [(l & a & b & -> & L & P)|(p & b & [= <-] & -> & L & P)].
      * left. exists (length (spilledAt k) :: l), a, b. now repeat split.
      * left. exists [], (length (spilledAt k)), b. now repeat split.
    + intros [(l & a & b & E & L & P)|(p & b & Ep & E & L & P)].
      * destruct l as [|x l]; simpl in E.
        -- injection E as E1 E2. subst counts. right.
           exists (length (spilledAt k)), b.
           repeat split; [lia|assumption].
        -- injection E as _ E2. subst counts. left. exists l, a, b.
           now repeat split.
      * injection E as E1 E2. specialize (Hp p Ep). lia.
Qed.

Lemma trace_failsafe_outcome room prev k counts out :
  Trace room prev k counts out ->
  out = RA_SuccessFailSafe \/ out = RA_Fatal FailSafeInfeasible ->
  out = failSafe (kernelOf (length counts - 1) k).
Proof.
  induction 1 as [prev k|room prev k E|room p k Ne Hp
                  |room prev k counts out Ne Hp T IH]; intros F.
  - destruct F; discriminate.
  - destruct F; discriminate.
  - reflexivity.
  - destruct counts as [|c counts].
    + inversion T; subst. destruct F; discriminate.
    + rewrite (IH F). simpl. now rewrite Nat.sub_0_r.
Qed.

End ColoringRegAllocFacts.




(** * Further properties of the code *)

(** ** Clearing edges, block writes and the order of insertions *)

Lemma blockIndex_col I r col :
  wf_intf I -> useDenseMatrix I = true -> validId I r ->
  0 <= col < rowSize I ->
  Z.of_nat (blockIndex I r col) = r * rowSize I + col
  /\ r * rowSize I + col < rowSize I * maxId I.
Proof.
  intros W D [Hr0 Hr] Hc.
  pose proof (wf_maxId _ W) as Hm. pose proof (wf_rowSize _ W) as Hs.
  apply useDenseMatrix_spec in D as [_ Hfit]; [|assumption..].
  unfold is_unsigned, UINT_MAX in *.
  assert (Hlt : r * rowSize I + col < rowSize I * maxId I) by nia.
  split; [|exact Hlt].
  unfold blockIndex, wrap32.
  rewrite (Z.mod_small (r * rowSize I)) by nia.
  rewrite Z.mod_small by nia. rewrite Z2Nat.id; nia.
Qed.

Lemma blockIndex_col_inj I r col r' col' :
  wf_intf I -> useDenseMatrix I = true ->
  validId I r -> validId I r' ->
  0 <= col < rowSize I -> 0 <= col' < rowSize I ->
  blockIndex I r col = blockIndex I r' col' -> r = r' /\ col = col'.
Proof.
  intros W D Hr Hr' Hc Hc' E.
  destruct (blockIndex_col I r col W D Hr Hc) as (E1 & _).
  destruct (blockIndex_col I r' col' W D Hr' Hc') as (E2 & _).
  rewrite E in E1. rewrite E1 in E2.
  assert (r = r') by nia. subst r'. split; [reflexivity|lia].
Qed.

Lemma column_bounds I c :
  wf_intf I -> validId I c -> 0 <= c / BITS_DWORD < rowSize I.
Proof.
  intros W [Hc0 Hc]. pose proof (wf_cols _ W). unfold BITS_DWORD in *.
  split; [apply Z.div_pos; lia|]. apply Z.div_lt_upper_bound; lia.
Qed.

Lemma testbit_clear_mask (w v j : Z) :
  0 <= j < BITS_DWORD ->
  Z.testbit (Z.land w (wrap32 (Z.lnot (bitOf v)))) j
  = Z.testbit w j && negb (v mod BITS_DWORD =? j).
Proof.
  unfold BITS_DWORD. intros Hj. unfold wrap32.
  rewrite Z.land_spec, Z.mod_pow2_bits_low, Z.lnot_spec by lia.
  now rewrite testbit_bitOf.
Qed.

Lemma safeClear_useDenseMatrix v1 v2 I I' :
  safeClearInterference v1 v2 I = Some I' ->
  useDenseMatrix I' = useDenseMatrix I.
Proof.
  unfold safeClearInterference. intros H.
  destruct (useDenseMatrix I) eqn:E.
  - destruct (matrix I) as [m|]; simpl in H; [|discriminate].
    destruct (m !! _); simpl in H; [|discriminate].
    inversion H; subst. now rewrite useDenseMatrix_set_matrix.
  - destruct (sparseMatrix I !! _); simpl in H; [|discriminate].
    inversion H; subst. now rewrite useDenseMatrix_set_sparseMatrix.
Qed.

Lemma safeClear_total v1 v2 I :
  wf_intf I -> validId I v1 -> validId I v2 ->
  is_Some (safeClearInterference v1 v2 I).
Proof.
  intros W H1 H2. unfold safeClearInterference.
  destruct (useDenseMatrix I) eqn:D.
  - destruct (wf_dense _ W D) as (m & -> & Hlen). simpl.
    destruct (blockIndex_dense I v1 v2 W D H1 H2) as (E & _ & Hlt).
    destruct (lookup_lt_is_Some_2 m (blockIndex I v1 (v2 / BITS_DWORD)))
      as [w ->]; [lia|]. simpl. eauto.
  - pose proof (wf_sparse _ W D) as Hlen.
    destruct (lookup_lt_is_Some_2 (sparseMatrix I) (Z.to_nat v1)) as [s ->];
      [unfold validId in H1; lia|]. simpl. eauto.
Qed.

Lemma safeClear_stored v1 v2 I I' r c :
  wf_intf I -> validId I v1 -> validId I v2 -> validId I r -> validId I c ->
  safeClearInterference v1 v2 I = Some I' ->
  edgeStored I' r c = edgeStored I r c && negb ((r =? v1) && (c =? v2)).
Proof.
  intros W H1 H2 Hr Hc H.
  pose proof (safeClear_useDenseMatrix _ _ _ _ H) as U.
  unfold edgeStored. rewrite U. unfold safeClearInterference in H.
  destruct (useDenseMatrix I) eqn:D.
  - destruct (wf_dense _ W D) as (m & Em & Hlen). rewrite Em in H |- *.
    simpl in H. destruct (m !! blockIndex I v1 _) as [w|] eqn:Ew;
      simpl in H; [|discriminate].
    inversion H; subst I'. simpl.
    replace (blockIndex (set_matrix _ I) r (c / BITS_DWORD))
      with (blockIndex I r (c / BITS_DWORD)) by reflexivity.
    destruct (decide (blockIndex I v1 (v2 / BITS_DWORD)
                      = blockIndex I r (c / BITS_DWORD))) as [Ei|Ni].
    + destruct (blockIndex_inj _ _ _ _ _ W D H1 H2 Hr Hc Ei) as [-> Eq].
      rewrite <- Ei, list_lookup_insert_eq by (eapply lookup_lt_Some; eauto).
      rewrite Ew, testbit_clear_mask, Z.eqb_refl
        by (unfold BITS_DWORD; apply Z.mod_pos_bound; lia).
      simpl. f_equal. f_equal.
      destruct (Z.eqb_spec (v2 mod BITS_DWORD) (c mod BITS_DWORD)) as [Em'|Nm].
      * symmetry. apply Z.eqb_eq. symmetry. now apply split_column.
      * symmetry. apply Z.eqb_neq. congruence.
    + rewrite list_lookup_insert_ne by assumption.
      assert (Hn : (r =? v1) && (c =? v2) = false).
      { apply andb_false_iff.
        destruct (Z.eqb_spec r v1) as [->|]; [|now left].
        destruct (Z.eqb_spec c v2) as [->|]; [|now right].
        now contradiction Ni. }
      rewrite Hn. simpl.
      destruct (m !! blockIndex I r (c / BITS_DWORD)); simpl;
        now rewrite ?andb_true_r.
  - destruct (sparseMatrix I !! Z.to_nat v1) as [s|] eqn:Es;
      simpl in H; [|discriminate].
    inversion H; subst I'. simpl.
    destruct (Z.eqb_spec r v1) as [->|Nr].
    + rewrite list_lookup_insert_eq by (eapply lookup_lt_Some; eauto).
      rewrite Es. simpl.
      destruct (Z.eqb_spec c v2) as [->|Nc]; simpl.
      * rewrite andb_false_r. apply bool_decide_eq_false.
        rewrite elem_of_difference, elem_of_singleton. tauto.
      * rewrite andb_true_r. apply bool_decide_ext.
        rewrite elem_of_difference, elem_of_singleton. tauto.
    + rewrite list_lookup_insert_ne
        by (unfold validId in *; intros E; apply Nr; lia).
      simpl. destruct (sparseMatrix I !! Z.to_nat r); now rewrite ?andb_true_r.
Qed.

Lemma word_high_bits w n : is_unsigned w -> 32 <= n -> Z.testbit w n = false.
Proof.
  intros Hw Hn. rewrite <- (Z.mod_small w (2 ^ 32)) by exact Hw.
  apply Z.mod_pow2_bits_high. lia.
Qed.

Lemma clear_after_set_word w v :
  is_unsigned w -> Z.testbit w (v mod BITS_DWORD) = false ->
  Z.land (Z.lor w (bitOf v)) (wrap32 (Z.lnot (bitOf v))) = w.
Proof.
  intros Hw Hb. apply Z.bits_inj'. intros n Hn.
  destruct (Z.lt_ge_cases n 32) as [L|G].
  - rewrite testbit_clear_mask by (unfold BITS_DWORD; lia).
    rewrite Z.lor_spec, testbit_bitOf.
    destruct (Z.eqb_spec (v mod BITS_DWORD) n) as [<-|N]; simpl.
    + rewrite Hb. reflexivity.
    + now rewrite orb_false_r, andb_true_r.
  - rewrite Z.land_spec. unfold wrap32.
    rewrite Z.mod_pow2_bits_high by lia.
    rewrite andb_false_r. symmetry. now apply word_high_bits.
Qed.

Lemma set_after_clear_word w v :
  is_unsigned w -> Z.testbit w (v mod BITS_DWORD) = true ->
  Z.lor (Z.land w (wrap32 (Z.lnot (bitOf v)))) (bitOf v) = w.
Proof.
  intros Hw Hb. apply Z.bits_inj'. intros n Hn.
  rewrite Z.lor_spec, testbit_bitOf.
  destruct (Z.eqb_spec (v mod BITS_DWORD) n) as [<-|N].
  - rewrite Hb. apply orb_true_r.
  - rewrite orb_false_r, Z.land_spec.
    destruct (Z.lt_ge_cases n 32) as [L|G].
    + unfold wrap32. rewrite Z.mod_pow2_bits_low, Z.lnot_spec by lia.
      rewrite testbit_bitOf. apply Z.eqb_neq in N. rewrite N. apply andb_true_r.
    + unfold wrap32. rewrite Z.mod_pow2_bits_high by lia.
      rewrite andb_false_r. symmetry. now apply word_high_bits.
Qed.

(** X2. On an initialised graph [safeClearInterference v1 v2] succeeds for
    ids in range and removes exactly the bit of column [v2] in row [v1]:
    every other stored bit is as before, in the dense and in the sparse
    representation. *)
Theorem safeClearInterference_clears_one_bit (I : Interference) (v1 v2 : Z) :
  wf_intf I -> validId I v1 -> validId I v2 ->
  exists I',
    safeClearInterference v1 v2 I = Some I' /\ wf_intf I' /\
    edgeStored I' v1 v2 = false /\
    forall r c, validId I r -> validId I c ->
                edgeStored I' r c
                = edgeStored I r c && negb ((r =? v1) && (c =? v2)).
Proof.
  intros W H1 H2. destruct (safeClear_total v1 v2 I W H1 H2) as [I' E].
  exists I'. split; [exact E|]. split; [|split].
  - pose proof (safeClear_useDenseMatrix _ _ _ _ E) as U.
    unfold safeClearInterference in E.
    destruct (useDenseMatrix I) eqn:D.
    + destruct (wf_dense _ W D) as (m & Em & Hlen). rewrite Em in E.
      simpl in E. destruct (m !! _); simpl in E; [|discriminate].
      inversion E; subst I'.
      constructor; simpl; try apply W.
      intros _. eexists. split; [reflexivity|]. now rewrite length_insert.
    + pose proof (wf_sparse _ W D) as Hlen.
      destruct (sparseMatrix I !! _); simpl in E; [|discriminate].
      inversion E; subst I'.
      constructor; simpl; try apply W.
      intros _. now rewrite length_insert.
  - rewrite (safeClear_stored v1 v2 I I') by assumption.
    rewrite !Z.eqb_refl. apply andb_false_r.
  - intros r c Hr Hc. now apply safeClear_stored.
Qed.

Lemma safeClearInterference_clears_one_bit_witness :
  exists G I',
    buildEdges [(1, 3); (0, 2)] (init (newInterference 4 1 100)) = Some G
    /\ safeClearInterference 1 3 G = Some I'
    /\ edgeStored I' 1 3 = false.
Proof.
  assert (W : wf_intf (init (newInterference 4 1 100)))
    by (apply init_wf; unfold is_unsigned, BITS_DWORD; lia).
  assert (M : maxId (init (newInterference 4 1 100)) = 4)
    by apply (init_fields (newInterference 4 1 100)).
  destruct (buildEdges_total [(1, 3); (0, 2)] _ W) as [G EG].
  { repeat (apply List.Forall_cons;
              [split; unfold validId; rewrite M; simpl; lia|]).
    apply List.Forall_nil. }
  destruct (buildEdges_wf _ _ _ W EG) as [WG MG]. rewrite M in MG.
  destruct (safeClearInterference_clears_one_bit G 1 3 WG)
    as (I' & E & _ & S & _).
  - unfold validId. rewrite MG. lia.
  - unfold validId. rewrite MG. lia.
  - exists G, I'. repeat split; assumption.
Defined.

Lemma set_matrix_same I m : matrix I = Some m -> set_matrix m I = I.
Proof. destruct I; simpl; intros ->; reflexivity. Qed.

Lemma set_sparseMatrix_same I : set_sparseMatrix (sparseMatrix I) I = I.
Proof. now destruct I. Qed.

Lemma safeSet_dense v1 v2 I m w :
  useDenseMatrix I = true -> matrix I = Some m ->
  m !! blockIndex I v1 (v2 / BITS_DWORD) = Some w ->
  safeSetInterference v1 v2 I
  = Some (set_matrix (<[blockIndex I v1 (v2 / BITS_DWORD)
                        := Z.lor w (bitOf v2)]> m) I).
Proof. intros D Em Ew. unfold safeSetInterference. now rewrite D, Em; simpl; rewrite Ew. Qed.

Lemma safeClear_dense v1 v2 I m w :
  useDenseMatrix I = true -> matrix I = Some m ->
  m !! blockIndex I v1 (v2 / BITS_DWORD) = Some w ->
  safeClearInterference v1 v2 I
  = Some (set_matrix (<[blockIndex I v1 (v2 / BITS_DWORD)
                        := Z.land w (wrap32 (Z.lnot (bitOf v2)))]> m) I).
Proof. intros D Em Ew. unfold safeClearInterference. now rewrite D, Em; simpl; rewrite Ew. Qed.

Lemma safeSet_sparse v1 v2 I s :
  useDenseMatrix I = false -> sparseMatrix I !! Z.to_nat v1 = Some s ->
  safeSetInterference v1 v2 I
  = Some (set_sparseMatrix (<[Z.to_nat v1 := {[v2]} ∪ s]> (sparseMatrix I)) I).
Proof. intros D Es. unfold safeSetInterference. now rewrite D, Es. Qed.

Lemma safeClear_sparse v1 v2 I s :
  useDenseMatrix I = false -> sparseMatrix I !! Z.to_nat v1 = Some s ->
  safeClearInterference v1 v2 I
  = Some (set_sparseMatrix (<[Z.to_nat v1 := s ∖ {[v2]}]> (sparseMatrix I)) I).
Proof. intros D Es. unfold safeClearInterference. now rewrite D, Es. Qed.

Lemma safeSet_dense_again v1 v2 I m1 w :
  useDenseMatrix I = true ->
  m1 !! blockIndex I v1 (v2 / BITS_DWORD) = Some w ->
  safeSetInterference v1 v2 (set_matrix m1 I)
  = Some (set_matrix (<[blockIndex I v1 (v2 / BITS_DWORD)
                        := Z.lor w (bitOf v2)]> m1) I).
Proof.
  intros D Ew. now rewrite (safeSet_dense v1 v2 (set_matrix m1 I) m1 w).
Qed.

Lemma safeClear_dense_again v1 v2 I m1 w :
  useDenseMatrix I = true ->
  m1 !! blockIndex I v1 (v2 / BITS_DWORD) = Some w ->
  safeClearInterference v1 v2 (set_matrix m1 I)
  = Some (set_matrix (<[blockIndex I v1 (v2 / BITS_DWORD)
                        := Z.land w (wrap32 (Z.lnot (bitOf v2)))]> m1) I).
Proof.
  intros D Ew. now rewrite (safeClear_dense v1 v2 (set_matrix m1 I) m1 w).
Qed.

Lemma safeSet_sparse_again v1 v2 I sp s :
  useDenseMatrix I = false -> sp !! Z.to_nat v1 = Some s ->
  safeSetInterference v1 v2 (set_sparseMatrix sp I)
  = Some (set_sparseMatrix (<[Z.to_nat v1 := {[v2]} ∪ s]> sp) I).
Proof.
  intros D Es. now rewrite (safeSet_sparse v1 v2 (set_sparseMatrix sp I) s).
Qed.

Lemma safeClear_sparse_again v1 v2 I sp s :
  useDenseMatrix I = false -> sp !! Z.to_nat v1 = Some s ->
  safeClearInterference v1 v2 (set_sparseMatrix sp I)
  = Some (set_sparseMatrix (<[Z.to_nat v1 := s ∖ {[v2]}]> sp) I).
Proof.
  intros D Es. now rewrite (safeClear_sparse v1 v2 (set_sparseMatrix sp I) s).
Qed.

(** X3. Setting and clearing an edge are inverse to each other on the whole
    state: on an initialised graph whose words are 32-bit values, setting an
    absent edge and clearing it again gives back the very same graph, and
    so does clearing a present edge and setting it again. *)
Theorem safeSet_safeClear_round_trip (I : Interference) (v1 v2 : Z) :
  wf_intf I -> wordsInRange I -> validId I v1 -> validId I v2 ->
  (edgeStored I v1 v2 = false ->
   safeSetInterference v1 v2 I ≫= safeClearInterference v1 v2 = Some I) /\
  (edgeStored I v1 v2 = true ->
   safeClearInterference v1 v2 I ≫= safeSetInterference v1 v2 = Some I).
Proof.
  intros W R H1 H2. unfold edgeStored.
  destruct (useDenseMatrix I) eqn:D.
  - destruct (wf_dense _ W D) as (m & Em & Hlen). rewrite Em. simpl.
    destruct (blockIndex_dense I v1 v2 W D H1 H2) as (E & _ & Hlt).
    destruct (lookup_lt_is_Some_2 m (blockIndex I v1 (v2 / BITS_DWORD)))
      as [w Ew]; [lia|].
    pose proof (lookup_lt_Some _ _ _ Ew) as Li.
    assert (Hw : is_unsigned w).
    { apply (proj1 (List.Forall_forall _ _) (R m Em)).
      apply list_elem_of_In. eapply list_elem_of_lookup_2; eauto. }
    rewrite Ew.
    rewrite (safeSet_dense v1 v2 I m w D Em Ew).
    rewrite (safeClear_dense v1 v2 I m w D Em Ew). simpl.
    split; intros Hb.
    + rewrite (safeClear_dense_again v1 v2 I _ _ D
                 (list_lookup_insert_eq _ _ _ Li)).
      rewrite list_insert_insert_eq.
      rewrite clear_after_set_word, list_insert_id by assumption.
      f_equal. now apply set_matrix_same.
    + rewrite (safeSet_dense_again v1 v2 I _ _ D
                 (list_lookup_insert_eq _ _ _ Li)).
      rewrite list_insert_insert_eq.
      rewrite set_after_clear_word, list_insert_id by assumption.
      f_equal. now apply set_matrix_same.
  - pose proof (wf_sparse _ W D) as Hlen.
    destruct (lookup_lt_is_Some_2 (sparseMatrix I) (Z.to_nat v1)) as [s Es];
      [unfold validId in H1; lia|].
    pose proof (lookup_lt_Some _ _ _ Es) as Li.
    rewrite Es.
    rewrite (safeSet_sparse v1 v2 I s D Es).
    rewrite (safeClear_sparse v1 v2 I s D Es). simpl.
    split; intros Hb.
    + apply bool_decide_eq_false in Hb.
      rewrite (safeClear_sparse_again v1 v2 I _ _ D
                 (list_lookup_insert_eq _ _ _ Li)).
      rewrite list_insert_insert_eq.
      replace (({[v2]} ∪ s) ∖ {[v2]}) with s.
      * rewrite list_insert_id by assumption. f_equal.
        apply set_sparseMatrix_same.
      * apply set_eq. intros x.
        rewrite elem_of_difference, elem_of_union, elem_of_singleton.
        split; [|tauto]. intros Hx. split; [tauto|]. congruence.
    + apply bool_decide_eq_true in Hb.
      rewrite (safeSet_sparse_again v1 v2 I _ _ D
                 (list_lookup_insert_eq _ _ _ Li)).
      rewrite list_insert_insert_eq.
      replace ({[v2]} ∪ s ∖ {[v2]}) with s.
      * rewrite list_insert_id by assumption. f_equal.
        apply set_sparseMatrix_same.
      * apply set_eq. intros x.
        rewrite elem_of_union, elem_of_difference, elem_of_singleton.
        split; [|intros [->|[? _]]; assumption].
        intros Hx. destruct (decide (x = v2)); tauto.
Qed.

Lemma init_wordsInRange n rs lim : wordsInRange (init (newInterference n rs lim)).
Proof.
  intros m. unfold init. destruct (useDenseMatrix _); simpl; [|discriminate].
  intros [= <-]. apply List.Forall_forall. intros x Hx.
  apply list_elem_of_In, elem_of_replicate in Hx as [-> _].
  unfold is_unsigned. lia.
Qed.

Lemma safeSet_safeClear_round_trip_witness :
  safeSetInterference 1 35 (init (newInterference 40 2 100))
    ≫= safeClearInterference 1 35
  = Some (init (newInterference 40 2 100))
  /\ safeSetInterference 1 35 (init (newInterference 40 2 8))
       ≫= safeClearInterference 1 35
     = Some (init (newInterference 40 2 8)).
Proof.
  split.
  - apply (safeSet_safeClear_round_trip (init (newInterference 40 2 100)) 1 35).
    + apply init_wf; unfold is_unsigned, BITS_DWORD; lia.
    + apply init_wordsInRange.
    + unfold validId. rewrite (proj1 (init_fields _)). simpl. lia.
    + unfold validId. rewrite (proj1 (init_fields _)). simpl. lia.
    + apply init_no_edge.
  - apply (safeSet_safeClear_round_trip (init (newInterference 40 2 8)) 1 35).
    + apply init_wf; unfold is_unsigned, BITS_DWORD; lia.
    + apply init_wordsInRange.
    + unfold validId. rewrite (proj1 (init_fields _)). simpl. lia.
    + unfold validId. rewrite (proj1 (init_fields _)). simpl. lia.
    + apply init_no_edge.
Defined.

Lemma land_pow2_eqb (a i : Z) :
  0 <= i -> (Z.land a (2 ^ i) =? 0) = negb (Z.testbit a i).
Proof.
  intros Hi. destruct (Z.testbit a i) eqn:T; simpl.
  - apply Z.eqb_neq. intros E.
    assert (F : Z.testbit (Z.land a (2 ^ i)) i = false)
      by (rewrite E; apply Z.bits_0).
    rewrite Z.land_spec, T, Z.pow2_bits_true in F by lia. discriminate.
  - apply Z.eqb_eq. apply Z.bits_inj'. intros n Hn.
    rewrite Z.land_spec, Z.bits_0, Z.pow2_bits_eqb by lia.
    destruct (Z.eqb_spec i n) as [<-|N]; [now rewrite T|apply andb_false_r].
Qed.

Lemma block_bit_test block i :
  0 <= i < BITS_DWORD ->
  negb (Z.land block (wrap32 (Z.shiftl 1 i)) =? 0) = Z.testbit block i.
Proof.
  unfold BITS_DWORD. intros Hi. unfold wrap32. rewrite Z.shiftl_1_l.
  rewrite Z.mod_small by (split; [apply Z.pow_nonneg; lia|
                                  apply Z.pow_lt_mono_r; lia]).
  rewrite land_pow2_eqb by lia. apply negb_involutive.
Qed.

Lemma setBlockBits_elem col block idxs s x :
  x ∈ setBlockBits col block idxs s <->
  x ∈ s \/ exists i, In i idxs
                     /\ negb (Z.land block (wrap32 (Z.shiftl 1 i)) =? 0) = true
                     /\ x = wrap32 (wrap32 (col * BITS_DWORD) + i).
Proof.
  revert s. induction idxs as [|j idxs IH]; intros s; simpl.
  - split; [auto|]. intros [H|(i & [] & _)]. exact H.
  - rewrite IH. destruct (negb _) eqn:B.
    + rewrite elem_of_union, elem_of_singleton. split.
      * intros [[->|H]|(i & Hi & Hb & ->)]; eauto 6.
      * intros [H|(i & [->|Hi] & Hb & ->)]; eauto 6.
    + split.
      * intros [H|(i & Hi & Hb & ->)]; eauto 6.
      * intros [H|(i & [->|Hi] & Hb & ->)]; eauto 6. congruence.
Qed.

Lemma setBlockBits_column col block s c :
  0 <= col -> col * BITS_DWORD + BITS_DWORD <= 2 ^ 32 -> 0 <= c ->
  c ∈ setBlockBits col block (seqZ 0 BITS_DWORD) s <->
  c ∈ s \/ (c / BITS_DWORD = col /\ Z.testbit block (c mod BITS_DWORD) = true).
Proof.
  intros Hc Hfit Hc0. rewrite setBlockBits_elem.
  assert (Col : forall i, 0 <= i < BITS_DWORD ->
                  wrap32 (wrap32 (col * BITS_DWORD) + i) = col * BITS_DWORD + i).
  { intros i Hi. unfold wrap32, BITS_DWORD in *.
    rewrite (Z.mod_small (col * 32)) by lia. apply Z.mod_small. lia. }
  split; (intros [H|H]; [now left|right]).
  - destruct H as (i & Hi & Hb & ->).
    apply list_elem_of_In, elem_of_seqZ in Hi.
    rewrite block_bit_test in Hb by lia. rewrite Col by lia.
    unfold BITS_DWORD in *.
    rewrite Z.add_comm, Z.div_add, Z.mod_add, Z.div_small, Z.mod_small by lia.
    split; [lia|exact Hb].
  - destruct H as [<- Hb].
    assert (Hm : 0 <= c mod BITS_DWORD < BITS_DWORD)
      by (unfold BITS_DWORD; apply Z.mod_pos_bound; lia).
    exists (c mod BITS_DWORD). split; [|split].
    + apply list_elem_of_In, elem_of_seqZ. lia.
    + now rewrite block_bit_test.
    + rewrite Col by assumption. unfold BITS_DWORD.
      rewrite (Z.div_mod c 32) at 1 by lia. lia.
Qed.

(** X4. [setBlockInterferencesOneWay v1 col block] stores the same edges in
    both representations: on an initialised graph it succeeds and adds to
    row [v1] exactly the columns [c] of the 32-column block [col] whose bit
    [c mod 32] is set in [block]; every other bit is unchanged. In the dense
    representation the word read back by [getInterferenceBlk] is the old
    word or-ed with [block]. *)
Theorem setBlockInterferencesOneWay_stored (I : Interference)
    (v1 col block : Z) :
  wf_intf I -> validId I v1 -> 0 <= col < rowSize I ->
  col * BITS_DWORD + BITS_DWORD <= 2 ^ 32 ->
  exists I',
    setBlockInterferencesOneWay v1 col block I = Some I' /\
    (forall r c, validId I r -> validId I c ->
       edgeStored I' r c
       = edgeStored I r c
         || ((r =? v1) && (c / BITS_DWORD =? col)
             && Z.testbit block (c mod BITS_DWORD))) /\
    (useDenseMatrix I = true ->
     exists w, getInterferenceBlk (v1 * rowSize I + col) I = Some w
               /\ getInterferenceBlk (v1 * rowSize I + col) I'
                  = Some (Z.lor w block)).
Proof.
  intros W H1 Hcol Hfit. unfold setBlockInterferencesOneWay, getInterferenceBlk.
  destruct (useDenseMatrix I) eqn:D.
  - destruct (wf_dense _ W D) as (m & Em & Hlen). rewrite Em. simpl.
    destruct (blockIndex_col I v1 col W D H1 Hcol) as (E & Hlt).
    destruct (lookup_lt_is_Some_2 m (blockIndex I v1 col)) as [w Ew]; [lia|].
    pose proof (lookup_lt_Some _ _ _ Ew) as Li.
    rewrite Ew. simpl. eexists. split; [reflexivity|]. split.
    + intros r c Hr Hc. unfold edgeStored.
      rewrite useDenseMatrix_set_matrix, D, Em. simpl.
      replace (blockIndex (set_matrix _ I) r (c / BITS_DWORD))
        with (blockIndex I r (c / BITS_DWORD)) by reflexivity.
      pose proof (column_bounds I c W Hc) as Bc.
      destruct (decide (blockIndex I v1 col
                        = blockIndex I r (c / BITS_DWORD))) as [Ei|Ni].
      * destruct (blockIndex_col_inj _ _ _ _ _ W D H1 Hr Hcol Bc Ei)
          as [<- <-].
        rewrite list_lookup_insert_eq, Ew by assumption.
        now rewrite Z.lor_spec, !Z.eqb_refl.
      * rewrite list_lookup_insert_ne by assumption.
        assert (Hn : (r =? v1) && (c / BITS_DWORD =? col) = false).
        { apply andb_false_iff.
          destruct (Z.eqb_spec r v1) as [->|]; [|now left].
          destruct (Z.eqb_spec (c / BITS_DWORD) col) as [<-|]; [|now right].
          now contradiction Ni. }
        rewrite Hn. simpl. now rewrite orb_false_r.
    + intros _. exists w.
      rewrite useDenseMatrix_set_matrix, D. simpl.
      rewrite <- E, Nat2Z.id, list_lookup_insert_eq by assumption.
      now split.
  - pose proof (wf_sparse _ W D) as Hlen.
    destruct (lookup_lt_is_Some_2 (sparseMatrix I) (Z.to_nat v1)) as [s Es];
      [unfold validId in H1; lia|].
    pose proof (lookup_lt_Some _ _ _ Es) as Li.
    rewrite Es. cbn [mbind option_bind]. eexists. split; [reflexivity|].
    split; [|discriminate].
    intros r c Hr Hc. unfold edgeStored.
    rewrite useDenseMatrix_set_sparseMatrix, D.
    cbn [sparseMatrix set_sparseMatrix].
    destruct (Z.eqb_spec r v1) as [->|Nr].
    + rewrite list_lookup_insert_eq, Es by assumption.
      apply eq_true_iff_eq. cbn [andb].
      rewrite bool_decide_eq_true, orb_true_iff, andb_true_iff,
        bool_decide_eq_true, Z.eqb_eq.
      apply setBlockBits_column; [lia|assumption|unfold validId in Hc; lia].
    + rewrite list_lookup_insert_ne
        by (unfold validId in *; intros E; apply Nr; lia).
      cbn [andb]. now rewrite orb_false_r.
Qed.

Lemma setBlockInterferencesOneWay_stored_witness :
  exists I',
    setBlockInterferencesOneWay 1 1 5 (init (newInterference 40 2 8))
    = Some I'
    /\ edgeStored I' 1 34 = true /\ edgeStored I' 1 33 = false.
Proof.
  destruct (setBlockInterferencesOneWay_stored
              (init (newInterference 40 2 8)) 1 1 5) as (I' & E & S & _).
  - apply init_wf; unfold is_unsigned, BITS_DWORD; lia.
  - unfold validId. rewrite (proj1 (init_fields _)). simpl. lia.
  - rewrite (proj2 (init_fields _)). simpl. lia.
  - unfold BITS_DWORD. lia.
  - exists I'. split; [exact E|].
    assert (V : forall v, 0 <= v < 40 ->
                  validId (init (newInterference 40 2 8)) v)
      by (intros v Hv; unfold validId; now rewrite (proj1 (init_fields _))).
    split.
    + rewrite S by (apply V; lia). rewrite init_no_edge. reflexivity.
    + rewrite S by (apply V; lia). rewrite init_no_edge. reflexivity.
Defined.

Lemma safeSet_dense_gen v1 v2 I m1 :
  useDenseMatrix I = true ->
  safeSetInterference v1 v2 (set_matrix m1 I)
  = w ← m1 !! blockIndex I v1 (v2 / BITS_DWORD);
    Some (set_matrix (<[blockIndex I v1 (v2 / BITS_DWORD)
                        := Z.lor w (bitOf v2)]> m1) I).
Proof.
  intros D. unfold safeSetInterference.
  now rewrite useDenseMatrix_set_matrix, D.
Qed.

Lemma safeSet_sparse_gen v1 v2 I sp :
  useDenseMatrix I = false ->
  safeSetInterference v1 v2 (set_sparseMatrix sp I)
  = s ← sp !! Z.to_nat v1;
    Some (set_sparseMatrix (<[Z.to_nat v1 := {[v2]} ∪ s]> sp) I).
Proof.
  intros D. unfold safeSetInterference.
  now rewrite useDenseMatrix_set_sparseMatrix, D.
Qed.

Lemma list_lookup_insert_keeps_None {A} (l : list A) i j x :
  l !! i = None -> <[j := x]> l !! i = None.
Proof.
  intros H. apply lookup_ge_None. rewrite length_insert.
  now apply lookup_ge_None.
Qed.

Lemma safeSet_comm a b c d I :
  safeSetInterference a b I ≫= safeSetInterference c d
  = safeSetInterference c d I ≫= safeSetInterference a b.
Proof.
  destruct (useDenseMatrix I) eqn:D.
  - destruct (matrix I) as [m|] eqn:Em.
    + rewrite <- (set_matrix_same I m Em).
      rewrite !(safeSet_dense_gen _ _ I m D).
      set (i1 := blockIndex I a (b / BITS_DWORD)).
      set (i2 := blockIndex I c (d / BITS_DWORD)).
      destruct (m !! i1) as [w1|] eqn:E1, (m !! i2) as [w2|] eqn:E2; simpl;
        rewrite ?(safeSet_dense_gen _ _ I _ D); fold i1 i2;
        rewrite ?(list_lookup_insert_keeps_None m _ _ _ E1),
                ?(list_lookup_insert_keeps_None m _ _ _ E2); try reflexivity.
      pose proof (lookup_lt_Some _ _ _ E1) as L1.
      pose proof (lookup_lt_Some _ _ _ E2) as L2.
      destruct (decide (i1 = i2)) as [Ei|Ni].
      * rewrite <- Ei in *. assert (w2 = w1) by congruence. subst w2.
        rewrite !list_lookup_insert_eq by assumption. simpl.
        rewrite !list_insert_insert_eq. do 3 f_equal.
        rewrite <- !Z.lor_assoc. f_equal. apply Z.lor_comm.
      * rewrite !list_lookup_insert_ne by congruence.
        rewrite E1, E2. simpl. do 2 f_equal.
        now apply list_insert_insert_ne.
    + unfold safeSetInterference. now rewrite D, Em.
  - rewrite <- (set_sparseMatrix_same I).
    rewrite !(safeSet_sparse_gen _ _ I _ D).
    set (sp := sparseMatrix I).
    destruct (sp !! Z.to_nat a) as [s1|] eqn:E1,
             (sp !! Z.to_nat c) as [s2|] eqn:E2; simpl;
      rewrite ?(safeSet_sparse_gen _ _ I _ D);
      rewrite ?(list_lookup_insert_keeps_None sp _ _ _ E1),
              ?(list_lookup_insert_keeps_None sp _ _ _ E2); try reflexivity.
    pose proof (lookup_lt_Some _ _ _ E1) as L1.
    pose proof (lookup_lt_Some _ _ _ E2) as L2.
    destruct (decide (Z.to_nat a = Z.to_nat c)) as [Ei|Ni].
    + rewrite <- Ei in *. assert (s2 = s1) by congruence. subst s2.
      rewrite !list_lookup_insert_eq by assumption. simpl.
      rewrite !list_insert_insert_eq. do 3 f_equal.
      apply set_eq. intros x. rewrite !elem_of_union. tauto.
    + rewrite !list_lookup_insert_ne by congruence.
      rewrite E1, E2. simpl. do 2 f_equal.
      now apply list_insert_insert_ne.
Qed.

Lemma checkAndSet_comm a b c d I :
  checkAndSetIntf a b I ≫= checkAndSetIntf c d
  = checkAndSetIntf c d I ≫= checkAndSetIntf a b.
Proof.
  destruct (Z.eq_dec a b) as [->|Nab], (Z.eq_dec c d) as [->|Ncd].
  - rewrite !checkAndSet_self. simpl. now rewrite !checkAndSet_self.
  - rewrite checkAndSet_self. simpl.
    destruct (checkAndSetIntf c d I) as [I'|]; simpl; [|reflexivity].
    now rewrite checkAndSet_self.
  - rewrite checkAndSet_self. simpl.
    destruct (checkAndSetIntf a b I) as [I'|]; simpl; [|reflexivity].
    now rewrite checkAndSet_self.
  - rewrite (checkAndSet_as_safeSet a b I), (checkAndSet_as_safeSet c d I)
      by assumption.
    transitivity (safeSetInterference (Z.min a b) (Z.max a b) I
                  ≫= safeSetInterference (Z.min c d) (Z.max c d)).
    + destruct (safeSetInterference _ _ I); simpl; [|reflexivity].
      now apply checkAndSet_as_safeSet.
    + rewrite safeSet_comm.
      destruct (safeSetInterference (Z.min c d) _ I); simpl; [|reflexivity].
      symmetry. now apply checkAndSet_as_safeSet.
Qed.

Lemma buildEdges_perm es es' :
  Permutation es es' -> forall I, buildEdges es I = buildEdges es' I.
Proof.
  induction 1 as [|[a b] l l' P IH|[a b] [c d] l|l1 l2 l3 P1 IH1 P2 IH2];
    intros I; simpl.
  - reflexivity.
  - destruct (checkAndSetIntf a b I); simpl; [apply IH|reflexivity].
  - pose proof (checkAndSet_comm a b c d I) as C.
    destruct (checkAndSetIntf a b I) as [I1|] eqn:E1,
             (checkAndSetIntf c d I) as [I2|] eqn:E2; simpl in *.
    + destruct (checkAndSetIntf c d I1), (checkAndSetIntf a b I2);
        simpl; congruence.
    + rewrite C. reflexivity.
    + rewrite <- C. reflexivity.
    + reflexivity.
  - now rewrite IH1.
Qed.

(** X5. The order of edge insertions does not matter: two calls of
    [checkAndSetIntf] commute, including their failure on an index outside
    the graph, so two insertion sequences that are permutations of one
    another build the same graph, and repeating an edge in the sequence
    changes nothing. *)
Theorem edge_insertion_order_irrelevant :
  (forall a b c d I,
     checkAndSetIntf a b I ≫= checkAndSetIntf c d
     = checkAndSetIntf c d I ≫= checkAndSetIntf a b) /\
  (forall es es' I, Permutation es es' -> buildEdges es I = buildEdges es' I) /\
  (forall e es I, In e es -> buildEdges (e :: es) I = buildEdges es I).
Proof.
  split; [exact checkAndSet_comm|]. split.
  - intros es es' I P. now apply buildEdges_perm.
  - intros e es I Hin. apply in_split in Hin as (l1 & l2 & ->).
    rewrite (buildEdges_perm (e :: l1 ++ e :: l2) (e :: e :: l1 ++ l2)).
    + rewrite (buildEdges_perm (l1 ++ e :: l2) (e :: l1 ++ l2))
        by (symmetry; apply Permutation_middle).
      destruct e as [a b]. simpl.
      destruct (checkAndSetIntf a b I) as [I1|] eqn:E; simpl; [|reflexivity].
      now rewrite (checkAndSet_idem _ _ _ _ E).
    + constructor. symmetry. apply Permutation_middle.
Qed.

Lemma edge_insertion_order_irrelevant_witness :
  buildEdges [(3, 1); (0, 2); (1, 3)] (init (newInterference 4 1 100))
  = buildEdges [(0, 2); (1, 3)] (init (newInterference 4 1 100)).
Proof.
  destruct edge_insertion_order_irrelevant as (_ & P & R).
  rewrite (P [(3, 1); (0, 2); (1, 3)] [(0, 2); (3, 1); (1, 3)])
    by apply perm_swap.
  rewrite (P [(0, 2); (3, 1); (1, 3)] [(0, 2); (1, 3); (3, 1)])
    by (constructor; apply perm_swap).
  reflexivity.
Defined.

(** X6. [init] can be run again without harm to the shape of the graph, but
    with different effect on its content: running it twice is the same as
    running it once; in the dense representation it always leaves a graph
    without any edge; in the sparse representation, on a graph that already
    has its [maxId] rows, it changes nothing, so the edges stay. *)
Theorem init_again (I : Interference) :
  init (init I) = init I /\
  (useDenseMatrix I = true -> forall r c, edgeStored (init I) r c = false) /\
  (useDenseMatrix I = false ->
   Z.of_nat (length (sparseMatrix I)) = maxId I -> init I = I).
Proof.
  split; [|split].
  - unfold init at 1. rewrite init_useDenseMatrix.
    unfold init. destruct (useDenseMatrix I); simpl; [reflexivity|].
    unfold set_sparseMatrix. simpl. now rewrite resize_idemp.
  - intros D r c. unfold edgeStored. rewrite init_useDenseMatrix, D.
    unfold init. rewrite D. simpl.
    destruct (replicate _ 0 !! _) as [w|] eqn:E; [|reflexivity].
    apply lookup_replicate in E as [-> _]. apply Z.bits_0.
  - intros D L. unfold init. rewrite D.
    rewrite <- L, Nat2Z.id, resize_all. apply set_sparseMatrix_same.
Qed.

Lemma init_again_witness :
  exists G, checkAndSetIntf 1 3 (init (newInterference 4 1 2)) = Some G
            /\ init G = G /\ edgeStored (init G) 1 3 = true.
Proof.
  assert (W0 : wf_intf (init (newInterference 4 1 2)))
    by (apply init_wf; unfold is_unsigned, BITS_DWORD; lia).
  destruct (checkAndSet_total 1 3 _ W0) as [G E];
    try (unfold validId; rewrite (proj1 (init_fields _)); simpl; lia).
  exists G. split; [exact E|].
  assert (W : wf_intf G) by (eapply checkAndSet_wf; eauto).
  assert (D : useDenseMatrix G = false).
  { unfold checkAndSetIntf in E. simpl in E.
    now rewrite (safeSet_useDenseMatrix _ _ _ _ E). }
  destruct (init_again G) as (_ & _ & K).
  assert (Eq : init G = G) by (apply K; [exact D|exact (wf_sparse _ W D)]).
  split; [exact Eq|]. rewrite Eq.
  rewrite (checkAndSet_stored 1 3 _ G 1 3 W0) by
    (exact E || (unfold validId; rewrite (proj1 (init_fields _)); simpl; lia)).
  apply orb_true_iff. right. reflexivity.
Defined.

(** ** Alignment bookkeeping of [GlobalRA] *)

Section CopyAlignmentFacts.

Variable Any : Z.

Lemma allocVar_old vars d j x :
  vars !! j = Some x -> allocVar Any vars d !! j = Some x.
Proof.
  intros L. unfold allocVar. destruct (Nat.leb_spec (length vars) d); [|exact L].
  pose proof (lookup_lt_Some _ _ _ L). rewrite lookup_resize by lia. exact L.
Qed.

Lemma allocVar_size vars d :
  length (allocVar Any vars d) = Nat.max (length vars) (S d).
Proof.
  unfold allocVar. destruct (Nat.leb_spec (length vars) d).
  - rewrite length_resize. lia.
  - lia.
Qed.

Lemma allocVar_new vars d j :
  (length vars <= j <= d)%nat ->
  allocVar Any vars d !! j = Some (defaultValues Any).
Proof.
  intros H. unfold allocVar. destruct (Nat.leb_spec (length vars) d); [|lia].
  apply lookup_resize_new; lia.
Qed.

Lemma setEvenAligned_same vars d e :
  setEvenAligned Any vars d e !! d
  = Some (mkRAVarInfo (currentSubRegAlign Any vars d) e).
Proof.
  unfold setEvenAligned. destruct (allocVar_lookup Any vars d) as (info & E & S).
  rewrite E, list_lookup_insert_eq by (eapply lookup_lt_Some; eauto).
  now rewrite S.
Qed.

Lemma setEvenAligned_other vars d e j :
  j <> d -> setEvenAligned Any vars d e !! j = allocVar Any vars d !! j.
Proof.
  intros N. unfold setEvenAligned.
  destruct (allocVar Any vars d !! d); [|reflexivity].
  now rewrite list_lookup_insert_ne by congruence.
Qed.

Lemma setSubRegAlign_result vars d a vars' :
  setSubRegAlign Any vars d a = Ok vars' ->
  (forall j, j <> d -> vars' !! j = allocVar Any vars d !! j) /\
  exists info r,
    allocVar Any vars d !! d = Some info
    /\ vars' !! d = Some (mkRAVarInfo r (isEvenAlign info))
    /\ (r = subAlign info \/ r = a).
Proof.
  intros H. destruct (setSubRegAlign_cases Any vars d a) as (info & E & S & C).
  rewrite C in H. clear C.
  destruct (negb _); [discriminate|].
  destruct (_ >? _).
  - destruct (_ =? 0); [|discriminate]. inversion H; subst vars'.
    split; [reflexivity|]. exists info, (subAlign info).
    split; [exact E|]. split; [|now left]. rewrite E. now destruct info.
  - destruct (_ =? 0); [|discriminate]. inversion H; subst vars'.
    split; [intros j N; now rewrite list_lookup_insert_ne by congruence|].
    exists info, a. split; [exact E|]. split; [|now right].
    apply list_lookup_insert_eq. eapply lookup_lt_Some; eauto.
Qed.

End CopyAlignmentFacts.

(** X7. The two alignment setters of [GlobalRA] do not disturb one another
    or other declares: [setEvenAligned] stores its flag and keeps the
    declare's sub-register alignment, a [setSubRegAlign] that returns keeps
    the declare's even-alignment flag, and both leave the data of every
    declare already in the vector, other than their own, as it was. *)
Theorem alignment_setters_frame (Any : Z) (vars : list RAVarInfo) (d : nat) :
  (forall e,
     isEvenAligned (setEvenAligned Any vars d e) d = Some e
     /\ getSubRegAlign (setEvenAligned Any vars d e) d
        = Some (currentSubRegAlign Any vars d)) /\
  (forall e j x, j <> d -> vars !! j = Some x ->
                 setEvenAligned Any vars d e !! j = Some x) /\
  (forall a vars',
     setSubRegAlign Any vars d a = Ok vars' ->
     isEvenAligned vars' d = Some (default false (isEvenAligned vars d))
     /\ forall j x, j <> d -> vars !! j = Some x -> vars' !! j = Some x).
Proof.
  split; [|split].
  - intros e. unfold isEvenAligned, getSubRegAlign.
    rewrite setEvenAligned_same. now split.
  - intros e j x N L. rewrite setEvenAligned_other by assumption.
    now apply allocVar_old.
  - intros a vars' H.
    destruct (setSubRegAlign_result Any vars d a vars' H)
      as (F & info & r & E & E' & _).
    split.
    + unfold isEvenAligned. rewrite E'. simpl. f_equal.
      destruct (vars !! d) as [x|] eqn:L; simpl.
      * rewrite (allocVar_old Any vars d d x L) in E. congruence.
      * apply lookup_ge_None in L.
        rewrite allocVar_new in E by lia. now inversion E.
    + intros j x N L. rewrite F by assumption. now apply allocVar_old.
Qed.

Lemma alignment_setters_frame_witness :
  setEvenAligned 1 [mkRAVarInfo 4 false; mkRAVarInfo 8 true] 2 true !! 1%nat
  = Some (mkRAVarInfo 8 true)
  /\ isEvenAligned (setEvenAligned 1 [mkRAVarInfo 4 false] 2 true) 2
     = Some true.
Proof.
  destruct (alignment_setters_frame 1 [mkRAVarInfo 4 false; mkRAVarInfo 8 true]
                                    2) as (_ & F & _).
  destruct (alignment_setters_frame 1 [mkRAVarInfo 4 false] 2) as (S & _).
  split; [apply F; [lia|reflexivity]|apply S].
Defined.

Section CopyAlignmentLoops.

Variable Any : Z.
Hypothesis Any_pos : 0 < Any.

Lemma currentSubRegAlign_lookup vars j x :
  vars !! j = Some x -> currentSubRegAlign Any vars j = subAlign x.
Proof. intros L. unfold currentSubRegAlign, getSubRegAlign. now rewrite L. Qed.

Lemma setSubRegAlign_from_Any vars d a info :
  vars !! d = Some info -> subAlign info = Any -> Any <= a -> (Any | a) ->
  setSubRegAlign Any vars d a
  = Ok (<[d := mkRAVarInfo a (isEvenAlign info)]> vars).
Proof.
  intros L S Le D. pose proof (lookup_lt_Some _ _ _ L) as Lt.
  unfold setSubRegAlign. rewrite (allocVar_covered Any vars d Lt), L, S.
  rewrite Z.eqb_refl. simpl.
  destruct (Z.gtb_spec Any a); [lia|].
  now rewrite (proj2 (divide_mod_eqb Any a Any_pos) D).
Qed.

(** The vector after one declare has been given the alignment data the
    declare asks for. *)
Lemma copy_step_result vars dcl :
  alignAboveAny Any dcl ->
  currentSubRegAlign Any vars (declareId dcl) = Any ->
  setSubRegAlign Any vars (declareId dcl) (declSubRegAlign dcl)
  = Ok (<[declareId dcl :=
            mkRAVarInfo (declSubRegAlign dcl)
              (default false (isEvenAligned vars (declareId dcl)))]>
          (allocVar Any vars (declareId dcl))).
Proof.
  intros [Le D] C. set (d := declareId dcl) in *.
  destruct (allocVar_lookup Any vars d) as (info & E & S).
  assert (Ev : isEvenAlign info = default false (isEvenAligned vars d)).
  { unfold isEvenAligned. destruct (vars !! d) as [x|] eqn:L; simpl.
    - rewrite (allocVar_old Any vars d d x L) in E. congruence.
    - apply lookup_ge_None in L. rewrite allocVar_new in E by lia.
      now inversion E. }
  unfold setSubRegAlign. rewrite E, S, C, Z.eqb_refl. simpl.
  destruct (Z.gtb_spec Any (declSubRegAlign dcl)); [lia|].
  rewrite (proj2 (divide_mod_eqb Any _ Any_pos) D). now rewrite Ev.
Qed.

Lemma insert_then_setEvenAligned vars d a b e :
  (d < length vars)%nat ->
  setEvenAligned Any (<[d := mkRAVarInfo a b]> vars) d e
  = <[d := mkRAVarInfo a e]> vars.
Proof.
  intros Lt. unfold setEvenAligned.
  rewrite allocVar_covered by (now rewrite length_insert).
  rewrite list_lookup_insert_eq by assumption. simpl.
  apply list_insert_insert_eq.
Qed.

Lemma copyAlignmentStep_fresh vars dcl :
  aliasDeclare dcl = None -> alignAboveAny Any dcl ->
  currentSubRegAlign Any vars (declareId dcl) = Any ->
  copyAlignmentStep Any vars dcl
  = Ok (<[declareId dcl :=
            mkRAVarInfo (declSubRegAlign dcl) (declEvenAlign dcl)]>
          (allocVar Any vars (declareId dcl))).
Proof.
  intros Al Ok C. unfold copyAlignmentStep. rewrite Al.
  rewrite bool_decide_eq_false_2 by (intros [? ?]; discriminate).
  rewrite copy_step_result by assumption.
  now rewrite insert_then_setEvenAligned by apply allocVar_length.
Qed.

Lemma copyMissingAlignmentStep_cases vars dcl :
  aliasDeclare dcl = None -> alignAboveAny Any dcl ->
  let vars1 := allocVar Any vars (declareId dcl) in
  copyMissingAlignmentStep Any vars dcl
  = if (currentSubRegAlign Any vars (declareId dcl) =? Any)
       && negb (declSubRegAlign dcl =? Any)
    then Ok (<[declareId dcl :=
                 mkRAVarInfo (declSubRegAlign dcl) (declEvenAlign dcl)]> vars1)
    else Ok vars1.
Proof.
  intros Al AA vars1. unfold copyMissingAlignmentStep. rewrite Al.
  rewrite bool_decide_eq_false_2 by (intros [? ?]; discriminate).
  set (d := declareId dcl) in *.
  assert (E1 : (if (length vars <=? d)%nat then allocVar Any vars d else vars)
               = vars1).
  { unfold vars1. destruct (Nat.leb_spec (length vars) d); [reflexivity|].
    symmetry. now apply allocVar_covered. }
  rewrite E1. destruct (allocVar_lookup Any vars d) as (info & E & S).
  fold vars1 in E. unfold hasAlignSetup. fold d. rewrite E. simpl. rewrite S.
  destruct ((currentSubRegAlign Any vars d =? Any)
            && negb (declSubRegAlign dcl =? Any)) eqn:B; simpl; [|reflexivity].
  apply andb_true_iff in B as [B1 _]. apply Z.eqb_eq in B1.
  assert (C1 : currentSubRegAlign Any vars1 d = Any).
  { rewrite (currentSubRegAlign_lookup vars1 d info E). congruence. }
  pose proof (copy_step_result vars1 dcl AA C1) as R. fold d in R.
  rewrite R.
  replace (allocVar Any vars1 d) with vars1
    by (unfold vars1; now rewrite allocVar_idem).
  now rewrite insert_then_setEvenAligned by apply allocVar_length.
Qed.

Lemma hasAlignSetup_copied vars dcl :
  alignCopied vars dcl -> hasAlignSetup Any vars dcl = Some true.
Proof.
  unfold alignCopied, hasAlignSetup. intros ->. simpl.
  now destruct (declSubRegAlign dcl =? Any).
Qed.

Lemma copyMissingAlignmentStep_setup vars dcl :
  aliasDeclare dcl = None -> alignAboveAny Any dcl ->
  exists vars',
    copyMissingAlignmentStep Any vars dcl = Ok vars'
    /\ hasAlignSetup Any vars' dcl = Some true
    /\ forall j x, j <> declareId dcl -> vars !! j = Some x ->
                   vars' !! j = Some x.
Proof.
  intros Al AA. rewrite copyMissingAlignmentStep_cases by assumption.
  set (d := declareId dcl).
  destruct (allocVar_lookup Any vars d) as (info & E & S).
  destruct ((currentSubRegAlign Any vars d =? Any)
            && negb (declSubRegAlign dcl =? Any)) eqn:B.
  - eexists. split; [reflexivity|]. split.
    + apply hasAlignSetup_copied. unfold alignCopied. fold d.
      apply list_lookup_insert_eq, allocVar_length.
    + intros j x N L. rewrite list_lookup_insert_ne by congruence.
      now apply allocVar_old.
  - eexists. split; [reflexivity|]. split.
    + unfold hasAlignSetup. fold d. rewrite E. simpl. rewrite S, B.
      reflexivity.
    + intros j x N L. now apply allocVar_old.
Qed.

Lemma copyMissingAlignmentStep_alias vars dcl :
  is_Some (aliasDeclare dcl) -> copyMissingAlignmentStep Any vars dcl = Ok vars.
Proof.
  intros H. unfold copyMissingAlignmentStep.
  now rewrite bool_decide_eq_true_2.
Qed.

Lemma hasAlignSetup_kept vars vars' dcl :
  (forall x, vars !! declareId dcl = Some x -> vars' !! declareId dcl = Some x) ->
  hasAlignSetup Any vars dcl = Some true ->
  hasAlignSetup Any vars' dcl = Some true.
Proof.
  unfold hasAlignSetup. intros F.
  destruct (vars !! declareId dcl) as [x|]; [|discriminate].
  now rewrite (F x eq_refl).
Qed.

Lemma copyMissingAlignment_total ds vars :
  Forall (alignAboveAny Any) ds ->
  exists vars',
    copyMissingAlignment Any ds vars = Ok vars'
    /\ forall j x, ~ In j (map declareId ds) -> vars !! j = Some x ->
                   vars' !! j = Some x.
Proof.
  revert vars. induction ds as [|d ds IH]; intros vars F.
  - exists vars. split; [reflexivity|auto].
  - inversion F as [|? ? AA F']; subst. unfold copyMissingAlignment. simpl.
    destruct (aliasDeclare d) as [al|] eqn:Al.
    + rewrite copyMissingAlignmentStep_alias by (rewrite Al; eauto).
      destruct (IH vars F') as (vars' & E & Fr). exists vars'.
      split; [exact E|]. intros j x N. apply Fr. simpl in N. tauto.
    + destruct (copyMissingAlignmentStep_setup vars d Al AA)
        as (vars1 & E1 & _ & Fr1). rewrite E1.
      destruct (IH vars1 F') as (vars' & E & Fr). exists vars'.
      split; [exact E|]. intros j x N L. simpl in N.
      apply Fr; [tauto|]. apply Fr1; [intros ->; tauto|exact L].
Qed.

Lemma copyMissingAlignment_setup ds vars vars' :
  List.NoDup (map declareId ds) -> Forall (alignAboveAny Any) ds ->
  copyMissingAlignment Any ds vars = Ok vars' ->
  forall d, In d ds -> aliasDeclare d = None ->
            hasAlignSetup Any vars' d = Some true.
Proof.
  revert vars. induction ds as [|d0 ds IH]; intros vars ND F E d Hin Al;
    [destruct Hin|].
  inversion F as [|? ? AA F']; subst.
  simpl in ND. inversion ND as [|? ? Nin ND']; subst.
  unfold copyMissingAlignment in E. simpl in E.
  destruct (copyMissingAlignmentStep Any vars d0) as [vars1|] eqn:E1;
    [|discriminate].
  destruct Hin as [->|Hin].
  - destruct (copyMissingAlignmentStep_setup vars d Al AA)
      as (vars1' & E1' & S1 & _).
    assert (vars1' = vars1) by congruence. subst vars1'.
    destruct (copyMissingAlignment_total ds vars1 F') as (vars2 & E2 & Fr).
    unfold copyMissingAlignment in E2. rewrite E2 in E. inversion E; subst.
    eapply hasAlignSetup_kept; [|exact S1]. intros x. now apply Fr.
  - now apply (IH vars1).
Qed.

Lemma copyMissingAlignment_noop ds vars :
  (forall d, In d ds -> aliasDeclare d = None -> alignCopied vars d) ->
  copyMissingAlignment Any ds vars = Ok vars.
Proof.
  induction ds as [|d ds IH]; intros H; [reflexivity|].
  unfold copyMissingAlignment. simpl.
  assert (E : copyMissingAlignmentStep Any vars d = Ok vars).
  { unfold copyMissingAlignmentStep.
    destruct (aliasDeclare d) as [al|] eqn:Al.
    - now rewrite bool_decide_eq_true_2 by eauto.
    - rewrite bool_decide_eq_false_2 by (intros [? ?]; discriminate).
      pose proof (H d (or_introl eq_refl) Al) as C.
      pose proof (lookup_lt_Some _ _ _ C) as Lt.
      destruct (Nat.leb_spec (length vars) (declareId d)); [lia|].
      now rewrite (hasAlignSetup_copied vars d C). }
  rewrite E. apply IH. intros d' Hin. apply H. now right.
Qed.

Lemma copyAlignment_copies ds vars :
  List.NoDup (map declareId ds) -> Forall (alignAboveAny Any) ds ->
  (forall d, In d ds -> currentSubRegAlign Any vars (declareId d) = Any) ->
  exists vars',
    copyAlignment Any ds vars = Ok vars'
    /\ (forall d, In d ds -> aliasDeclare d = None -> alignCopied vars' d)
    /\ (forall j, ~ In j (map declareId ds) ->
                  currentSubRegAlign Any vars' j = currentSubRegAlign Any vars j)
    /\ (forall j x, ~ In j (map declareId ds) -> vars !! j = Some x ->
                    vars' !! j = Some x).
Proof.
  revert vars. induction ds as [|d ds IH]; intros vars ND F Fresh.
  - exists vars. repeat split; auto. intros d [].
  - inversion F as [|? ? AA F']; subst.
    simpl in ND. inversion ND as [|? ? Nin ND']; subst.
    unfold copyAlignment. simpl.
    destruct (aliasDeclare d) as [al|] eqn:Al.
    + unfold copyAlignmentStep at 1. rewrite Al.
      rewrite bool_decide_eq_true_2 by eauto.
      destruct (IH vars ND' F') as (vars' & E & C & K & Fr);
        [intros d' H'; apply Fresh; now right|].
      exists vars'. split; [exact E|]. split; [|split].
      * intros d' [<-|Hin] Al'; [congruence|now apply C].
      * intros j N. apply K. simpl in N. tauto.
      * intros j x N. apply Fr. simpl in N. tauto.
    + rewrite copyAlignmentStep_fresh; [|assumption..|apply Fresh; now left].
      set (vars1 := <[declareId d := _]> (allocVar Any vars (declareId d))).
      assert (O : forall j, j <> declareId d ->
                    vars1 !! j = allocVar Any vars (declareId d) !! j).
      { intros j N. unfold vars1. now rewrite list_lookup_insert_ne by congruence. }
      assert (K1 : forall j, j <> declareId d ->
                     currentSubRegAlign Any vars1 j
                     = currentSubRegAlign Any vars j).
      { intros j N. rewrite <- (allocVar_other Any vars (declareId d) j N).
        unfold currentSubRegAlign, getSubRegAlign. now rewrite O. }
      destruct (IH vars1 ND' F') as (vars' & E & C & K & Fr).
      { intros d' H'. rewrite K1; [apply Fresh; now right|].
        intros Eq. apply Nin. rewrite <- Eq. now apply in_map. }
      exists vars'. split; [exact E|]. split; [|split].
      * intros d' [<-|Hin] Al'; [|now apply C].
        unfold alignCopied. apply Fr; [exact Nin|].
        apply list_lookup_insert_eq, allocVar_length.
      * intros j N. simpl in N. rewrite K by tauto. apply K1.
        intros ->. tauto.
      * intros j x N L. simpl in N. apply Fr; [tauto|].
        rewrite O by (intros ->; tauto). now apply allocVar_old.
Qed.

End CopyAlignmentLoops.

Lemma copyMissingAlignment_fixed Any ds vars :
  (forall d, In d ds -> aliasDeclare d = None ->
             hasAlignSetup Any vars d = Some true) ->
  copyMissingAlignment Any ds vars = Ok vars.
Proof.
  induction ds as [|d ds IH]; intros H; [reflexivity|].
  unfold copyMissingAlignment. simpl.
  assert (E : copyMissingAlignmentStep Any vars d = Ok vars).
  { unfold copyMissingAlignmentStep.
    destruct (aliasDeclare d) as [al|] eqn:Al.
    - now rewrite bool_decide_eq_true_2 by eauto.
    - rewrite bool_decide_eq_false_2 by (intros [? ?]; discriminate).
      pose proof (H d (or_introl eq_refl) Al) as C.
      assert (Lt : (declareId d < length vars)%nat).
      { unfold hasAlignSetup in C.
        destruct (vars !! declareId d) eqn:L; [|discriminate].
        eapply lookup_lt_Some; eauto. }
      destruct (Nat.leb_spec (length vars) (declareId d)); [lia|].
      now rewrite C. }
  rewrite E. apply IH. intros d' Hin. apply H. now right.
Qed.

(** X8. When [Any] is the weakest alignment (positive, dividing and not
    exceeding every declared alignment) and declare ids are distinct,
    [copyMissingAlignment] never trips an assertion; afterwards
    [hasAlignSetup] holds for every declare that is not an alias, the data
    of declares outside the list is as before, and a second run changes
    nothing. *)
Theorem copyMissingAlignment_establishes_setup (Any : Z)
    (ds : list G4_DeclareRA) (vars : list RAVarInfo) :
  0 < Any -> List.NoDup (map declareId ds) ->
  Forall (alignAboveAny Any) ds ->
  exists vars',
    copyMissingAlignment Any ds vars = Ok vars'
    /\ (forall d, In d ds -> aliasDeclare d = None ->
                  hasAlignSetup Any vars' d = Some true)
    /\ (forall j x, ~ In j (map declareId ds) -> vars !! j = Some x ->
                    vars' !! j = Some x)
    /\ copyMissingAlignment Any ds vars' = Ok vars'.
Proof.
  intros P ND F.
  destruct (copyMissingAlignment_total Any P ds vars F) as (vars' & E & Fr).
  pose proof (copyMissingAlignment_setup Any P ds vars vars' ND F E) as S.
  exists vars'. split; [exact E|]. split; [exact S|]. split; [exact Fr|].
  now apply copyMissingAlignment_fixed.
Qed.

Lemma copyMissingAlignment_establishes_setup_witness :
  let ds := [mkDeclareRA 0 None 4 true; mkDeclareRA 1 (Some 0%nat) 8 false;
             mkDeclareRA 3 None 1 false] in
  exists vars',
    copyMissingAlignment 1 ds [mkRAVarInfo 1 false] = Ok vars'
    /\ hasAlignSetup 1 vars' (mkDeclareRA 0 None 4 true) = Some true
    /\ hasAlignSetup 1 vars' (mkDeclareRA 3 None 1 false) = Some true.
Proof.
  intros ds.
  destruct (copyMissingAlignment_establishes_setup 1 ds [mkRAVarInfo 1 false])
    as (vars' & E & S & _).
  - lia.
  - subst ds. simpl.
    repeat (apply List.NoDup_cons; [simpl; lia|]). apply List.NoDup_nil.
  - subst ds.
    repeat (apply List.Forall_cons;
              [split; simpl; [lia|apply Z.divide_1_l]|]).
    apply List.Forall_nil.
  - exists vars'. split; [exact E|].
    split; apply S; subst ds; simpl; auto.
Defined.

(** X9. Under the same conditions [copyAlignment()] run on declares whose
    alignment is still unset stores, for every declare that is not an
    alias, exactly the sub-register alignment and the even-alignment flag
    the declare asks for, without tripping an assertion; a
    [copyMissingAlignment] that follows finds nothing missing and leaves
    the data as it is. *)
Theorem copyAlignment_copies_declared (Any : Z) (ds : list G4_DeclareRA)
    (vars : list RAVarInfo) :
  0 < Any -> List.NoDup (map declareId ds) ->
  Forall (alignAboveAny Any) ds ->
  (forall d, In d ds -> currentSubRegAlign Any vars (declareId d) = Any) ->
  exists vars',
    copyAlignment Any ds vars = Ok vars'
    /\ (forall d, In d ds -> aliasDeclare d = None ->
          getSubRegAlign vars' (declareId d) = Some (declSubRegAlign d)
          /\ isEvenAligned vars' (declareId d) = Some (declEvenAlign d))
    /\ (forall j x, ~ In j (map declareId ds) -> vars !! j = Some x ->
                    vars' !! j = Some x)
    /\ copyMissingAlignment Any ds vars' = Ok vars'.
Proof.
  intros P ND F Fresh.
  destruct (copyAlignment_copies Any P ds vars ND F Fresh)
    as (vars' & E & C & _ & Fr).
  exists vars'. split; [exact E|]. split; [|split; [exact Fr|]].
  - intros d Hin Al. specialize (C d Hin Al). unfold alignCopied in C.
    unfold getSubRegAlign, isEvenAligned. now rewrite C.
  - apply copyMissingAlignment_fixed. intros d Hin Al.
    apply hasAlignSetup_copied. now apply C.
Qed.

Lemma copyAlignment_copies_declared_witness :
  let ds := [mkDeclareRA 2 None 4 true; mkDeclareRA 0 None 16 false] in
  exists vars',
    copyAlignment 1 ds [] = Ok vars'
    /\ getSubRegAlign vars' 2 = Some 4 /\ isEvenAligned vars' 2 = Some true
    /\ getSubRegAlign vars' 0 = Some 16.
Proof.
  intros ds.
  destruct (copyAlignment_copies_declared 1 ds []) as (vars' & E & C & _).
  - lia.
  - subst ds. simpl.
    repeat (apply List.NoDup_cons; [simpl; lia|]). apply List.NoDup_nil.
  - subst ds.
    repeat (apply List.Forall_cons;
              [split; simpl; [lia|apply Z.divide_1_l]|]).
    apply List.Forall_nil.
  - intros d _. reflexivity.
  - exists vars'. split; [exact E|].
    destruct (C (mkDeclareRA 2 None 4 true)) as [A1 A2];
      [subst ds; simpl; auto|reflexivity|].
    destruct (C (mkDeclareRA 0 None 16 false)) as [B1 _];
      [subst ds; simpl; auto|reflexivity|].
    auto.
Defined.

(** ** Augmentation masks of declares *)

Lemma getAugmentationMask_lookup vm i :
  getAugmentationMask vm i = default Undetermined (vm !! i).
Proof.
  unfold getAugmentationMask. destruct (Nat.leb_spec (length vm) i);
    [|reflexivity].
  now rewrite lookup_ge_None_2.
Qed.

Lemma getAugmentationMask_store vm d m i :
  getAugmentationMask
    (<[d := m]> (if (length vm <=? d)%nat
                 then resize (S d) Undetermined vm else vm)) i
  = if decide (i = d) then m else getAugmentationMask vm i.
Proof.
  rewrite !getAugmentationMask_lookup.
  set (vm1 := if (length vm <=? d)%nat then _ else vm).
  assert (Lt : (d < length vm1)%nat).
  { unfold vm1. destruct (Nat.leb_spec (length vm) d);
      [rewrite length_resize|]; lia. }
  assert (Same : forall j, default Undetermined (vm1 !! j)
                           = default Undetermined (vm !! j)).
  { intros j. unfold vm1. destruct (Nat.leb_spec (length vm) d); [|reflexivity].
    destruct (Nat.lt_ge_cases j (length vm)).
    - now rewrite lookup_resize by lia.
    - rewrite (lookup_ge_None_2 vm j) by lia.
      destruct (Nat.lt_ge_cases j (S d)).
      + now rewrite lookup_resize_new by lia.
      + now rewrite lookup_resize_old by lia. }
  destruct (decide (i = d)) as [->|N].
  - now rewrite list_lookup_insert_eq.
  - rewrite list_lookup_insert_ne by congruence. apply Same.
Qed.

Section AugmentationMaskFacts.

Variable isSplittedDcl : nat -> bool.
Variable subDclList : nat -> list nat.

Local Abbreviation setMask := (setAugmentationMask isSplittedDcl subDclList).

(** Every mask of the new vector is the one just set or the old one, and the
    declare itself and the sub-declares visited hold the new one. *)
Lemma setAugmentationMask_masks fuel vm d m vm' :
  setMask fuel vm d m = Some vm' ->
  getAugmentationMask vm' d = m
  /\ (forall i, getAugmentationMask vm' i = m
                \/ getAugmentationMask vm' i = getAugmentationMask vm i)
  /\ (isSplittedDcl d = true ->
      forall sub, In sub (subDclList d) -> getAugmentationMask vm' sub = m).
Proof.
  revert vm d vm'. induction fuel as [|fuel IH]; intros vm d vm' H;
    [discriminate|].
  simpl in H.
  set (stored := <[d := m]> _) in H.
  assert (St : forall i, getAugmentationMask stored i
                         = if decide (i = d) then m
                           else getAugmentationMask vm i)
    by (intros i; apply getAugmentationMask_store).
  assert (Fold : forall subs acc res,
             foldl (fun acc subDcl =>
                      acc ≫= fun v => setMask fuel v subDcl m)
                   (Some acc) subs = Some res ->
             (forall i, getAugmentationMask res i = m
                        \/ getAugmentationMask res i
                           = getAugmentationMask acc i)
             /\ forall sub, In sub subs -> getAugmentationMask res sub = m).
  { induction subs as [|s subs IHs]; intros acc res Hf; simpl in Hf.
    - inversion Hf; subst. split; [auto|intros ? []].
    - destruct (setMask fuel acc s m) as [acc'|] eqn:Es.
      + destruct (IH _ _ _ Es) as (Gs & Ps & _).
        destruct (IHs _ _ Hf) as (Pr & Sr). split.
        * intros i. destruct (Pr i) as [-> | ->]; [now left|apply Ps].
        * intros sub [<-|Hin]; [|now apply Sr].
          destruct (Pr s) as [-> | ->]; [reflexivity|exact Gs].
      + exfalso. clear -Hf. induction subs as [|x subs IHx]; simpl in Hf;
          [discriminate|auto]. }
  destruct (isSplittedDcl d).
  - destruct (Fold _ _ _ H) as (Pr & Sr). split; [|split].
    + destruct (Pr d) as [-> | ->]; [reflexivity|].
      rewrite St. now destruct (decide (d = d)).
    + intros i. destruct (Pr i) as [-> | ->]; [now left|].
      rewrite St. destruct (decide (i = d)); auto.
    + intros _. exact Sr.
  - inversion H; subst vm'. split; [|split].
    + rewrite St. now destruct (decide (d = d)).
    + intros i. rewrite St. destruct (decide (i = d)); auto.
    + discriminate.
Qed.

Lemma setAugmentationMask_plain fuel vm d m :
  isSplittedDcl d = false ->
  exists vm', setMask (S fuel) vm d m = Some vm'
              /\ forall i, getAugmentationMask vm' i
                           = if decide (i = d) then m
                             else getAugmentationMask vm i.
Proof.
  intros Ns. simpl. rewrite Ns. eexists. split; [reflexivity|].
  intros i. apply getAugmentationMask_store.
Qed.

Lemma setAugmentationMask_split fuel vm d m :
  (forall sub, In sub (subDclList d) -> isSplittedDcl sub = false) ->
  is_Some (setMask (S (S fuel)) vm d m).
Proof.
  intros Hs. cbn [setAugmentationMask].
  destruct (isSplittedDcl d); [|eauto].
  set (stored := <[d := m]> _). clearbody stored. revert stored.
  induction (subDclList d) as [|s subs IHs]; intros acc; simpl; [eauto|].
  destruct (setAugmentationMask_plain fuel acc s m) as (acc' & E & _);
    [apply Hs; now left|].
  cbn [setAugmentationMask] in E. rewrite E. simpl.
  apply IHs. intros sub Hin. apply Hs. now right.
Qed.

End AugmentationMaskFacts.

(** X10. Recording and reading an augmentation mask round-trip. After a
    [setAugmentationMask dcl m] that returns, [getAugmentationMask] gives
    [m] for the declare and, when the declare is split, for each of its
    sub-declares; every other declare reads either [m] or what it read
    before, and a declare beyond the vector still reads [Undetermined]
    before it is set. For a declare that is not split only the declare
    itself changes; for a split declare whose sub-declares are not split
    the call does return. *)
Theorem augmentation_mask_round_trip (isSplittedDcl : nat -> bool)
    (subDclList : nat -> list nat) (vm : list AugmentationMasks) (d : nat)
    (m : AugmentationMasks) :
  (forall fuel vm',
     setAugmentationMask isSplittedDcl subDclList fuel vm d m = Some vm' ->
     getAugmentationMask vm' d = m
     /\ getHasNonDefaultMaskDef vm' d = bool_decide (m = NonDefault)
     /\ (forall i, getAugmentationMask vm' i = m
                   \/ getAugmentationMask vm' i = getAugmentationMask vm i)
     /\ (isSplittedDcl d = true ->
         forall sub, In sub (subDclList d) ->
                     getAugmentationMask vm' sub = m)) /\
  (isSplittedDcl d = false ->
   forall fuel,
   exists vm',
     setAugmentationMask isSplittedDcl subDclList (S fuel) vm d m = Some vm'
     /\ forall i, getAugmentationMask vm' i
                  = if decide (i = d) then m else getAugmentationMask vm i) /\
  ((forall sub, In sub (subDclList d) -> isSplittedDcl sub = false) ->
   forall fuel,
     is_Some (setAugmentationMask isSplittedDcl subDclList (S (S fuel))
                                  vm d m)) /\
  (forall i, (length vm <= i)%nat -> getAugmentationMask vm i = Undetermined).
Proof.
  split; [|split; [|split]].
  - intros fuel vm' H.
    destruct (setAugmentationMask_masks _ _ _ _ _ _ _ H) as (G & P & S).
    split; [exact G|]. split; [|split; assumption].
    unfold getHasNonDefaultMaskDef. now rewrite G.
  - intros Ns fuel. now apply setAugmentationMask_plain.
  - intros Hs fuel. now apply setAugmentationMask_split.
  - intros i Hi. rewrite getAugmentationMask_lookup.
    now rewrite lookup_ge_None_2.
Qed.

Lemma augmentation_mask_round_trip_witness :
  let isSplit := fun d => bool_decide (d = 1%nat) in
  let subs := fun d => if bool_decide (d = 1%nat) then [4; 2]%nat else [] in
  exists vm',
    setAugmentationMask isSplit subs 2 [Default16Bit; Default32Bit] 1 NonDefault
    = Some vm'
    /\ getAugmentationMask vm' 1 = NonDefault
    /\ getAugmentationMask vm' 4 = NonDefault
    /\ getAugmentationMask vm' 0 = Default16Bit.
Proof.
  intros isSplit subs.
  destruct (augmentation_mask_round_trip isSplit subs
              [Default16Bit; Default32Bit] 1 NonDefault) as (R & _ & T & _).
  destruct (T ltac:(intros sub [<-|[<-|[]]]; reflexivity) 0%nat) as [vm' E].
  exists vm'. split; [exact E|].
  destruct (R _ _ E) as (G & _ & _ & S).
  split; [exact G|]. split; [apply S; [reflexivity|now left]|].
  revert E. vm_compute. intros [= <-]. reflexivity.
Defined.

(** ** Bundles and banks *)

Lemma regPlusOffset_mod (baseReg offset k : Z) :
  0 < k -> (k | 2 ^ 32) ->
  regPlusOffset baseReg offset mod k = (baseReg + offset) mod k.
Proof.
  intros Hk D. unfold regPlusOffset, wrap32.
  rewrite Z.mod_mod_divide by assumption.
  rewrite Zplus_mod, (Z.mod_mod_divide offset) by assumption.
  now rewrite <- Zplus_mod.
Qed.

(** X11. [get_bundle] and [get_bank] depend on the register
    [baseReg + offset] only, the conversion of a negative offset to
    [unsigned] being harmless: the bundle is [((baseReg + offset) mod 32) / 2]
    with partial 64-bit integer support and [((baseReg + offset) mod 64) / 4]
    without, always one of 16 bundles; the bank is 0 or 1, the parity of the
    register unless only the two-GRF bank layout is selected. *)
Theorem bundle_and_bank_of_register (baseReg offset : Z) :
  get_bundle true baseReg offset = ((baseReg + offset) mod 32) / 2 /\
  get_bundle false baseReg offset = ((baseReg + offset) mod 64) / 4 /\
  (forall p, 0 <= get_bundle p baseReg offset < 16) /\
  (forall two one,
     get_bank two one baseReg offset
     = if one then (baseReg + offset) mod 2
       else if two then ((baseReg + offset) mod 4) / 2
            else (baseReg + offset) mod 2) /\
  (forall two one, 0 <= get_bank two one baseReg offset < 2).
Proof.
  assert (D32 : (32 | 2 ^ 32)) by (exists (2 ^ 27); reflexivity).
  assert (D64 : (64 | 2 ^ 32)) by (exists (2 ^ 26); reflexivity).
  assert (D2 : (2 | 2 ^ 32)) by (exists (2 ^ 31); reflexivity).
  assert (D4 : (4 | 2 ^ 32)) by (exists (2 ^ 30); reflexivity).
  assert (B1 : get_bundle true baseReg offset = ((baseReg + offset) mod 32) / 2)
    by (unfold get_bundle; now rewrite regPlusOffset_mod by (lia || assumption)).
  assert (B2 : get_bundle false baseReg offset
               = ((baseReg + offset) mod 64) / 4)
    by (unfold get_bundle; now rewrite regPlusOffset_mod by (lia || assumption)).
  assert (K : forall two one,
             get_bank two one baseReg offset
             = if one then (baseReg + offset) mod 2
               else if two then ((baseReg + offset) mod 4) / 2
                    else (baseReg + offset) mod 2).
  { intros two one. unfold get_bank.
    rewrite !regPlusOffset_mod by (lia || assumption).
    pose proof (Z.mod_pos_bound (baseReg + offset) 2 ltac:(lia)).
    pose proof (Z.mod_pos_bound (baseReg + offset) 4 ltac:(lia)).
    assert (0 <= (baseReg + offset) mod 4 / 2 < 2)
      by (split; [apply Z.div_pos; lia|apply Z.div_lt_upper_bound; lia]).
    unfold wrap32. destruct one, two; apply Z.mod_small; lia. }
  split; [exact B1|]. split; [exact B2|]. split; [|split; [exact K|]].
  - intros [|]; rewrite ?B1, ?B2.
    + pose proof (Z.mod_pos_bound (baseReg + offset) 32 ltac:(lia)).
      split; [apply Z.div_pos; lia|apply Z.div_lt_upper_bound; lia].
    + pose proof (Z.mod_pos_bound (baseReg + offset) 64 ltac:(lia)).
      split; [apply Z.div_pos; lia|apply Z.div_lt_upper_bound; lia].
  - intros two one. rewrite K.
    pose proof (Z.mod_pos_bound (baseReg + offset) 2 ltac:(lia)).
    pose proof (Z.mod_pos_bound (baseReg + offset) 4 ltac:(lia)).
    destruct one, two; try lia.
    split; [apply Z.div_pos; lia|apply Z.div_lt_upper_bound; lia].
Qed.

(** ** Temporaries of the spill manager *)

(** X12. The spill manager counts its temporaries correctly even when the
    32-bit declare id wraps around: the id it started from plus the number
    it reports is, modulo 2^32, the next id; it reports that a temporary
    was created exactly when the next id differs from the start; and a
    manager just constructed reports none. *)
Theorem spill_manager_temp_count (sm : SpillManager) :
  is_unsigned (origTempDclId sm) -> is_unsigned (tempDclId sm) ->
  is_unsigned (getNumTempCreated sm) /\
  wrap32 (origTempDclId sm + getNumTempCreated sm) = getNextTempDclId sm /\
  (isAnyNewTempCreated sm = true <-> tempDclId sm <> origTempDclId sm) /\
  (forall n, 0 <= n < 2 ^ 32 ->
             tempDclId sm = wrap32 (origTempDclId sm + n) ->
             getNumTempCreated sm = n) /\
  (forall start, getNumTempCreated (newSpillManager start) = 0
                 /\ isAnyNewTempCreated (newSpillManager start) = false
                 /\ getNextTempDclId (newSpillManager start) = start).
Proof.
  unfold is_unsigned. intros Ho Ht.
  unfold isAnyNewTempCreated, getNumTempCreated, getNextTempDclId, wrap32.
  set (o := origTempDclId sm) in *. set (t := tempDclId sm) in *.
  assert (Hm : 0 <= (t - o) mod 2 ^ 32 < 2 ^ 32)
    by (apply Z.mod_pos_bound; lia).
  assert (Cases : (t - o) mod 2 ^ 32 = t - o
                  \/ (t - o) mod 2 ^ 32 = t - o + 2 ^ 32).
  { destruct (Z.le_gt_cases o t).
    - left. apply Z.mod_small. lia.
    - right. rewrite <- (Z.mod_add (t - o) 1 (2 ^ 32)) by lia.
      apply Z.mod_small. lia. }
  split; [exact Hm|]. split; [|split; [|split]].
  - destruct Cases as [-> | ->].
    + replace (o + (t - o)) with t by lia. apply Z.mod_small. lia.
    + replace (o + (t - o + 2 ^ 32)) with (t + 1 * 2 ^ 32) by lia.
      rewrite Z.mod_add by lia. apply Z.mod_small. lia.
  - rewrite negb_true_iff, Z.eqb_neq. lia.
  - intros n Hn E. rewrite E.
    rewrite Zminus_mod, Z.mod_mod, <- Zminus_mod by lia.
    replace (o + n - o) with n by lia. apply Z.mod_small. lia.
  - intros start. simpl. rewrite Z.sub_diag. now split.
Qed.

Lemma spill_manager_temp_count_witness :
  getNumTempCreated (mkSpillManager 0 4294967294 3 0 0) = 5
  /\ isAnyNewTempCreated (mkSpillManager 0 4294967294 3 0 0) = true.
Proof.
  destruct (spill_manager_temp_count (mkSpillManager 0 4294967294 3 0 0))
    as (_ & _ & A & N & _); try (unfold is_unsigned; simpl; lia).
  split.
  - apply N; [lia|reflexivity].
  - apply A. simpl. lia.
Defined.

(** ** Running [computePReg] again *)

Section PhyRegComputeAgain.

Variable G4_Type : Type.
Variable TypeSize : G4_Type -> Z.
Variable numEltPerGRF_UB : Z.

Local Abbreviation Src :=
  (G4_SrcRegRegion_computePReg G4_Type TypeSize numEltPerGRF_UB).

Lemma computePReg_unfold (r : G4_RegRegion G4_Type)
    (ds : gmap nat G4_Declare) :
  Src r ds
  = match greg_assigned G4_Type r with
    | Some (v, n) =>
        match ds !! regVarDeclare v with
        | Some dcl =>
            <[regVarDeclare v :=
                mkDeclare (elemSize dcl)
                  (linearizedStart numEltPerGRF_UB (TypeSize (type _ r)) n
                                   (phyRegOff v) (elemSize dcl))]> ds
        | None => ds
        end
    | None => ds
    end.
Proof.
  unfold G4_SrcRegRegion_computePReg, greg_assigned.
  destruct (base _ r) as [v|p]; [|reflexivity].
  destruct (phyReg v) as [[n|a]|]; reflexivity.
Qed.

Lemma linearizedStart_unsigned g t n s e :
  is_unsigned (linearizedStart g t n s e).
Proof. unfold linearizedStart, is_unsigned, wrap32. apply Z.mod_pos_bound. lia. Qed.

Lemma computePReg_elemSize r ds k :
  elemSize <$> (Src r ds !! k) = elemSize <$> (ds !! k).
Proof.
  rewrite computePReg_unfold.
  destruct (greg_assigned _ r) as [[v n]|]; [|reflexivity].
  destruct (ds !! regVarDeclare v) as [dcl|] eqn:L; [|reflexivity].
  destruct (decide (k = regVarDeclare v)) as [->|N].
  - now rewrite lookup_insert_eq, L.
  - now rewrite lookup_insert_ne by congruence.
Qed.

Lemma computePReg_changes r ds k d' :
  Src r ds !! k = Some d' ->
  ds !! k = Some d'
  \/ (is_unsigned (GRFBaseOffset d')
      /\ exists v n, greg_assigned G4_Type r = Some (v, n)
                     /\ k = regVarDeclare v).
Proof.
  rewrite computePReg_unfold.
  destruct (greg_assigned _ r) as [[v n]|]; [|now left].
  destruct (ds !! regVarDeclare v) as [dcl|] eqn:L; [|now left].
  destruct (decide (k = regVarDeclare v)) as [->|N].
  - rewrite lookup_insert_eq. intros [= <-]. right.
    split; [apply linearizedStart_unsigned|eauto].
  - rewrite lookup_insert_ne by congruence. now left.
Qed.

Lemma computePReg_overwrites r r2 ds v2 n2 :
  greg_assigned G4_Type r2 = Some (v2, n2) ->
  is_Some (ds !! regVarDeclare v2) ->
  (forall v n, greg_assigned G4_Type r = Some (v, n) ->
               regVarDeclare v = regVarDeclare v2) ->
  Src r2 (Src r ds) = Src r2 ds.
Proof.
  intros G2 [dcl L] Same.
  rewrite (computePReg_unfold r ds).
  destruct (greg_assigned _ r) as [[v n]|]; [|reflexivity].
  rewrite (Same v n eq_refl), L.
  rewrite !(computePReg_unfold r2), G2, lookup_insert_eq, L. simpl.
  apply insert_insert_eq.
Qed.

Lemma computePReg_commute r r2 ds :
  (forall v n v2 n2,
     greg_assigned G4_Type r = Some (v, n) ->
     greg_assigned G4_Type r2 = Some (v2, n2) ->
     regVarDeclare v <> regVarDeclare v2) ->
  Src r2 (Src r ds) = Src r (Src r2 ds).
Proof.
  intros Diff.
  destruct (greg_assigned _ r) as [[v n]|] eqn:G.
  2:{ assert (Id : forall m, Src r m = m)
        by (intros m; now rewrite computePReg_unfold, G).
      now rewrite !Id. }
  destruct (greg_assigned _ r2) as [[v2 n2]|] eqn:G2.
  2:{ assert (Id : forall m, Src r2 m = m)
        by (intros m; now rewrite computePReg_unfold, G2).
      now rewrite !Id. }
  pose proof (Diff v n v2 n2 eq_refl eq_refl) as N.
  rewrite (computePReg_unfold r ds), (computePReg_unfold r2 ds), G, G2.
  destruct (ds !! regVarDeclare v) as [dcl|] eqn:L,
           (ds !! regVarDeclare v2) as [dcl2|] eqn:L2;
    rewrite (computePReg_unfold r), (computePReg_unfold r2), G, G2,
      ?lookup_insert_ne, ?L, ?L2 by congruence; try reflexivity.
  now apply insert_insert_ne.
Qed.

End PhyRegComputeAgain.

(** X13. For operands whose type size is not zero, so that [computePReg]
    does not divide by zero, [computePReg] only ever rewrites the offset of
    the operand's own declare. Running it a second time on the same operand
    changes nothing; no declare is added or removed and no element size
    changes; an offset it stores is a 32-bit value; of two operands of the
    same declare the later one determines the offset; operands of different
    declares can be processed in either order. *)
Theorem computePReg_rerun (G4_Type : Type) (TypeSize : G4_Type -> Z)
    (numEltPerGRF_UB : Z) (r : G4_RegRegion G4_Type)
    (ds : gmap nat G4_Declare) :
  typeSizeNonZero TypeSize r ->
  let src := G4_SrcRegRegion_computePReg G4_Type TypeSize numEltPerGRF_UB in
  let dst := G4_DstRegRegion_computePReg G4_Type TypeSize numEltPerGRF_UB in
  src r (src r ds) = src r ds /\
  (forall k, elemSize <$> (src r ds !! k) = elemSize <$> (ds !! k)) /\
  (forall k d', src r ds !! k = Some d' ->
     ds !! k = Some d'
     \/ (is_unsigned (GRFBaseOffset d')
         /\ exists v n, greg_assigned G4_Type r = Some (v, n)
                        /\ k = regVarDeclare v)) /\
  (forall r2 v2 n2,
     typeSizeNonZero TypeSize r2 ->
     greg_assigned G4_Type r2 = Some (v2, n2) ->
     is_Some (ds !! regVarDeclare v2) ->
     (forall v n, greg_assigned G4_Type r = Some (v, n) ->
                  regVarDeclare v = regVarDeclare v2) ->
     dst r2 (src r ds) = dst r2 ds) /\
  (forall r2,
     typeSizeNonZero TypeSize r2 ->
     (forall v n v2 n2,
        greg_assigned G4_Type r = Some (v, n) ->
        greg_assigned G4_Type r2 = Some (v2, n2) ->
        regVarDeclare v <> regVarDeclare v2) ->
     dst r2 (src r ds) = src r (dst r2 ds)).
Proof.
  intros _ src dst. unfold src, dst. split; [|split; [|split; [|split]]].
  - rewrite (computePReg_unfold _ _ _ r ds).
    destruct (greg_assigned _ r) as [[v n]|] eqn:G;
      [|now rewrite computePReg_unfold, G].
    destruct (ds !! regVarDeclare v) as [dcl|] eqn:L;
      [|now rewrite computePReg_unfold, G, L].
    rewrite computePReg_unfold, G, lookup_insert_eq. simpl.
    apply insert_insert_eq.
  - apply computePReg_elemSize.
  - apply computePReg_changes.
  - intros r2 v2 n2 _ G2 S Same. rewrite <- !computePReg_same.
    now apply (computePReg_overwrites _ _ _ r r2 ds v2 n2).
  - intros r2 _ Diff. rewrite <- !computePReg_same.
    now apply computePReg_commute.
Qed.

Lemma computePReg_rerun_witness :
  let ds : gmap nat G4_Declare := {[ 7%nat := mkDeclare 4 0 ]} in
  let r := mkRegion nat (VarBase_RegVar (mkRegVar (Some (G4_Greg 12)) 3 7))
                    2%nat in
  let r2 := mkRegion nat (VarBase_RegVar (mkRegVar (Some (G4_Greg 5)) 0 7))
                     4%nat in
  typeSizeNonZero Z.of_nat r /\ typeSizeNonZero Z.of_nat r2 /\
  G4_DstRegRegion_computePReg nat Z.of_nat 32 r2
    (G4_SrcRegRegion_computePReg nat Z.of_nat 32 r ds)
  = G4_DstRegRegion_computePReg nat Z.of_nat 32 r2 ds.
Proof.
  intros ds r r2.
  assert (N : typeSizeNonZero Z.of_nat r) by (vm_compute; discriminate).
  assert (N2 : typeSizeNonZero Z.of_nat r2) by (vm_compute; discriminate).
  split; [exact N|]. split; [exact N2|].
  destruct (computePReg_rerun nat Z.of_nat 32 r ds N) as (_ & _ & _ & O & _).
  apply (O r2 (mkRegVar (Some (G4_Greg 5)) 0 7) 5).
  - exact N2.
  - reflexivity.
  - exists (mkDeclare 4 0). reflexivity.
  - intros v n [= <- <-]. reflexivity.
Defined.

(** ** Summaries per block and return locations *)

Lemma firstFor_app {A} (k : nat) (l1 l2 : list (nat * A)) :
  firstFor k (l1 ++ l2)
  = match firstFor k l1 with Some a => Some a | None => firstFor k l2 end.
Proof.
  induction l1 as [|[k' a] l1 IH]; simpl; [reflexivity|].
  now destruct (decide (k' = k)).
Qed.

(** X14. A block keeps the first local-RA summary recorded for it, and the
    last return location: after a sequence of [addBBLRASummary] calls
    [getBBLRASummary] gives the summary the map already had for the block,
    or else that of the first call for the block, or else none; after a
    sequence of [setSubRetLoc] calls [getSubRetLoc] gives the value of the
    last call for the block, or else what it gave before, which is
    [UNDEFINED_VAL] for a block never set; after [clearBBLRASummaries] no
    block has a summary and a summary can be recorded anew. *)
Theorem block_summary_first_retloc_last (PhyRegSummary : Type)
    (UNDEFINED_VAL : Z) :
  (forall (calls : list (nat * PhyRegSummary)) m bb,
     getBBLRASummary PhyRegSummary bb
       (addBBLRASummaries PhyRegSummary calls m)
     = match getBBLRASummary PhyRegSummary bb m with
       | Some s => Some s
       | None => firstFor bb calls
       end) /\
  (forall (calls : list (nat * Z)) m bb,
     getSubRetLoc UNDEFINED_VAL bb (setSubRetLocs calls m)
     = match lastFor bb calls with
       | Some s => s
       | None => getSubRetLoc UNDEFINED_VAL bb m
       end) /\
  (forall bb, getSubRetLoc UNDEFINED_VAL bb ∅ = UNDEFINED_VAL) /\
  (forall (calls : list (nat * PhyRegSummary)) m bb,
     getBBLRASummary PhyRegSummary bb
       (addBBLRASummaries PhyRegSummary calls
          (clearBBLRASummaries PhyRegSummary m))
     = firstFor bb calls).
Proof.
  assert (First : forall (calls : list (nat * PhyRegSummary)) m bb,
     getBBLRASummary PhyRegSummary bb
       (addBBLRASummaries PhyRegSummary calls m)
     = match getBBLRASummary PhyRegSummary bb m with
       | Some s => Some s
       | None => firstFor bb calls
       end).
  { unfold getBBLRASummary, addBBLRASummaries.
    induction calls as [|[k a] calls IH]; intros m bb; simpl.
    - now destruct (m !! bb).
    - rewrite IH. unfold addBBLRASummary.
      destruct (decide (k = bb)) as [->|N].
      + destruct (m !! bb) as [s|] eqn:L; [now rewrite L|].
        now rewrite lookup_insert_eq.
      + destruct (m !! k); [reflexivity|].
        now rewrite lookup_insert_ne by assumption. }
  split; [exact First|]. split; [|split].
  - unfold getSubRetLoc, setSubRetLocs, lastFor.
    induction calls as [|[k a] calls IH]; intros m bb; simpl; [reflexivity|].
    rewrite IH, firstFor_app. unfold setSubRetLoc. simpl.
    destruct (firstFor bb (rev calls)); [reflexivity|].
    destruct (decide (k = bb)) as [->|N].
    + now rewrite lookup_insert_eq.
    + now rewrite lookup_insert_ne by assumption.
  - intros bb. unfold getSubRetLoc. now rewrite lookup_empty.
  - intros calls m bb. rewrite First.
    unfold getBBLRASummary, clearBBLRASummaries. now rewrite lookup_empty.
Qed.
